(** * S3 URI handling and prefix-based transfers of [braket.aws.aws_session]

    A shallow embedding of the parts of [AwsSession] that carry logic of
    their own: [parse_s3_uri], [is_s3_uri], [construct_s3_uri],
    [upload_to_s3], [upload_local_data], [copy_s3_object],
    [copy_s3_directory] and [list_keys].

    Python strings are modelled by [string] (sequences of [ascii]
    characters).  The built-ins the code calls ([str.replace], [str.join],
    [re.match], [pathlib.Path]) are modelled next to the code that uses
    them, each restricted to the features these functions exercise. *)

From Stdlib Require Import Bool Arith List Ascii String Lia.
Import ListNotations.
Open Scope string_scope.

(** ** Exceptions *)

Inductive exn : Type :=
| ValueError (msg : string)
| AssertionError
| KeyError (key : string)
| ClientError (msg : string)
| NotImplementedError (msg : string)
| IndexError.

Inductive result (A : Type) : Type :=
| Ok (a : A)
| Raise (e : exn).
Arguments Ok {A} a.
Arguments Raise {A} e.

(** ** Python [str] operations *)

Module PyStr.

(** [s[n:]] *)
Fixpoint drop (n : nat) (s : string) : string :=
  match n, s with
  | 0, _ => s
  | S _, EmptyString => EmptyString
  | S n', String _ s' => drop n' s'
  end.

(** [s[:n]] *)
Fixpoint take (n : nat) (s : string) : string :=
  match n, s with
  | 0, _ => EmptyString
  | S _, EmptyString => EmptyString
  | S n', String c s' => String c (take n' s')
  end.

(** [s.find(old)]: the lowest index at which [old] occurs, [None] for -1. *)
Fixpoint find (old s : string) : option nat :=
  if prefix old s then Some 0
  else match s with
       | EmptyString => None
       | String _ s' => option_map S (find old s')
       end.

(** [c in s] for a one-character [c]. *)
Fixpoint contains (c : ascii) (s : string) : bool :=
  match s with
  | EmptyString => false
  | String d s' => Ascii.eqb d c || contains c s'
  end.

(** Replacement of at most [n] occurrences of a non-empty [old], scanning
    from the left and resuming after each replaced occurrence. *)
Fixpoint replace_loop (n : nat) (old new s : string) : string :=
  match n with
  | 0 => s
  | S n' =>
      match find old s with
      | None => s
      | Some i =>
          take i s ++ new ++ replace_loop n' old new (drop (i + String.length old) s)
      end
  end.

(** Replacement of the empty string: [new] is inserted before each
    character and at the end, at most [n] times. *)
Fixpoint interleave (n : nat) (new s : string) : string :=
  match n with
  | 0 => s
  | S n' =>
      new ++ match s with
             | EmptyString => EmptyString
             | String c s' => String c (interleave n' new s')
             end
  end.

(** [s.replace(old, new)] when [count] is [None] (every occurrence) and
    [s.replace(old, new, n)] when it is [Some n]. *)
Definition replace (s old new : string) (count : option nat) : string :=
  let n := match count with
           | Some n => n
           | None => S (String.length s)
           end in
  if (old =? "")%string then interleave n new s else replace_loop n old new s.

(** [sep.join(parts)] *)
Definition join (sep : string) (parts : list string) : string :=
  String.concat sep parts.

End PyStr.

(** ** The fragment of Python's [re] used by [parse_s3_uri] *)

Module Re.

Definition LF : ascii := "010"%char.

(** One-character matchers. *)
Inductive cset : Type :=
| Lit (c : ascii)             (* an ordinary or escaped character *)
| OneOf (cs : list ascii)     (* [...] *)
| NoneOf (cs : list ascii)    (* [^...] *)
| Dot.                        (* . without DOTALL: anything but a line feed *)

Definition mem (c : ascii) (cs : list ascii) : bool :=
  existsb (Ascii.eqb c) cs.

Definition cset_mem (cs : cset) (c : ascii) : bool :=
  match cs with
  | Lit d => Ascii.eqb c d
  | OneOf l => mem c l
  | NoneOf l => negb (mem c l)
  | Dot => negb (Ascii.eqb c LF)
  end.

Inductive regex : Type :=
| Bol                         (* ^ *)
| Eol                         (* $ *)
| Chr (cs : cset)
| Plus (cs : cset)            (* greedy one-or-more of a one-character matcher *)
| Grp (r : regex)             (* capturing group *)
| Cat (r1 r2 : regex).

(** A literal run of characters, with [r] following it. *)
Fixpoint lits (s : string) (r : regex) : regex :=
  match s with
  | EmptyString => r
  | String c s' => Cat (Chr (Lit c)) (lits s' r)
  end.

(** Matcher state: characters consumed so far, the text still ahead, and
    the groups closed so far (in closing order, which for the patterns
    here is the order of their opening parentheses). *)
Record mstate : Type := MState {
  pos : nat;
  rest : string;
  groups : list string
}.

Definition advance (st : mstate) (s' : string) : mstate :=
  MState (S (pos st)) s' (groups st).

(** [$] without MULTILINE: at the end, or just before a final line feed. *)
Definition at_end (s : string) : bool :=
  match s with
  | EmptyString => true
  | String c EmptyString => Ascii.eqb c LF
  | _ => false
  end.

(** Backtracking for [cs+]: try one more repetition first, and hand the
    position to the continuation only when that fails. *)
Fixpoint plus_loop (cs : cset) (p : nat) (s : string) (g : list string)
         (k : mstate -> option (list string)) : option (list string) :=
  match s with
  | EmptyString => None
  | String c s' =>
      if cset_mem cs c then
        match plus_loop cs (S p) s' g k with
        | Some m => Some m
        | None => k (MState (S p) s' g)
        end
      else None
  end.

Fixpoint exec (r : regex) (st : mstate)
         (k : mstate -> option (list string)) : option (list string) :=
  match r with
  | Bol => if Nat.eqb (pos st) 0 then k st else None
  | Eol => if at_end (rest st) then k st else None
  | Chr cs =>
      match rest st with
      | EmptyString => None
      | String c s' => if cset_mem cs c then k (advance st s') else None
      end
  | Plus cs => plus_loop cs (pos st) (rest st) (groups st) k
  | Grp r' =>
      exec r' st (fun st' =>
        k (MState (pos st') (rest st')
             (groups st' ++ [PyStr.take (pos st' - pos st) (rest st)])%list))
  | Cat r1 r2 => exec r1 st (fun st' => exec r2 st' k)
  end.

(** [re.match(r, s)]: the groups of the match anchored at the start of
    [s], or [None]. *)
Definition re_match (r : regex) (s : string) : option (list string) :=
  exec r (MState 0 s []) (fun st => Some (groups st)).

End Re.

(** ** [pathlib] on a POSIX host, over a directory tree

    Paths are pure POSIX paths.  The file system is a tree of directories
    and regular files, without symbolic links, special files or
    permissions, and the working directory is a place in it.  [Path.glob]
    follows CPython 3.11: the pattern is cut into components, each
    component becomes a selector ([_make_selector]), and a name is matched
    against a component by [fnmatch.translate].  The entries of a
    directory are scanned in the order the tree lists them; their names
    are distinct on a real file system, which the model does not rely
    on. *)

Module PathLib.

(** [s.split("/")] *)
Fixpoint split_slash (s : string) : list string :=
  match s with
  | EmptyString => [EmptyString]
  | String c s' =>
      if Ascii.eqb c "/" then EmptyString :: split_slash s'
      else match split_slash s' with
           | [] => [String c EmptyString]
           | w :: ws => String c w :: ws
           end
  end.

Record path : Type := Path_ {
  anchor : string;          (* the root: empty, "/" or "//" *)
  parts : list string       (* the components after the root *)
}.

Definition parse_anchor (s : string) : string :=
  match s with
  | String "/" (String "/" (String "/" _)) => "/"
  | String "/" (String "/" _) => "//"
  | String "/" _ => "/"
  | _ => ""
  end.

Definition keep_part (p : string) : bool :=
  negb (p =? "") && negb (p =? ".").

(** [Path(s)] *)
Definition Path (s : string) : path :=
  Path_ (parse_anchor s) (filter keep_part (split_slash s)).

(** [str(p)], which on a POSIX host is also [p.as_posix()] *)
Definition str (p : path) : string :=
  match anchor p, parts p with
  | EmptyString, [] => "."
  | a, ps => a ++ PyStr.join "/" ps
  end.

Definition as_posix (p : path) : string := str p.

Definition is_absolute (p : path) : bool := negb (anchor p =? "").

(** [p.relative_to(Path(p.anchor))] *)
Definition relative_to_anchor (p : path) : path := Path_ "" (parts p).

(** [base / rel] for a relative [rel] *)
Definition joinpath (base : path) (rel : list string) : path :=
  Path_ (anchor base) (parts base ++ rel)%list.

(** *** The directory tree *)

#[local] Set Warnings "-register-all".

Inductive node : Type :=
| File
| Dir (entries : list (string * node)).

Definition is_dir (n : node) : bool :=
  match n with
  | Dir _ => true
  | File => false
  end.

Definition entries_of (n : node) : list (string * node) :=
  match n with
  | Dir es => es
  | File => []
  end.

(** Equality of two lists, item by item. *)
Definition list_eqb {A : Type} (eqb : A -> A -> bool) : list A -> list A -> bool :=
  fix all (xs ys : list A) : bool :=
    match xs, ys with
    | [], [] => true
    | x :: xs', y :: ys' => eqb x y && all xs' ys'
    | _, _ => false
    end.

Fixpoint node_eqb (a b : node) : bool :=
  match a, b with
  | File, File => true
  | Dir es, Dir fs =>
      list_eqb (fun e f => (fst e =? fst f)%string && node_eqb (snd e) (snd f)) es fs
  | _, _ => false
  end.

Record filesystem : Type := FileSystem {
  fs_root : node;           (* the tree below "/" *)
  fs_cwd : list string      (* the components of the working directory *)
}.

(** A place in the tree: a node, and the directories that lead to it from
    the root, the nearest first. *)
Record place : Type := Place {
  above : list node;
  here : node
}.

Definition place_eqb (a b : place) : bool :=
  node_eqb (here a) (here b) && list_eqb node_eqb (above a) (above b).

(** What [name] is in the directory at [l]: the entries of this name, and
    for [..] the directory above, which for the root is the root. *)
Definition child (l : place) (name : string) : list place :=
  if (name =? "..")%string then
    match here l with
    | Dir _ =>
        [match above l with
         | [] => l
         | d :: ds => Place ds d
         end]
    | File => []
    end
  else
    map (fun e => Place (here l :: above l) (snd e))
      (filter (fun e => (fst e =? name)%string) (entries_of (here l))).

(** Where the components [p] lead from [l]. *)
Fixpoint walk (l : place) (p : list string) : list place :=
  match p with
  | [] => [l]
  | name :: p' => flat_map (fun c => walk c p') (child l name)
  end.

(** The place of a path that is absolute or relative to the working
    directory. *)
Definition place_of (fs : filesystem) (p : path) : list place :=
  walk (Place [] (fs_root fs))
    (if is_absolute p then parts p else fs_cwd fs ++ parts p)%list.

(** *** Patterns: [fnmatch.translate] *)

(** A character of a bracket expression, and the hyphen that joins two of
    its chunks into a range. *)
Inductive atom : Type :=
| Lit (c : ascii)
| Hyphen.

Inductive item : Type :=
| One (c : ascii)
| Range (lo hi : ascii).

Inductive tok : Type :=
| Star
| Quest
| Char (c : ascii)
| Bracket (negated : bool) (items : list item).

(** The text up to the first "]", and what follows it. *)
Fixpoint until_close (s : string) : option (string * string) :=
  match s with
  | EmptyString => None
  | String c s' =>
      if Ascii.eqb c "]" then Some (EmptyString, s')
      else match until_close s' with
           | Some (stuff, rest) => Some (String c stuff, rest)
           | None => None
           end
  end.

(** After a "[": the [stuff] up to the closing "]", which is looked for
    after a leading "!" and a leading "]", and what follows it. *)
Definition bracket_body (s : string) : option (string * string) :=
  let '(bang, s1) :=
    match s with
    | String "!" t => ("!", t)
    | _ => ("", s)
    end in
  let '(close, s2) :=
    match s1 with
    | String "]" t => ("]", t)
    | _ => ("", s1)
    end in
  match until_close s2 with
  | Some (stuff, rest) => Some (bang ++ close ++ stuff, rest)
  | None => None
  end.

(** The chunks between the hyphens that make ranges: a hyphen among the
    first [skip] characters of a chunk does not end it. *)
Fixpoint split_chunks (skip : nat) (s : string) : string * list string :=
  match s with
  | EmptyString => (EmptyString, [])
  | String c s' =>
      match skip with
      | 0 =>
          if Ascii.eqb c "-" then
            (EmptyString, let '(chunk, chunks) := split_chunks 2 s' in chunk :: chunks)
          else let '(chunk, chunks) := split_chunks 0 s' in (String c chunk, chunks)
      | S skip' =>
          let '(chunk, chunks) := split_chunks skip' s' in (String c chunk, chunks)
      end
  end.

(** [if chunk: chunks.append(chunk) else: chunks[-1] += '-'] *)
Definition close_chunks (chunks : list string) : list string :=
  match rev chunks with
  | EmptyString :: c :: before => rev ((c ++ "-") :: before)
  | _ => chunks
  end.

Definition first_char (s : string) : ascii :=
  match s with
  | String c _ => c
  | EmptyString => zero
  end.

Fixpoint last_char (s : string) : ascii :=
  match s with
  | EmptyString => zero
  | String c EmptyString => c
  | String _ s' => last_char s'
  end.

Fixpoint but_last (s : string) : string :=
  match s with
  | EmptyString => EmptyString
  | String _ EmptyString => EmptyString
  | String c s' => String c (but_last s')
  end.

Definition but_first (s : string) : string :=
  match s with
  | String _ s' => s'
  | EmptyString => EmptyString
  end.

(** The loop that removes the empty ranges, from the last chunk to the
    second. *)
Fixpoint drop_empty_ranges (chunks : list string) : list string :=
  match chunks with
  | [] => []
  | c :: rest =>
      match drop_empty_ranges rest with
      | [] => [c]
      | d :: rest' =>
          if Nat.ltb (nat_of_ascii (first_char d)) (nat_of_ascii (last_char c))
          then (but_last c ++ but_first d) :: rest'
          else c :: d :: rest'
      end
  end.

Definition literals (s : string) : list atom := map Lit (list_ascii_of_string s).

(** The [stuff] as it is put between "[" and "]" of the regular
    expression: every character escaped where it needs to be, which makes
    it a literal, but for the hyphens that join the chunks. *)
Definition set_atoms (stuff : string) : list atom :=
  if PyStr.contains "-" stuff then
    match
      drop_empty_ranges
        (close_chunks
           (let '(chunk, chunks) :=
              split_chunks (match stuff with String "!" _ => 2 | _ => 1 end) stuff in
            chunk :: chunks))
    with
    | [] => []
    | c :: cs => (literals c ++ flat_map (fun d => Hyphen :: literals d) cs)%list
    end
  else literals stuff.

Definition atom_char (a : atom) : ascii :=
  match a with
  | Lit c => c
  | Hyphen => "-"
  end.

(** How [re] reads the inside of a set: a character followed by a hyphen
    and a character is a range, and a hyphen at the end is a literal. *)
Fixpoint set_items (atoms : list atom) : list item :=
  match atoms with
  | [] => []
  | this :: rest =>
      match rest with
      | [Hyphen] => [One (atom_char this); One "-"]
      | Hyphen :: that :: rest' =>
          Range (atom_char this) (atom_char that) :: set_items rest'
      | _ => One (atom_char this) :: set_items rest
      end
  end.

(** The set of a bracket expression; a leading "!" negates it.  The empty
    set matches nothing, and its negation every character. *)
Definition bracket (stuff : string) : tok :=
  match set_atoms stuff with
  | Lit "!" :: atoms => Bracket true (set_items atoms)
  | atoms => Bracket false (set_items atoms)
  end.

(** Consecutive [*] are compressed into one. *)
Definition add_star (res : list tok) : list tok :=
  match res with
  | Star :: _ => res
  | _ => Star :: res
  end.

(** The loop of [translate]; [fuel] bounds the characters read. *)
Fixpoint translate (fuel : nat) (pat : string) : list tok :=
  match fuel with
  | 0 => []
  | S fuel' =>
      match pat with
      | EmptyString => []
      | String c pat' =>
          if Ascii.eqb c "*" then add_star (translate fuel' pat')
          else if Ascii.eqb c "?" then Quest :: translate fuel' pat'
          else if Ascii.eqb c "[" then
            match bracket_body pat' with
            | None => Char "[" :: translate fuel' pat'
            | Some (stuff, rest) => bracket stuff :: translate fuel' rest
            end
          else Char c :: translate fuel' pat'
      end
  end.

Definition tokens (pat : string) : list tok := translate (String.length pat) pat.

Definition item_mem (c : ascii) (i : item) : bool :=
  match i with
  | One d => Ascii.eqb d c
  | Range lo hi =>
      Nat.leb (nat_of_ascii lo) (nat_of_ascii c)
      && Nat.leb (nat_of_ascii c) (nat_of_ascii hi)
  end.

(** [re.compile(fnmatch.translate(pat)).fullmatch(name)] *)
Fixpoint fnmatch (p : list tok) (name : string) : bool :=
  match p with
  | [] => (name =? "")%string
  | Star :: p' =>
      (fix skip (s : string) : bool :=
         fnmatch p' s
         || match s with
            | EmptyString => false
            | String _ s' => skip s'
            end) name
  | Quest :: p' =>
      match name with
      | EmptyString => false
      | String _ s' => fnmatch p' s'
      end
  | Char c :: p' =>
      match name with
      | EmptyString => false
      | String d s' => Ascii.eqb c d && fnmatch p' s'
      end
  | Bracket negated items :: p' =>
      match name with
      | EmptyString => false
      | String d s' => xorb negated (existsb (item_mem d) items) && fnmatch p' s'
      end
  end.

(** *** Selectors *)

Inductive selector : Type :=
| Terminating
| Precise (name : string) (dironly : bool) (successor : selector)
| Wildcard (pat : list tok) (dironly : bool) (successor : selector)
| RecursiveWildcard (successor : selector).

Definition is_wildcard_pattern (pat : string) : bool :=
  PyStr.contains "*" pat || PyStr.contains "?" pat || PyStr.contains "[" pat.

Definition has_stars (pat : string) : bool :=
  match PyStr.find "**" pat with
  | Some _ => true
  | None => false
  end.

Definition no_children (child_parts : list string) : bool :=
  match child_parts with
  | [] => true
  | _ => false
  end.

(** [_make_selector], with the successor that [_Selector.__init__] makes
    of the components that follow. *)
Fixpoint make_selector (pattern_parts : list string) : result selector :=
  match pattern_parts with
  | [] => Ok Terminating
  | pat :: child_parts =>
      if (pat =? "")%string then Ok Terminating
      else if (pat =? "**")%string then
        match make_selector child_parts with
        | Ok successor => Ok (RecursiveWildcard successor)
        | Raise e => Raise e
        end
      else if has_stars pat then
        Raise (ValueError "Invalid pattern: '**' can only be an entire path component")
      else
        match make_selector child_parts with
        | Ok successor =>
            Ok (if is_wildcard_pattern pat
                then Wildcard (tokens pat) (negb (no_children child_parts)) successor
                else Precise pat (negb (no_children child_parts)) successor)
        | Raise e => Raise e
        end
  end.

(** *** Selection *)

(** A path that was found: its components after the base, and its
    place. *)
Definition found : Type := list string * place.

Definition found_eqb (a b : found) : bool :=
  list_eqb String.eqb (fst a) (fst b) && place_eqb (snd a) (snd b).

(** [_iterate_directories]: a directory and every directory below it. *)
Fixpoint iterate_directories (p : list string) (up : list node) (n : node)
  : list found :=
  match n with
  | File => []
  | Dir es =>
      (p, Place up n)
        :: flat_map (fun e => iterate_directories (p ++ [fst e]) (n :: up) (snd e)) es
  end.

(** What the recursive selector yields, given what it has [yielded]: a
    path is yielded once.  On a real file system a path has one place. *)
Fixpoint once (yielded : list found) (ps : list found) : list found :=
  match ps with
  | [] => []
  | f :: ps' =>
      if existsb (found_eqb f) yielded then once yielded ps'
      else f :: once (f :: yielded) ps'
  end.

(** [selector._select_from(parent_path)] *)
Fixpoint select_from (s : selector) (parent : found) : list found :=
  match s with
  | Terminating => [parent]
  | Precise name dironly successor =>
      flat_map
        (fun c =>
           if negb dironly || is_dir (here c)
           then select_from successor ((fst parent ++ [name])%list, c)
           else [])
        (child (snd parent) name)
  | Wildcard pat dironly successor =>
      flat_map
        (fun e =>
           if (negb dironly || is_dir (snd e)) && fnmatch pat (fst e)
           then select_from successor
                  ((fst parent ++ [fst e])%list,
                   Place (here (snd parent) :: above (snd parent)) (snd e))
           else [])
        (entries_of (here (snd parent)))
  | RecursiveWildcard successor =>
      once []
        (flat_map (select_from successor)
           (iterate_directories (fst parent) (above (snd parent)) (here (snd parent))))
  end.

Fixpoint ends_with_slash (s : string) : bool :=
  match s with
  | EmptyString => false
  | String c EmptyString => Ascii.eqb c "/"
  | String _ s' => ends_with_slash s'
  end.

(** [base.glob(pattern)]: the paths found, each with the node it names.
    The paths are made when the loop asks for the first of them, and so
    is the error of a pattern that is refused. *)
Definition glob (fs : filesystem) (base : path) (pattern : string)
  : result (list (path * node)) :=
  if (pattern =? "")%string then Raise (ValueError "Unacceptable pattern: ''")
  else if is_absolute (Path pattern) then
    Raise (NotImplementedError "Non-relative patterns are unsupported")
  else
    match (parts (Path pattern) ++ (if ends_with_slash pattern then [""] else []))%list with
    | [] => Raise IndexError
    | pattern_parts =>
        match make_selector pattern_parts with
        | Raise e => Raise e
        | Ok selector =>
            Ok (map (fun f => (joinpath base (fst f), here (snd f)))
                  (flat_map
                     (fun l => if is_dir (here l) then select_from selector ([], l) else [])
                     (place_of fs base)))
        end
    end.

(** [file.is_file()] for a path that was found *)
Definition is_file (f : path * node) : bool := negb (is_dir (snd f)).

End PathLib.

(** ** [AwsSession]: the static URI helpers *)

Module AwsSession.

Import Re.

(** [^https://([^./]+)\.[sS]3\.[^/]+/(.+)$] *)
Definition OBJECT_URL : regex :=
  Cat Bol
    (lits "https://"
       (Cat (Grp (Plus (NoneOf ["."; "/"]%char)))
          (Cat (Chr (Lit "."))
             (Cat (Chr (OneOf ["s"; "S"]%char))
                (lits "3"
                   (Cat (Chr (Lit "."))
                      (Cat (Plus (NoneOf ["/"]%char))
                         (Cat (Chr (Lit "/"))
                            (Cat (Grp (Plus Dot)) Eol))))))))).

(** [^[sS]3://([^./]+)/(.+)$] *)
Definition S3_URI : regex :=
  Cat Bol
    (Cat (Chr (OneOf ["s"; "S"]%char))
       (lits "3://"
          (Cat (Grp (Plus (NoneOf ["."; "/"]%char)))
             (Cat (Chr (Lit "/"))
                (Cat (Grp (Plus Dot)) Eol))))).

(** Python's [a or b] on match objects, which are always truthy. *)
Definition py_or {A : Type} (a b : option A) : option A :=
  match a with
  | Some m => Some m
  | None => b
  end.

Definition parse_s3_uri (s3_uri : string) : result (string * string) :=
  let body : result (string * string) :=
    match py_or (re_match OBJECT_URL s3_uri) (re_match S3_URI s3_uri) with
    | None => Raise AssertionError
    | Some [bucket; key] => Ok (bucket, key)
    | Some _ => Raise (ValueError "unpack")
    end in
  match body with
  | Raise AssertionError | Raise (ValueError _) =>
      Raise (ValueError ("Not a valid S3 uri: " ++ s3_uri))
  | other => other
  end.

Definition is_s3_uri (s : string) : result bool :=
  match parse_s3_uri s with
  | Raise (ValueError _) => Ok false
  | Raise e => Raise e
  | Ok _ => Ok true
  end.

Definition construct_s3_uri (bucket : string) (dirs : list string) : result string :=
  match dirs with
  | [] => Raise (ValueError ("Not a valid S3 location: s3://" ++ bucket))
  | _ => Ok ("s3://" ++ bucket ++ "/" ++ PyStr.join "/" dirs)
  end.

(** *** The S3 client

    Every request made through [s3_client] is appended to a log; what the
    service answers may depend on the requests made before. *)

Inductive call : Type :=
| UploadFile (filename bucket key : string)
| Copy (source_bucket source_key bucket key : string)
| ListObjectsV2 (bucket prefix : string) (token : option string).

(** The fields of a [list_objects_v2] response that [list_keys] reads;
    [Contents] holds the ["Key"] of each listed object. *)
Record list_objects_output : Type := ListObjectsOutput {
  Contents : option (list string);
  IsTruncated : bool;
  NextContinuationToken : option string
}.

Record S3Client : Type := {
  reply_upload_file : list call -> string -> string -> string -> result unit;
  reply_copy : list call -> string -> string -> string -> string -> result unit;
  reply_list_objects_v2 :
    list call -> string -> string -> option string -> result list_objects_output
}.

(** Computations over the request log that may raise; [None] stands for a
    loop that is still running when its step budget is used up. *)
Definition M (A : Type) : Type := list call -> option (result A * list call).

Definition ret {A : Type} (a : A) : M A := fun log => Some (Ok a, log).

Definition raise {A : Type} (e : exn) : M A := fun log => Some (Raise e, log).

Definition bind {A B : Type} (m : M A) (f : A -> M B) : M B :=
  fun log =>
    match m log with
    | None => None
    | Some (Raise e, log') => Some (Raise e, log')
    | Some (Ok a, log') => f a log'
    end.

Notation "x <- m ;; k" := (bind m (fun x => k))
  (at level 61, m at next level, right associativity).
Notation "' p <- m ;; k" := (bind m (fun x => match x with p => k end))
  (at level 61, p pattern, m at next level, right associativity).

Definition lift {A : Type} (r : result A) : M A := fun log => Some (r, log).

(** [for x in xs: body(x)] *)
Fixpoint for_each {A : Type} (xs : list A) (body : A -> M unit) : M unit :=
  match xs with
  | [] => ret tt
  | x :: xs' => _ <- body x ;; for_each xs' body
  end.

(** [for x in itertools.chain(...): body(x)], each source being made when
    the loop reaches it. *)
Fixpoint for_chain {A : Type} (sources : list (result (list A))) (body : A -> M unit)
  : M unit :=
  match sources with
  | [] => ret tt
  | source :: sources' =>
      xs <- lift source ;;
      _ <- for_each xs body ;;
      for_chain sources' body
  end.

(** [d[key]] on a response field that may be absent *)
Definition getitem {A : Type} (key : string) (field : option A) : M A :=
  match field with
  | Some v => ret v
  | None => raise (KeyError key)
  end.

Section Session.

Variable s3_client : S3Client.

Definition s3_upload_file (filename bucket key : string) : M unit :=
  fun log =>
    Some (reply_upload_file s3_client log filename bucket key,
          (log ++ [UploadFile filename bucket key])%list).

Definition s3_copy (source_bucket source_key bucket key : string) : M unit :=
  fun log =>
    Some (reply_copy s3_client log source_bucket source_key bucket key,
          (log ++ [Copy source_bucket source_key bucket key])%list).

Definition s3_list_objects_v2 (bucket prefix : string) (token : option string)
  : M list_objects_output :=
  fun log =>
    Some (reply_list_objects_v2 s3_client log bucket prefix token,
          (log ++ [ListObjectsV2 bucket prefix token])%list).

Definition upload_to_s3 (filename s3_uri : string) : M unit :=
  '(bucket, key) <- lift (parse_s3_uri s3_uri) ;;
  s3_upload_file filename bucket key.

(** The base directory and the pattern prefix [upload_local_data] derives
    from [local_prefix]. *)
Definition prefix_base (local_prefix : string) : PathLib.path * string :=
  if PathLib.is_absolute (PathLib.Path local_prefix) then
    let base_dir := PathLib.Path (PathLib.anchor (PathLib.Path local_prefix)) in
    (base_dir, PathLib.str (PathLib.relative_to_anchor (PathLib.Path local_prefix)))
  else (PathLib.Path "", local_prefix).

(** The S3 URI [upload_local_data] computes for a matched file. *)
Definition remote_uri (local_prefix s3_prefix : string) (file : PathLib.path) : string :=
  PyStr.replace (PathLib.as_posix file)
    (PathLib.as_posix (PathLib.Path local_prefix)) s3_prefix None.

(** The body of the loop of [upload_local_data]. *)
Definition upload_matched (local_prefix s3_prefix : string)
           (file : PathLib.path * PathLib.node) : M unit :=
  if PathLib.is_file file then
    let s3_uri := remote_uri local_prefix s3_prefix (fst file) in
    upload_to_s3 (PathLib.str (fst file)) s3_uri
  else ret tt.

Definition upload_local_data (fs : PathLib.filesystem)
           (local_prefix s3_prefix : string) : M unit :=
  let '(base_dir, relative_prefix) := prefix_base local_prefix in
  for_chain
    [PathLib.glob fs base_dir (relative_prefix ++ "*");
     PathLib.glob fs base_dir (relative_prefix ++ "*/**/*")]
    (upload_matched local_prefix s3_prefix).

Definition copy_s3_object (source_s3_uri destination_s3_uri : string) : M unit :=
  if (source_s3_uri =? destination_s3_uri)%string then ret tt
  else
    '(source_bucket, source_key) <- lift (parse_s3_uri source_s3_uri) ;;
    '(destination_bucket, destination_key) <-
      lift (parse_s3_uri destination_s3_uri) ;;
    s3_copy source_bucket source_key destination_bucket destination_key.

(** The [while list_objects["IsTruncated"]] loop of [list_keys], run for
    at most [fuel] further pages. *)
Fixpoint list_keys_loop (fuel : nat) (bucket prefix : string)
         (list_objects : list_objects_output) (keys : list string)
  : M (list string) :=
  if IsTruncated list_objects then
    match fuel with
    | 0 => fun _ => None
    | S fuel' =>
        token <- getitem "NextContinuationToken"
                   (NextContinuationToken list_objects) ;;
        list_objects' <- s3_list_objects_v2 bucket prefix (Some token) ;;
        page <- getitem "Contents" (Contents list_objects') ;;
        list_keys_loop fuel' bucket prefix list_objects' (keys ++ page)%list
    end
  else ret keys.

Definition list_keys (fuel : nat) (bucket prefix : string) : M (list string) :=
  list_objects <- s3_list_objects_v2 bucket prefix None ;;
  keys <- getitem "Contents" (Contents list_objects) ;;
  list_keys_loop fuel bucket prefix list_objects keys.

Definition copy_s3_directory (fuel : nat)
           (source_s3_path destination_s3_path : string) : M unit :=
  if (source_s3_path =? destination_s3_path)%string then ret tt
  else
    '(source_bucket, source_prefix) <- lift (parse_s3_uri source_s3_path) ;;
    '(destination_bucket, destination_prefix) <-
      lift (parse_s3_uri destination_s3_path) ;;
    source_keys <- list_keys fuel source_bucket source_prefix ;;
    for_each source_keys
      (fun key =>
         s3_copy source_bucket key destination_bucket
           (PyStr.replace key source_prefix destination_prefix (Some 1))).

End Session.

End AwsSession.

(** ** Vocabulary of the specification *)

Module Spec.

Import Re.

Definition LFs : string := String LF EmptyString.

(** Every character of [s] is matched by [cs]. *)
Fixpoint all_in (cs : cset) (s : string) : bool :=
  match s with
  | EmptyString => true
  | String c s' => cset_mem cs c && all_in cs s'
  end.

(** The text does not go on with a character of [cs]. *)
Definition stops (cs : cset) (s : string) : bool :=
  match s with
  | EmptyString => true
  | String c _ => negb (cset_mem cs c)
  end.

(** The longest run of [cs] at the head of [s], and what follows it. *)
Fixpoint span (cs : cset) (s : string) : string * string :=
  match s with
  | EmptyString => (EmptyString, EmptyString)
  | String c s' =>
      if cset_mem cs c then (String c (fst (span cs s')), snd (span cs s'))
      else (EmptyString, s)
  end.

(** A bucket as the URI forms admit it: non-empty, without [.] and [/]. *)
Definition bucket_ok (b : string) : Prop :=
  b <> "" /\ PyStr.contains "." b = false /\ PyStr.contains "/" b = false.

(** The token [s3], in either case. *)
Definition s3_token (t : string) : Prop := t = "s3" \/ t = "S3".

(** [https://<bucket>.s3.<anything-without-slash>/<key>] *)
Definition virtual_hosted_form (s bucket key : string) : Prop :=
  exists tok host,
    s3_token tok /\ host <> "" /\ PyStr.contains "/" host = false /\
    s = "https://" ++ bucket ++ "." ++ tok ++ "." ++ host ++ "/" ++ key.

(** [s3://<bucket>/<key>] *)
Definition path_form (s bucket key : string) : Prop :=
  exists tok, s3_token tok /\ s = tok ++ "://" ++ bucket ++ "/" ++ key.

(** The string is of one of the two URI forms of the specification. *)
Definition recognized (s : string) : Prop :=
  exists bucket key,
    bucket_ok bucket /\ key <> "" /\
    (virtual_hosted_form s bucket key \/ path_form s bucket key).

(** A key that stays on one line. *)
Definition line_key (k : string) : Prop :=
  k <> "" /\ PyStr.contains LF k = false.

(** What the patterns accept: one of the two forms with a one-line key,
    possibly followed by a single closing line feed. *)
Definition accepted (s bucket key : string) : Prop :=
  bucket_ok bucket /\ line_key key /\
  exists nl, (nl = "" \/ nl = LFs) /\
    (virtual_hosted_form s bucket (key ++ nl) \/ path_form s bucket (key ++ nl)).

(** [r] is [s] with the first occurrence of [old] replaced by [new], and
    [s] itself when [old] does not occur. *)
Definition replaced_first (old new s r : string) : Prop :=
  (exists pre post,
      s = pre ++ old ++ post /\
      (forall pre' post', s = pre' ++ old ++ post' ->
                          String.length pre <= String.length pre') /\
      r = pre ++ new ++ post)
  \/ ((forall pre post, s <> pre ++ old ++ post) /\ r = s).

(** The error [parse_s3_uri] raises on [s]. *)
Definition invalid_uri (s : string) : exn :=
  ValueError ("Not a valid S3 uri: " ++ s).

(** The relative path [p] leads from the directory [n] to the node [m]. *)
Fixpoint names_node (n : PathLib.node) (p : list string) (m : PathLib.node) : Prop :=
  match p with
  | [] => m = n
  | name :: p' =>
      exists c, In (name, c) (PathLib.entries_of n) /\ names_node c p' m
  end.

(** The relative path [p] names a regular file of the tree [n]. *)
Definition names_file (n : PathLib.node) (p : list string) : Prop :=
  names_node n p PathLib.File.

(** The paths the two patterns of [upload_local_data] find, in the order
    of the chain, when both patterns are accepted. *)
Definition matching (fs : PathLib.filesystem) (local_prefix : string)
  : option (list (PathLib.path * PathLib.node)) :=
  let '(base_dir, relative_prefix) := AwsSession.prefix_base local_prefix in
  match PathLib.glob fs base_dir (relative_prefix ++ "*"),
        PathLib.glob fs base_dir (relative_prefix ++ "*/**/*") with
  | Ok direct, Ok nested => Some (direct ++ nested)%list
  | _, _ => None
  end.


(** A prefix without the characters that [glob] reads as a pattern. *)
Definition literal (s : string) : Prop :=
  PyStr.contains "*" s = false /\ PyStr.contains "?" s = false /\
  PyStr.contains "[" s = false.

(** How a literal prefix is read.  A relative prefix is taken as it is
    written: its stem is the text after its last "/", and its folders are
    the components before, without the empty ones and ".".  An absolute
    prefix is normalised first: its stem is its last component, or "."
    when it has none, and its folders are the components before. *)
Definition stem (local_prefix : string) : string :=
  if PathLib.is_absolute (PathLib.Path local_prefix)
  then last (PathLib.parts (PathLib.Path local_prefix)) "."
  else last (PathLib.split_slash local_prefix) "".

Definition folders (local_prefix : string) : list string :=
  if PathLib.is_absolute (PathLib.Path local_prefix)
  then removelast (PathLib.parts (PathLib.Path local_prefix))
  else filter PathLib.keep_part (removelast (PathLib.split_slash local_prefix)).

(** A component that [Path] keeps, and that is literal. *)
Definition folder_name (f : string) : Prop :=
  PathLib.keep_part f = true /\ literal f.

(** The selectors that follow the folders [fs] one by one, and then
    select by [tail]. *)
Fixpoint into (fs : list string) (tail : PathLib.selector) : PathLib.selector :=
  match fs with
  | [] => tail
  | f :: fs' => PathLib.Precise f true (into fs' tail)
  end.

(** Where a prefix starts from: the root when it is absolute, and the
    working directory otherwise. *)
Definition start (fs : PathLib.filesystem) (local_prefix : string)
  : list PathLib.place :=
  PathLib.walk (PathLib.Place [] (PathLib.fs_root fs))
    (if PathLib.is_absolute (PathLib.Path local_prefix) then []
     else PathLib.fs_cwd fs).

(** The directory the folders of a prefix lead to. *)
Definition folder (fs : PathLib.filesystem) (local_prefix : string)
           (d : PathLib.place) : Prop :=
  exists l, In l (start fs local_prefix) /\ In d (PathLib.walk l (folders local_prefix)).

(** Induction over a directory tree, with the hypothesis for every entry. *)
Fixpoint node_induction (P : PathLib.node -> Prop) (HF : P PathLib.File)
         (HD : forall es, Forall (fun e => P (snd e)) es -> P (PathLib.Dir es))
         (n : PathLib.node) : P n :=
  match n with
  | PathLib.File => HF
  | PathLib.Dir es =>
      HD es
        ((fix all (l : list (string * PathLib.node)) : Forall (fun e => P (snd e)) l :=
            match l with
            | [] => Forall_nil _
            | e :: l' => Forall_cons e (node_induction P HF HD (snd e)) (all l')
            end) es)
  end.

End Spec.

(** ** Fixtures: the file set of the docstring, and a client that accepts
    every request *)

Module Fixtures.

Import PathLib AwsSession.

Definition docstring_tree : node :=
  Dir [("input.csv", File);
       ("input-2.csv", File);
       ("input", Dir [("data.txt", File)]);
       ("input-dir", Dir [("data.csv", File)]);
       ("my-input.csv", File);
       ("my-dir", Dir [("input.csv", File)])].

(** The working directory is [/work]. *)
Definition docstring_fs : filesystem :=
  FileSystem (Dir [("work", docstring_tree)]) ["work"].

(** A directory [input] that holds a file whose own name starts with the
    prefix. *)
Definition nested_fs : filesystem :=
  FileSystem (Dir [("work", Dir [("input", Dir [("input.csv", File)])])]) ["work"].

(** Every upload and copy succeeds; a listing is one page of [keys]. *)
Definition accepting_client (keys : list string) : S3Client :=
  Build_S3Client
    (fun _ _ _ _ => Ok tt)
    (fun _ _ _ _ _ => Ok tt)
    (fun _ _ _ _ => Ok (ListObjectsOutput (Some keys) false None)).

End Fixtures.

(** ** The rest of [AwsSession]: buckets, roles, devices, tasks, jobs,
    images and the user agent

    The session keeps its cached fields and the trace of what it asked of
    the AWS clients, of [warnings] and of the tracking broadcast.  A
    paginator is the sequence of pages it would yield, each page an answer
    of the service that is read only when the loop reaches it.  The
    results that [functools.cache] keeps for [get_full_image_tag] are
    passed along with the calls.  The boto3 clients that the session
    creates on first use ([_s3], [_sts], [_iam], [_ecr]) are not fields of
    the model: what is asked of a client is in the trace. *)

Module Services.

(** The double quote, and a text between two of them. *)
Definition DQ : string := String (ascii_of_nat 34) EmptyString.

Definition quoted (s : string) : string := DQ ++ s ++ DQ.

(** Exceptions: those of the URI helpers, a botocore [ClientError] with
    the [Code] and [Message] of its [response["Error"]], and the others
    these functions raise. *)
Inductive pyexn : Type :=
| Builtin (e : exn)
| BotoClientError (code message : string)
| RuntimeError (msg : string)
| IndexError.

Inductive outcome (A : Type) : Type :=
| Return (a : A)
| Throw (e : pyexn).
Arguments Return {A} a.
Arguments Throw {A} e.

(** Truthiness of an optional string: [None] and the empty string are
    falsy. *)
Definition truthy (o : option string) : bool :=
  match o with
  | Some s => negb (s =? "")%string
  | None => false
  end.

(** Truthiness of an optional list: [None] and the empty list are falsy. *)
Definition truthy_list {A : Type} (o : option (list A)) : bool :=
  match o with
  | Some (_ :: _) => true
  | _ => false
  end.

(** [sub in s] on strings *)
Definition str_in (sub s : string) : bool :=
  match PyStr.find sub s with
  | Some _ => true
  | None => false
  end.

(** [x in xs] on a list of strings *)
Definition list_in (x : string) (xs : list string) : bool :=
  existsb (String.eqb x) xs.

(** [s.startswith(pre)] *)
Definition startswith (s pre : string) : bool := prefix pre s.

(** [s.split(sep)] for a one-character separator *)
Fixpoint split (sep : ascii) (s : string) : list string :=
  match s with
  | EmptyString => [EmptyString]
  | String c s' =>
      if Ascii.eqb c sep then EmptyString :: split sep s'
      else match split sep s' with
           | [] => [String c EmptyString]
           | w :: ws => String c w :: ws
           end
  end.

(** *** What the services are asked, and what they answer *)

Record role : Type := Role {
  RoleName : string;
  Arn : string
}.

Record roles_page : Type := RolesPage {
  Roles : option (list role)
}.

Record device : Type := Device {
  deviceArn : string;
  deviceName : string;
  deviceType : string;
  deviceStatus : string;
  providerName : string
}.

Record devices_page : Type := DevicesPage {
  devices : option (list device)
}.

Record device_filter : Type := DeviceFilter {
  filter_name : string;
  filter_values : list string
}.

(** An entry of ["associations"]; [item.get("type")] may find no type. *)
Record association : Type := Association {
  assoc_arn : option string;
  assoc_type : option string
}.

(** The keyword arguments of [create_quantum_task] that the code reads or
    writes; the others travel in [kw_rest]. *)
Record task_kwargs : Type := TaskKwargs {
  kw_deviceArn : option string;
  kw_shots : option nat;
  kw_associations : option (list association);
  kw_jobToken : option string;
  kw_rest : list (string * string)
}.

Record task_response : Type := TaskResponse {
  quantumTaskArn : option string;
  status : option string
}.

Inductive tracking_event : Type :=
| TaskCreationEvent (arn : string) (shots : nat) (is_job_task : bool) (device : string)
| TaskStatusEvent (arn : string) (status : string).

Inductive image_ids : Type :=
| ByTag (imageTag : string)
| ByDigest (imageDigest : string).

Record image_id : Type := ImageId {
  imageDigest : option string;
  imageTag : option string
}.

Record image : Type := Image {
  imageId : option image_id
}.

Record images_response : Type := ImagesResponse {
  images : option (list image)
}.

Inductive event : Type :=
| StsGetCallerIdentity
| S3CreateBucket (bucket : string) (location_constraint : option string)
| S3PutPublicAccessBlock (bucket : string)
    (block_public_acls ignore_public_acls block_public_policy
       restrict_public_buckets : bool)
| S3PutBucketPolicy (bucket policy : string)
| IamListRoles (path_prefix : string)
| BraketSearchDevices (filters : list device_filter) (max_items : nat)
| BraketCreateQuantumTask (kwargs : task_kwargs)
| BraketGetQuantumTask (arn : string) (additional : list string)
| BraketGetJob (arn : string) (additional : list string)
| BraketClient (user_agent_extra : string) (endpoint_url : option string)
| EcrBatchGetImage (registry repository : string) (ids : image_ids)
| Backoff
| Warning (message : string)
| Broadcast (e : tracking_event).

(** The answers, each as a function of what was asked before. *)
Record Cloud : Type := {
  sts_get_caller_identity : list event -> outcome (option string);
  s3_create_bucket : list event -> string -> option string -> outcome unit;
  s3_put_public_access_block : list event -> string -> outcome unit;
  s3_put_bucket_policy : list event -> string -> string -> outcome unit;
  iam_list_roles : list event -> string -> list (outcome roles_page);
  braket_search_devices :
    list event -> list device_filter -> list (outcome devices_page);
  braket_create_quantum_task : list event -> task_kwargs -> outcome task_response;
  braket_get_quantum_task : list event -> string -> outcome task_response;
  braket_get_job : list event -> string -> outcome string;
  ecr_batch_get_image :
    list event -> string -> string -> image_ids -> outcome images_response
}.

(** *** The session *)

Record session : Type := Session {
  region : string;
  _default_bucket : option string;
  _account_id : option string;
  _braket_user_agents : string;
  trace : list event
}.

Definition with_trace (st : session) (t : list event) : session :=
  Session (region st) (_default_bucket st) (_account_id st) (_braket_user_agents st) t.

Definition with_default_bucket (st : session) (b : option string) : session :=
  Session (region st) b (_account_id st) (_braket_user_agents st) (trace st).

Definition with_account_id (st : session) (a : option string) : session :=
  Session (region st) (_default_bucket st) a (_braket_user_agents st) (trace st).

Definition with_user_agents (st : session) (u : string) : session :=
  Session (region st) (_default_bucket st) (_account_id st) u (trace st).

Definition S (A : Type) : Type := session -> outcome A * session.

Definition ret {A : Type} (a : A) : S A := fun st => (Return a, st).

Definition throw {A : Type} (e : pyexn) : S A := fun st => (Throw e, st).

Definition bind {A B : Type} (m : S A) (f : A -> S B) : S B :=
  fun st =>
    match m st with
    | (Throw e, st') => (Throw e, st')
    | (Return a, st') => f a st'
    end.

Notation "x <- m ;; k" := (bind m (fun x => k))
  (at level 61, m at next level, right associativity).

Definition get : S session := fun st => (Return st, st).

Definition put (f : session -> session) : S unit := fun st => (Return tt, f st).

(** A call of a client: the answer depends on the trace so far, and the
    call joins the trace. *)
Definition ask {A : Type} (ev : event) (answer : list event -> outcome A) : S A :=
  fun st => (answer (trace st), with_trace st (trace st ++ [ev])).

Definition emit (ev : event) : S unit :=
  fun st => (Return tt, with_trace st (trace st ++ [ev])).

(** [d[key]] on a field that may be absent *)
Definition getitem {A : Type} (key : string) (field : option A) : S A :=
  match field with
  | Some v => ret v
  | None => throw (Builtin (KeyError key))
  end.

(** [xs[0]] *)
Definition first_item {A : Type} (xs : list A) : S A :=
  match xs with
  | x :: _ => ret x
  | [] => throw IndexError
  end.

(** A loop that may [return] from the enclosing function: [Some v] is the
    value returned, [None] the loop running to its end. *)
Fixpoint for_return {A B : Type} (xs : list A) (body : A -> S (option B))
  : S (option B) :=
  match xs with
  | [] => ret None
  | x :: xs' =>
      r <- body x ;;
      match r with
      | Some v => ret (Some v)
      | None => for_return xs' body
      end
  end.

(** Iteration over a paginator: a page that fails raises when the loop
    reaches it. *)
Fixpoint for_pages {P B : Type} (pages : list (outcome P)) (body : P -> S (option B))
  : S (option B) :=
  match pages with
  | [] => ret None
  | Throw e :: _ => throw e
  | Return page :: pages' =>
      r <- body page ;;
      match r with
      | Some v => ret (Some v)
      | None => for_pages pages' body
      end
  end.

(** [backoff.on_exception(backoff.expo, ClientError, max_tries=..., giveup=...)]:
    a [ClientError] is raised on when [giveup] says so or the tries are
    used up, and otherwise the target runs again after a wait; any other
    exception is not caught.  [retries] is the number of tries left after
    the one being made. *)
Fixpoint on_exception {A : Type} (retries : nat) (giveup : pyexn -> bool)
         (target : S A) : S A :=
  fun st =>
    match target st with
    | (Throw (BotoClientError code message), st') =>
        if giveup (BotoClientError code message) then
          (Throw (BotoClientError code message), st')
        else
          match retries with
          | 0 => (Throw (BotoClientError code message), st')
          | Datatypes.S retries' =>
              on_exception retries' giveup target (with_trace st' (trace st' ++ [Backoff]))
          end
    | other => other
    end.

Definition max_tries : nat := 3.

(** The pattern [py\d\d+] on ASCII text, where [\d] is one of the ten
    ASCII digits.  On a [str] the class also holds the decimal digits of
    the other scripts, none of them an ASCII character: what is proved
    with this pattern is stated for ASCII tags. *)
Definition digit : Re.cset :=
  Re.OneOf ["0"; "1"; "2"; "3"; "4"; "5"; "6"; "7"; "8"; "9"]%char.

Definition PY_VERSION : Re.regex :=
  Re.lits "py" (Re.Cat (Re.Chr digit) (Re.Plus digit)).

(** [re.search(r, s)]: the first position from which [r] matches. *)
Fixpoint search_from (r : Re.regex) (p : nat) (s : string) : option (list string) :=
  match Re.exec r (Re.MState p s []) (fun st => Some (Re.groups st)) with
  | Some g => Some g
  | None =>
      match s with
      | EmptyString => None
      | String _ s' => search_from r (Datatypes.S p) s'
      end
  end.

Definition re_search (r : Re.regex) (s : string) : option (list string) :=
  search_from r 0 s.

Definition LFs : string := String Re.LF EmptyString.

(** The policy document of [_create_s3_bucket_if_it_does_not_exist]. *)
Definition bucket_policy (bucket_name : string) : string :=
  PyStr.join LFs
    ["{";
     "                    " ++ quoted "Version" ++ ": " ++ quoted "2012-10-17" ++ ",";
     "                    " ++ quoted "Statement" ++ ": [";
     "                        {";
     "                            " ++ quoted "Effect" ++ ": " ++ quoted "Allow" ++ ",";
     "                            " ++ quoted "Principal" ++ ": {";
     "                                " ++ quoted "Service" ++ ": [";
     "                                    " ++ quoted "braket.amazonaws.com";
     "                                ]";
     "                            },";
     "                            " ++ quoted "Action" ++ ": " ++ quoted "s3:*" ++ ",";
     "                            " ++ quoted "Resource" ++ ": [";
     "                                " ++ quoted ("arn:aws:s3:::" ++ bucket_name) ++ ",";
     "                                " ++ quoted ("arn:aws:s3:::" ++ bucket_name ++ "/*");
     "                            ]";
     "                        }";
     "                    ]";
     "                }"].

Definition RESERVATION_WARNING : string :=
  "A reservation ARN was passed to 'CreateQuantumTask', but it is being overridden "
  ++ "by a 'DirectReservation' context. If this was not intended, please review your "
  ++ "reservation ARN settings or the context in which 'CreateQuantumTask' is called.".

Definition NO_DEFAULT_ROLE : string :=
  "No default jobs roles found. Please create a role using the "
  ++ "Amazon Braket console or supply a custom role.".

(** [a == b] on optional strings *)
Definition opt_eqb (a b : option string) : bool :=
  match a, b with
  | Some x, Some y => (x =? y)%string
  | None, None => true
  | _, _ => false
  end.

Definition is_some {A : Type} (o : option A) : bool :=
  match o with
  | Some _ => true
  | None => false
  end.

(** What [functools.cache] keeps for a method of the session: the results
    of the calls that returned, by argument.  The model has one session,
    so that the argument [self] of the key is left out. *)
Definition memo : Type := list (string * string).

Fixpoint memo_get (key : string) (kept : memo) : option string :=
  match kept with
  | [] => None
  | (k, v) :: kept' => if (k =? key)%string then Some v else memo_get key kept'
  end.

Section Session.

Variable cloud : Cloud.

(** [os.environ.get] and [os.getenv] *)
Variable environ : string -> option string.

Definition account_id : S string :=
  st <- get ;;
  if negb (truthy (_account_id st)) then
    response <- ask StsGetCallerIdentity (sts_get_caller_identity cloud) ;;
    account <- getitem "Account" response ;;
    _ <- put (fun st => with_account_id st (Some account)) ;;
    ret account
  else getitem "_account_id" (_account_id st).

(** The [try] block of [_create_s3_bucket_if_it_does_not_exist]. *)
Definition create_bucket_requests (bucket_name region : string) : S unit :=
  _ <- (if (region =? "us-east-1")%string then
          ask (S3CreateBucket bucket_name None)
            (fun t => s3_create_bucket cloud t bucket_name None)
        else
          ask (S3CreateBucket bucket_name (Some region))
            (fun t => s3_create_bucket cloud t bucket_name (Some region))) ;;
  _ <- ask (S3PutPublicAccessBlock bucket_name true true true true)
         (fun t => s3_put_public_access_block cloud t bucket_name) ;;
  ask (S3PutBucketPolicy bucket_name (bucket_policy bucket_name))
    (fun t => s3_put_bucket_policy cloud t bucket_name (bucket_policy bucket_name)).

Definition _create_s3_bucket_if_it_does_not_exist (bucket_name region : string)
  : S unit :=
  fun st =>
    match create_bucket_requests bucket_name region st with
    | (Throw (BotoClientError error_code message), st') =>
        if (error_code =? "BucketAlreadyOwnedByYou")%string
           || (negb (error_code =? "BucketAlreadyExists")%string
               && (error_code =? "OperationAborted")%string
               && str_in "conflicting conditional operation" message)
        then (Return tt, st')
        else if (error_code =? "BucketAlreadyExists")%string then
          (Throw (Builtin (ValueError
             ("Provided default bucket '" ++ bucket_name ++ "' already exists "
              ++ "for another account. Please supply alternative "
              ++ "bucket name via AwsSession constructor `AwsSession()`."))), st')
        else (Throw (BotoClientError error_code message), st')
    | other => other
    end.

Definition default_bucket : S string :=
  st <- get ;;
  if truthy (_default_bucket st) then getitem "_default_bucket" (_default_bucket st)
  else
    account <- account_id ;;
    let default_bucket := "amazon-braket-" ++ region st ++ "-" ++ account in
    _ <- _create_s3_bucket_if_it_does_not_exist default_bucket (region st) ;;
    _ <- put (fun st => with_default_bucket st (Some default_bucket)) ;;
    ret default_bucket.

Definition get_default_jobs_role : S string :=
  pages <- ask (IamListRoles "/service-role/")
             (fun t => Return (iam_list_roles cloud t "/service-role/")) ;;
  found <- for_pages pages
             (fun page =>
                for_return (match Roles page with Some rs => rs | None => [] end)
                  (fun role =>
                     if startswith (RoleName role) "AmazonBraketJobsExecutionRole"
                     then ret (Some (Arn role))
                     else ret None)) ;;
  match found with
  | Some arn => ret arn
  | None => throw (RuntimeError NO_DEFAULT_ROLE)
  end.

(** The five tests of the inner loop of [search_devices]; [true] is the
    [continue]. *)
Definition skipped (names types statuses provider_names : option (list string))
           (result : device) : bool :=
  if truthy_list names && negb (list_in (deviceName result)
                                  (match names with Some l => l | None => [] end))
  then true
  else if truthy_list types && negb (list_in (deviceType result)
                                       (match types with Some l => l | None => [] end))
  then true
  else if truthy_list statuses && negb (list_in (deviceStatus result)
                                          (match statuses with Some l => l | None => [] end))
  then true
  else if negb (is_some statuses) && (deviceStatus result =? "RETIRED")%string
  then true
  else if truthy_list provider_names
          && negb (list_in (providerName result)
                     (match provider_names with Some l => l | None => [] end))
  then true
  else false.

(** The page loop of [search_devices], with [results] as accumulated so
    far. *)
Fixpoint search_pages (names types statuses provider_names : option (list string))
         (pages : list (outcome devices_page)) (results : list device)
  : S (list device) :=
  match pages with
  | [] => ret results
  | Throw e :: _ => throw e
  | Return page :: pages' =>
      page_devices <- getitem "devices" (devices page) ;;
      search_pages names types statuses provider_names pages'
        (fold_left
           (fun results result =>
              if skipped names types statuses provider_names result then results
              else (results ++ [result])%list)
           page_devices results)
  end.

Definition search_devices (arns names types statuses provider_names : option (list string))
  : S (list device) :=
  let filters :=
    if truthy_list arns then
      [DeviceFilter "deviceArn" (match arns with Some l => l | None => [] end)]
    else [] in
  pages <- ask (BraketSearchDevices filters 100)
             (fun t => Return (braket_search_devices cloud t filters)) ;;
  search_pages names types statuses provider_names pages [].

Definition create_quantum_task (boto3_kwargs : task_kwargs) : S string :=
  let context_device_arn := environ "AMZN_BRAKET_RESERVATION_DEVICE_ARN" in
  let context_reservation_arn := environ "AMZN_BRAKET_RESERVATION_TIME_WINDOW_ARN" in
  let task_has_reservation :=
    existsb (fun item => opt_eqb (assoc_type item) (Some "RESERVATION_TIME_WINDOW_ARN"))
      (match kw_associations boto3_kwargs with Some l => l | None => [] end) in
  _ <- (if task_has_reservation && truthy context_reservation_arn
        then emit (Warning RESERVATION_WARNING)
        else ret tt) ;;
  device_arn <- getitem "deviceArn" (kw_deviceArn boto3_kwargs) ;;
  let boto3_kwargs :=
    if opt_eqb context_device_arn (Some device_arn) && truthy context_reservation_arn
    then
      TaskKwargs (kw_deviceArn boto3_kwargs) (kw_shots boto3_kwargs)
        (Some [Association context_reservation_arn (Some "RESERVATION_TIME_WINDOW_ARN")])
        (kw_jobToken boto3_kwargs) (kw_rest boto3_kwargs)
    else boto3_kwargs in
  let job_token := environ "AMZN_BRAKET_JOB_TOKEN" in
  let boto3_kwargs :=
    if truthy job_token then
      TaskKwargs (kw_deviceArn boto3_kwargs) (kw_shots boto3_kwargs)
        (kw_associations boto3_kwargs) job_token (kw_rest boto3_kwargs)
    else boto3_kwargs in
  response <- ask (BraketCreateQuantumTask boto3_kwargs)
                (fun t => braket_create_quantum_task cloud t boto3_kwargs) ;;
  arn <- getitem "quantumTaskArn" (quantumTaskArn response) ;;
  shots <- getitem "shots" (kw_shots boto3_kwargs) ;;
  device <- getitem "deviceArn" (kw_deviceArn boto3_kwargs) ;;
  _ <- emit (Broadcast (TaskCreationEvent arn shots (is_some job_token) device)) ;;
  getitem "quantumTaskArn" (quantumTaskArn response).

Definition _should_giveup (err : pyexn) : bool :=
  negb (match err with
        | BotoClientError code _ =>
            list_in code ["ResourceNotFoundException"; "ThrottlingException"]
        | _ => false
        end).

Definition get_quantum_task (arn : string) : S task_response :=
  on_exception (max_tries - 1) _should_giveup
    (response <- ask (BraketGetQuantumTask arn ["QueueInfo"])
                   (fun t => braket_get_quantum_task cloud t arn) ;;
     task_arn <- getitem "quantumTaskArn" (quantumTaskArn response) ;;
     task_status <- getitem "status" (status response) ;;
     _ <- emit (Broadcast (TaskStatusEvent task_arn task_status)) ;;
     ret response).

Definition get_job (arn : string) : S string :=
  on_exception (max_tries - 1) _should_giveup
    (ask (BraketGetJob arn ["QueueInfo"]) (fun t => braket_get_job cloud t arn)).

Definition add_braket_user_agent (user_agent : string) : S unit :=
  st <- get ;;
  _ <- (if negb (str_in user_agent (_braket_user_agents st)) then
          put (fun st =>
                 with_user_agents st (_braket_user_agents st ++ " " ++ user_agent))
        else ret tt) ;;
  st <- get ;;
  emit (BraketClient (_braket_user_agents st) (environ "BRAKET_ENDPOINT")).

(** The body of [get_full_image_tag], which [functools] keeps as
    [get_full_image_tag.__wrapped__]. *)
Definition get_full_image_tag_wrapped (image_uri : string) : S string :=
  registry <- first_item (split "." image_uri) ;;
  parts <- (match split ":" (last (split "/" image_uri) EmptyString) with
            | [repository; tag] => ret (repository, tag)
            | [_] =>
                throw (Builtin (ValueError
                                  "not enough values to unpack (expected 2, got 1)"))
            | _ => throw (Builtin (ValueError "too many values to unpack (expected 2)"))
            end) ;;
  let repository := fst parts in
  let tag := snd parts in
  response <- ask (EcrBatchGetImage registry repository (ByTag tag))
                (fun t => ecr_batch_get_image cloud t registry repository (ByTag tag)) ;;
  tagged <- getitem "images" (images response) ;;
  latest <- first_item tagged ;;
  latest_id <- getitem "imageId" (imageId latest) ;;
  digest <- getitem "imageDigest" (imageDigest latest_id) ;;
  response <- ask (EcrBatchGetImage registry repository (ByDigest digest))
                (fun t => ecr_batch_get_image cloud t registry repository (ByDigest digest)) ;;
  same_image <- getitem "images" (images response) ;;
  found <- for_return same_image
             (fun image =>
                id <- getitem "imageId" (imageId image) ;;
                tag <- getitem "imageTag" (imageTag id) ;;
                if is_some (re_search PY_VERSION tag) then ret (Some tag) else ret None) ;;
  match found with
  | Some tag => ret tag
  | None => throw (Builtin (ValueError "Full image tag missing."))
  end.

(** [@cache]: a call whose argument is among the kept results returns the
    kept result and runs nothing; any other call runs the body, and keeps
    its result when it returns.  A call that raises keeps nothing. *)
Definition get_full_image_tag (image_uri : string) (kept : memo)
  : S (string * memo) :=
  match memo_get image_uri kept with
  | Some tag => ret (tag, kept)
  | None =>
      tag <- get_full_image_tag_wrapped image_uri ;;
      ret (tag, (image_uri, tag) :: kept)
  end.

End Session.

End Services.

(** ** Vocabulary for the properties of the transfers *)

Module TransferSpec.

Import AwsSession.

(** The service answers the listing of [prefix] in [bucket], from the
    request with [token] on, with the pages [pages], the last of them not
    truncated; [log'] is the log after these requests. *)
Inductive serves (c : S3Client) (bucket prefix : string)
  : list call -> option string -> list (list string) -> list call -> Prop :=
| serves_last (log : list call) (token next : option string) (page : list string) :
    reply_list_objects_v2 c log bucket prefix token
    = Ok (ListObjectsOutput (Some page) false next) ->
    serves c bucket prefix log token [page]
      (log ++ [ListObjectsV2 bucket prefix token])
| serves_more (log log' : list call) (token : option string) (next : string)
              (page : list string) (pages : list (list string)) :
    reply_list_objects_v2 c log bucket prefix token
    = Ok (ListObjectsOutput (Some page) true (Some next)) ->
    serves c bucket prefix (log ++ [ListObjectsV2 bucket prefix token])
      (Some next) pages log' ->
    serves c bucket prefix log token (page :: pages) log'.

(** The service accepts the uploads of the regular files among [files],
    each to the bucket and the key of the URI computed for it, one after
    the other; [log'] is the log after these uploads. *)
Inductive uploads (c : S3Client) (local_prefix s3_prefix : string)
  : list call -> list (PathLib.path * PathLib.node) -> list call -> Prop :=
| uploads_done (log : list call) : uploads c local_prefix s3_prefix log [] log
| uploads_skip (log log' : list call) (file : PathLib.path * PathLib.node)
               (files : list (PathLib.path * PathLib.node)) :
    PathLib.is_file file = false ->
    uploads c local_prefix s3_prefix log files log' ->
    uploads c local_prefix s3_prefix log (file :: files) log'
| uploads_next (log log' : list call) (file : PathLib.path * PathLib.node)
               (files : list (PathLib.path * PathLib.node)) (bucket key : string) :
    PathLib.is_file file = true ->
    parse_s3_uri (remote_uri local_prefix s3_prefix (fst file)) = Ok (bucket, key) ->
    reply_upload_file c log (PathLib.str (fst file)) bucket key = Ok tt ->
    uploads c local_prefix s3_prefix
      (log ++ [UploadFile (PathLib.str (fst file)) bucket key]) files log' ->
    uploads c local_prefix s3_prefix log (file :: files) log'.

(** A single path component that [Path] keeps as it is. *)
Definition component (s : string) : Prop :=
  s <> "" /\ s <> "." /\ PyStr.contains "/" s = false.

(** A listing in two pages, and a listing without [Contents]. *)
Definition two_page_client : S3Client :=
  Build_S3Client
    (fun _ _ _ _ => Ok tt)
    (fun _ _ _ _ _ => Ok tt)
    (fun _ _ _ token =>
       match token with
       | None => Ok (ListObjectsOutput (Some ["a/1"; "a/2"]) true (Some "t1"))
       | Some _ => Ok (ListObjectsOutput (Some ["a/3"]) false None)
       end).

Definition empty_listing_client : S3Client :=
  Build_S3Client
    (fun _ _ _ _ => Ok tt)
    (fun _ _ _ _ _ => Ok tt)
    (fun _ _ _ _ => Ok (ListObjectsOutput None false None)).

End TransferSpec.

(** ** Vocabulary for the properties of the other operations *)

Module ServicesSpec.

Import Services.

(** The requests that set up a bucket, in their order; in [us-east-1] the
    bucket is created without a location constraint. *)
Definition bucket_plan (bucket region : string) : list event :=
  [S3CreateBucket bucket (if (region =? "us-east-1")%string then None else Some region);
   S3PutPublicAccessBlock bucket true true true true;
   S3PutBucketPolicy bucket (bucket_policy bucket)].

(** The answer to the [i]-th request of the plan, the earlier ones made. *)
Definition bucket_answer (cloud : Cloud) (st : session) (bucket region : string)
           (i : nat) : outcome unit :=
  match i with
  | 0 =>
      s3_create_bucket cloud (trace st) bucket
        (if (region =? "us-east-1")%string then None else Some region)
  | 1 =>
      s3_put_public_access_block cloud
        (trace st ++ firstn 1 (bucket_plan bucket region)) bucket
  | _ =>
      s3_put_bucket_policy cloud
        (trace st ++ firstn 2 (bucket_plan bucket region)) bucket (bucket_policy bucket)
  end.

(** The errors that tell the bucket is there, or is being created. *)
Definition already_there (e : pyexn) : Prop :=
  exists code message,
    e = BotoClientError code message /\
    (code = "BucketAlreadyOwnedByYou" \/
     (code = "OperationAborted" /\
      str_in "conflicting conditional operation" message = true)).

(** The error that tells the name belongs to another account. *)
Definition taken (e : pyexn) : Prop :=
  exists message, e = BotoClientError "BucketAlreadyExists" message.

Definition bucket_taken_error (bucket : string) : pyexn :=
  Builtin (ValueError
    ("Provided default bucket '" ++ bucket ++ "' already exists "
     ++ "for another account. Please supply alternative "
     ++ "bucket name via AwsSession constructor `AwsSession()`.")).

(** The roles of a page that was read. *)
Definition roles_of (page : roles_page) : list role :=
  match Roles page with
  | Some rs => rs
  | None => []
  end.

Definition is_default_role (r : role) : bool :=
  prefix "AmazonBraketJobsExecutionRole" (RoleName r).

(** A value passes a filter that is absent or empty, and otherwise has to
    be one of its entries. *)
Definition passes (filter : option (list string)) (value : string) : Prop :=
  match filter with
  | Some (x :: l) => In value (x :: l)
  | _ => True
  end.

(** The device is wanted by a search with these filters. *)
Definition wanted (names types statuses provider_names : option (list string))
           (d : device) : Prop :=
  passes names (deviceName d) /\
  passes types (deviceType d) /\
  passes statuses (deviceStatus d) /\
  (statuses = None -> deviceStatus d <> "RETIRED") /\
  passes provider_names (providerName d).

(** The trace of [k] tries of [get_job] that were followed by a wait. *)
Fixpoint failed_tries (arn : string) (k : nat) : list event :=
  match k with
  | 0 => []
  | Datatypes.S k' => BraketGetJob arn ["QueueInfo"] :: Backoff :: failed_tries arn k'
  end.

(** An answer after which [get_job] and [get_quantum_task] try again. *)
Definition retriable {A : Type} (r : outcome A) : Prop :=
  exists code message,
    r = Throw (BotoClientError code message) /\
    (code = "ResourceNotFoundException" \/ code = "ThrottlingException").

(** The caller's associations hold a reservation. *)
Definition reserves (kw : task_kwargs) : Prop :=
  exists given item,
    kw_associations kw = Some given /\ In item given /\
    assoc_type item = Some "RESERVATION_TIME_WINDOW_ARN".

(** The task as it is sent in the context of a reservation [arn] for its
    device [dev]: the job token is the one of the environment when that
    is not empty, and the caller's otherwise. *)
Definition reserved_request (environ : string -> option string)
           (kw : task_kwargs) (dev arn : string) : task_kwargs :=
  TaskKwargs (Some dev) (kw_shots kw)
    (Some [Association (Some arn) (Some "RESERVATION_TIME_WINDOW_ARN")])
    (if truthy (environ "AMZN_BRAKET_JOB_TOKEN")
     then environ "AMZN_BRAKET_JOB_TOKEN" else kw_jobToken kw)
    (kw_rest kw).

(** A text of ASCII characters. *)
Definition ascii_text (s : string) : Prop :=
  forallb (fun c => Nat.ltb (nat_of_ascii c) 128) (list_ascii_of_string s) = true.

Definition is_digit (c : ascii) : Prop :=
  In c ["0"; "1"; "2"; "3"; "4"; "5"; "6"; "7"; "8"; "9"]%char.

(** The tag holds [py] followed by two digits. *)
Definition has_python_version (tag : string) : Prop :=
  exists before d1 d2 after,
    is_digit d1 /\ is_digit d2 /\
    tag = before ++ "py" ++ String d1 (String d2 after).

Definition python_tag (tag : string) : bool :=
  is_some (re_search PY_VERSION tag).

(** The number of occurrences of a character. *)
Fixpoint count_char (c : ascii) (s : string) : nat :=
  match s with
  | EmptyString => 0
  | String d s' => (if Ascii.eqb d c then 1 else 0) + count_char c s'
  end.

(** An image of a response, with its tag. *)
Definition tagged (entry : option string * string) : image :=
  Image (Some (ImageId (fst entry) (Some (snd entry)))).

(** *** Fixtures *)

(** A service that accepts every request; the account is [123456789012],
    there is one role and one device, and an image has the two tags
    [latest] and [1.0-cpu-py310-ubuntu22.04]. *)
Definition accepting_cloud : Cloud :=
  Build_Cloud
    (fun _ => Return (Some "123456789012"))
    (fun _ _ _ => Return tt)
    (fun _ _ => Return tt)
    (fun _ _ _ => Return tt)
    (fun _ _ =>
       [Return (RolesPage (Some [Role "Admin" "arn:aws:iam::1:role/Admin"]));
        Return (RolesPage (Some [Role "AmazonBraketJobsExecutionRole-1"
                                   "arn:aws:iam::1:role/service-role/Jobs"]))])
    (fun _ _ =>
       [Return (DevicesPage (Some [Device "arn:sv1" "SV1" "SIMULATOR" "ONLINE" "Amazon";
                                   Device "arn:old" "Old" "QPU" "RETIRED" "Vendor"]))])
    (fun _ _ => Return (TaskResponse (Some "arn:task") (Some "CREATED")))
    (fun _ _ => Return (TaskResponse (Some "arn:task") (Some "RUNNING")))
    (fun _ _ => Return "job")
    (fun _ _ _ _ =>
       Return (ImagesResponse
                 (Some [tagged (Some "sha256:0", "latest");
                        tagged (Some "sha256:0", "1.0-cpu-py310-ubuntu22.04")]))).

(** A service whose bucket requests fail with the given error, and whose
    job requests are throttled. *)
Definition failing_cloud (code message : string) : Cloud :=
  Build_Cloud
    (fun _ => Return (Some "123456789012"))
    (fun _ _ _ => Throw (BotoClientError code message))
    (fun _ _ => Return tt)
    (fun _ _ _ => Return tt)
    (fun _ _ => [])
    (fun _ _ => [])
    (fun _ _ => Throw (BotoClientError code message))
    (fun _ _ => Throw (BotoClientError code message))
    (fun _ _ => Throw (BotoClientError code message))
    (fun _ _ _ _ => Throw (BotoClientError code message)).

Definition no_environ : string -> option string := fun _ => None.

(** A reservation for the device [arn:device], and an empty job token. *)
Definition reserved_environ (name : string) : option string :=
  if (name =? "AMZN_BRAKET_RESERVATION_DEVICE_ARN")%string then Some "arn:device"
  else if (name =? "AMZN_BRAKET_RESERVATION_TIME_WINDOW_ARN")%string
       then Some "arn:reservation"
  else if (name =? "AMZN_BRAKET_JOB_TOKEN")%string then Some ""
  else None.

(** A reservation for another device. *)
Definition elsewhere_environ (name : string) : option string :=
  if (name =? "AMZN_BRAKET_RESERVATION_DEVICE_ARN")%string then Some "arn:elsewhere"
  else if (name =? "AMZN_BRAKET_RESERVATION_TIME_WINDOW_ARN")%string
       then Some "arn:reservation"
  else None.

(** A task for [arn:device] that names a reservation of its own. *)
Definition reserved_task : task_kwargs :=
  TaskKwargs (Some "arn:device") (Some 100)
    (Some [Association (Some "arn:mine") (Some "RESERVATION_TIME_WINDOW_ARN")])
    None [].

Definition fresh_session : session :=
  Session "us-west-2" None None "BraketSdk/1 BraketSchemas/1 NotebookInstance/None" [].

End ServicesSpec.

(** ** Strings *)

Section StringFacts.

Lemma append_assoc (a b c : string) : (a ++ b) ++ c = a ++ b ++ c.
Proof. induction a as [|x a IH]; simpl; [reflexivity | now rewrite IH]. Qed.

Lemma append_nil_r (a : string) : a ++ "" = a.
Proof. induction a as [|x a IH]; simpl; [reflexivity | now rewrite IH]. Qed.

Lemma length_append (a b : string) :
  String.length (a ++ b) = String.length a + String.length b.
Proof. induction a as [|x a IH]; simpl; [reflexivity | now rewrite IH]. Qed.

Lemma append_inv_head (a b c : string) : a ++ b = a ++ c -> b = c.
Proof. induction a as [|x a IH]; simpl; intros H; [assumption | injection H; auto]. Qed.

Lemma append_is_empty (a b : string) : a ++ b = "" -> a = "" /\ b = "".
Proof. destruct a; simpl; [auto | discriminate]. Qed.

Lemma take_append (a b : string) : PyStr.take (String.length a) (a ++ b) = a.
Proof. induction a as [|x a IH]; simpl; [now destruct b | now rewrite IH]. Qed.

Lemma drop_append (a b : string) : PyStr.drop (String.length a) (a ++ b) = b.
Proof. induction a as [|x a IH]; simpl; [reflexivity | exact IH]. Qed.

Lemma contains_append (c : ascii) (a b : string) :
  PyStr.contains c (a ++ b) = PyStr.contains c a || PyStr.contains c b.
Proof.
  induction a as [|x a IH]; simpl; [reflexivity|].
  now rewrite IH, orb_assoc.
Qed.

Lemma prefix_append (a b : string) : prefix a (a ++ b) = true.
Proof.
  induction a as [|x a IH]; simpl; [now destruct b|].
  destruct (ascii_dec x x); [exact IH | congruence].
Qed.

Lemma prefix_split (a s : string) :
  prefix a s = true -> exists t, s = a ++ t.
Proof.
  revert s; induction a as [|x a IH]; intros s H.
  - now exists s.
  - destruct s as [|y s]; simpl in H; [discriminate|].
    destruct (ascii_dec x y) as [->|]; [|discriminate].
    destruct (IH _ H) as [t ->]. now exists t.
Qed.

End StringFacts.

(** ** The matcher *)

Section MatcherFacts.

Import Re Spec AwsSession.

Lemma span_split (cs : cset) (s : string) :
  s = fst (span cs s) ++ snd (span cs s).
Proof.
  induction s as [|c s IH]; simpl; [reflexivity|].
  destruct (cset_mem cs c); simpl; [now rewrite <- IH | reflexivity].
Qed.

Lemma span_all_in (cs : cset) (s : string) : all_in cs (fst (span cs s)) = true.
Proof.
  induction s as [|c s IH]; simpl; [reflexivity|].
  destruct (cset_mem cs c) eqn:E; simpl; [now rewrite E | reflexivity].
Qed.

Lemma span_append (cs : cset) (run t : string) :
  all_in cs run = true -> stops cs t = true -> span cs (run ++ t) = (run, t).
Proof.
  intros Hrun Ht. induction run as [|c run IH]; simpl in *.
  - destruct t as [|c t]; simpl in *; [reflexivity|].
    now destruct (cset_mem cs c).
  - apply andb_true_iff in Hrun as [Hc Hrun]. rewrite Hc, (IH Hrun). reflexivity.
Qed.

(** A greedy run followed by something that cannot start with a character
    of the run never gives characters back: it takes the longest run. *)
Lemma plus_loop_span (cs : cset) (g : list string)
      (k : mstate -> option (list string)) :
  (forall p c s, cset_mem cs c = true -> k (MState p (String c s) g) = None) ->
  forall s p,
    plus_loop cs p s g k =
    match fst (span cs s) with
    | EmptyString => None
    | run => k (MState (p + String.length run) (snd (span cs s)) g)
    end.
Proof.
  intros Hk. induction s as [|c s IH]; intros p; simpl; [reflexivity|].
  destruct (cset_mem cs c) eqn:Hc; simpl; [|reflexivity].
  rewrite IH.
  pose proof (span_split cs s) as Hsplit.
  pose proof (span_all_in cs s) as Hall.
  destruct (span cs s) as [run t]; simpl in *.
  destruct run as [|d run]; simpl in *.
  - subst s. now rewrite Nat.add_1_r.
  - replace (p + S (S (String.length run))) with (S (p + S (String.length run))) by lia.
    destruct (k (MState (S (p + S (String.length run))) t g)) eqn:Hres; [reflexivity|].
    apply andb_true_iff in Hall as [Hd _].
    rewrite Hsplit. now apply Hk.
Qed.

Lemma exec_run (cs : cset) (st : mstate) (k : mstate -> option (list string)) :
  (forall p c s g, cset_mem cs c = true -> k (MState p (String c s) g) = None) ->
  exec (Plus cs) st k =
  match fst (span cs (rest st)) with
  | EmptyString => None
  | run => k (MState (pos st + String.length run) (snd (span cs (rest st))) (groups st))
  end.
Proof.
  intros Hk. simpl. apply plus_loop_span. intros p c s. apply Hk.
Qed.

Lemma exec_run_group (cs : cset) (st : mstate) (k : mstate -> option (list string)) :
  (forall p c s g, cset_mem cs c = true -> k (MState p (String c s) g) = None) ->
  exec (Grp (Plus cs)) st k =
  match fst (span cs (rest st)) with
  | EmptyString => None
  | run =>
      k (MState (pos st + String.length run) (snd (span cs (rest st)))
           (groups st ++ [run]))
  end.
Proof.
  intros Hk. simpl. rewrite plus_loop_span.
  - pose proof (span_split cs (rest st)) as Hsplit.
    destruct (fst (span cs (rest st))) as [|c run] eqn:Hrun; [reflexivity|].
    cbn [pos rest groups].
    replace (pos st + String.length (String c run) - pos st)
      with (String.length (String c run)) by lia.
    rewrite Hsplit at 2. now rewrite take_append.
  - intros p c s Hc. cbn [pos rest groups]. now apply Hk.
Qed.

Lemma bucket_char_not_slash (c : ascii) :
  cset_mem (NoneOf ["."; "/"]%char) c = true -> cset_mem (Lit "/") c = false.
Proof.
  simpl. destruct (Ascii.eqb c "/"); [|reflexivity].
  now rewrite orb_true_r.
Qed.

Lemma bucket_char_not_dot (c : ascii) :
  cset_mem (NoneOf ["."; "/"]%char) c = true -> cset_mem (Lit ".") c = false.
Proof. simpl. now destruct (Ascii.eqb c "."). Qed.

Lemma host_char_not_slash (c : ascii) :
  cset_mem (NoneOf ["/"]%char) c = true -> cset_mem (Lit "/") c = false.
Proof. simpl. now destruct (Ascii.eqb c "/"). Qed.

Lemma at_end_after_dot (c : ascii) (s : string) :
  cset_mem Dot c = true -> at_end (String c s) = false.
Proof.
  simpl. destruct s; [|reflexivity]. now destruct (Ascii.eqb c LF).
Qed.

(** The shared tail [/(.+)$] of both patterns. *)
Lemma exec_key_tail (p : nat) (s : string) (g : list string) :
  exec (Cat (Chr (Lit "/")) (Cat (Grp (Plus Dot)) Eol)) (MState p s g)
       (fun st => Some (groups st)) =
  match s with
  | EmptyString => None
  | String c s' =>
      if Ascii.eqb c "/" then
        match fst (span Dot s') with
        | EmptyString => None
        | key => if at_end (snd (span Dot s')) then Some (g ++ [key])%list else None
        end
      else None
  end.
Proof.
  cbn [exec rest]. destruct s as [|c s]; [reflexivity|].
  cbn [cset_mem]. destruct (Ascii.eqb c "/"); [|reflexivity].
  change (exec (Grp (Plus Dot)) (advance (MState p (String c s) g) s)
            (fun st' => exec Eol st' (fun st => Some (groups st))) = 
          match fst (span Dot s) with
          | EmptyString => None
          | key => if at_end (snd (span Dot s)) then Some (g ++ [key])%list else None
          end).
  rewrite exec_run_group.
  - reflexivity.
  - intros q d t h Hd. cbn [exec rest]. now rewrite at_end_after_dot.
Qed.

Lemma all_in_bucket (b : string) :
  all_in (NoneOf ["."; "/"]%char) b = true <->
  PyStr.contains "." b = false /\ PyStr.contains "/" b = false.
Proof.
  induction b as [|c b IH]; simpl; [tauto|].
  destruct (Ascii.eqb c "."), (Ascii.eqb c "/"); simpl; intuition congruence.
Qed.

Lemma all_in_host (h : string) :
  all_in (NoneOf ["/"]%char) h = true <-> PyStr.contains "/" h = false.
Proof.
  induction h as [|c h IH]; simpl; [tauto|].
  destruct (Ascii.eqb c "/"); simpl; intuition congruence.
Qed.

Lemma all_in_dot (k : string) :
  all_in Dot k = true <-> PyStr.contains LF k = false.
Proof.
  induction k as [|c k IH]; simpl; [tauto|].
  destruct (Ascii.eqb c LF); simpl; intuition congruence.
Qed.

Lemma at_end_iff (e : string) : at_end e = true <-> e = "" \/ e = LFs.
Proof.
  destruct e as [|c [|d e]]; simpl.
  - tauto.
  - unfold LFs. split.
    + intros H. apply Ascii.eqb_eq in H. subst. now right.
    + intros [H|H]; [discriminate|]. injection H as ->. apply Ascii.eqb_refl.
  - unfold LFs. split; [discriminate | intros [H|H]; discriminate].
Qed.

Lemma stops_dot_at_end (nl : string) : nl = "" \/ nl = LFs -> stops Dot nl = true.
Proof. intros [->| ->]; reflexivity. Qed.

Local Abbreviation final := (fun st : mstate => Some (groups st)).
Local Abbreviation KEY_TAIL := (Cat (Chr (Lit "/")) (Cat (Grp (Plus Dot)) Eol)).
Local Abbreviation BUCKET := (Grp (Plus (NoneOf ["."; "/"]%char))).
Local Abbreviation HOST := (Plus (NoneOf ["/"]%char)).

Lemma key_tail_spec (p : nat) (s : string) (g g' : list string) :
  exec KEY_TAIL (MState p s g) final = Some g' <->
  exists k nl,
    line_key k /\ (nl = "" \/ nl = LFs) /\ s = "/" ++ k ++ nl /\ g' = (g ++ [k])%list.
Proof.
  rewrite exec_key_tail. split.
  - destruct s as [|c s]; [discriminate|].
    destruct (Ascii.eqb_spec c "/") as [->|]; [|discriminate].
    pose proof (span_split Dot s) as Hsplit.
    pose proof (span_all_in Dot s) as Hall.
    destruct (fst (span Dot s)) as [|d k] eqn:Hk; [discriminate|].
    destruct (at_end (snd (span Dot s))) eqn:He; [|discriminate].
    intros [= <-]. exists (String d k), (snd (span Dot s)).
    repeat split.
    + discriminate.
    + now apply all_in_dot.
    + now apply at_end_iff.
    + simpl. f_equal. exact Hsplit.
  - intros (k & nl & [Hne Hlf] & Hnl & -> & ->). simpl.
    rewrite span_append by (try apply all_in_dot; auto using stops_dot_at_end).
    simpl. destruct k as [|d k]; [congruence|].
    apply at_end_iff in Hnl. now rewrite Hnl.
Qed.

Lemma key_tail_rejects (p : nat) (c : ascii) (s : string) (g : list string) :
  cset_mem (Lit "/") c = false ->
  exec KEY_TAIL (MState p (String c s) g) final = None.
Proof. intros H. rewrite exec_key_tail. simpl in H. now rewrite H. Qed.

(** [([^./]+)/(.+)$], the part of the [s3://] pattern after its scheme. *)
Lemma bucket_key_spec (p : nat) (s : string) (g g' : list string) :
  exec (Cat BUCKET KEY_TAIL) (MState p s g) final = Some g' <->
  exists b k nl,
    bucket_ok b /\ line_key k /\ (nl = "" \/ nl = LFs) /\
    s = b ++ "/" ++ k ++ nl /\ g' = (g ++ [b] ++ [k])%list.
Proof.
  change (exec (Cat BUCKET KEY_TAIL) (MState p s g) final)
    with (exec BUCKET (MState p s g) (fun st' => exec KEY_TAIL st' final)).
  rewrite exec_run_group
    by (intros; apply key_tail_rejects; now apply bucket_char_not_slash).
  cbn [pos rest groups].
  pose proof (span_split (NoneOf ["."; "/"]%char) s) as Hsplit.
  pose proof (span_all_in (NoneOf ["."; "/"]%char) s) as Hall.
  split.
  - destruct (fst (span (NoneOf ["."; "/"]%char) s)) as [|d b] eqn:Hb; [discriminate|].
    intros H. apply key_tail_spec in H as (k & nl & Hk & Hnl & Ht & ->).
    apply all_in_bucket in Hall as [Hdot Hsl].
    exists (String d b), k, nl. split; [|split; [|split; [|split]]]; auto.
    + split; [discriminate | now split].
    + rewrite Hsplit at 1. now rewrite Ht.
    + now rewrite <- app_assoc.
  - intros (b & k & nl & (Hne & Hdot & Hsl) & Hk & Hnl & -> & ->).
    rewrite span_append by (try apply all_in_bucket; auto).
    cbn [fst snd]. destruct b as [|d b]; [congruence|].
    apply key_tail_spec. exists k, nl. split; [|split; [|split]]; auto.
    now rewrite <- app_assoc.
Qed.

Lemma exec_lits_iff (l : string) (r : regex) (k : mstate -> option (list string))
      (g g' : list string) :
  forall p s,
    exec (lits l r) (MState p s g) k = Some g' <->
    exists t, s = l ++ t /\ exec r (MState (p + String.length l) t g) k = Some g'.
Proof.
  induction l as [|c l IH]; intros p s; cbn [lits String.length].
  - rewrite Nat.add_0_r. split.
    + intros H. now exists s.
    + now intros (t & -> & H).
  - change (exec (Cat (Chr (Lit c)) (lits l r)) (MState p s g) k)
      with (match s with
            | EmptyString => None
            | String d s' =>
                if Ascii.eqb d c then exec (lits l r) (MState (S p) s' g) k else None
            end).
    replace (p + S (String.length l)) with (S p + String.length l) by lia.
    split.
    + destruct s as [|d s]; [discriminate|].
      destruct (Ascii.eqb_spec d c) as [->|]; [|discriminate].
      intros H. apply IH in H as (t & -> & H). now exists t.
    + intros (t & -> & H). cbn [append]. rewrite Ascii.eqb_refl.
      apply IH. now exists t.
Qed.

(** [[^/]+/(.+)$], the host and key of the [https://] pattern. *)
Lemma host_key_spec (p : nat) (s : string) (g g' : list string) :
  exec (Cat HOST KEY_TAIL) (MState p s g) final = Some g' <->
  exists h k nl,
    h <> "" /\ PyStr.contains "/" h = false /\ line_key k /\
    (nl = "" \/ nl = LFs) /\ s = h ++ "/" ++ k ++ nl /\ g' = (g ++ [k])%list.
Proof.
  change (exec (Cat HOST KEY_TAIL) (MState p s g) final)
    with (exec HOST (MState p s g) (fun st' => exec KEY_TAIL st' final)).
  rewrite exec_run
    by (intros; apply key_tail_rejects; now apply host_char_not_slash).
  cbn [pos rest groups].
  pose proof (span_split (NoneOf ["/"]%char) s) as Hsplit.
  pose proof (span_all_in (NoneOf ["/"]%char) s) as Hall.
  split.
  - destruct (fst (span (NoneOf ["/"]%char) s)) as [|d h] eqn:Hh; [discriminate|].
    intros H. apply key_tail_spec in H as (k & nl & Hk & Hnl & Ht & ->).
    apply all_in_host in Hall.
    exists (String d h), k, nl. split; [|split; [|split; [|split; [|split]]]]; auto.
    + discriminate.
    + rewrite Hsplit at 1. now rewrite Ht.
  - intros (h & k & nl & Hne & Hsl & Hk & Hnl & -> & ->).
    rewrite span_append by (try apply all_in_host; auto).
    cbn [fst snd]. destruct h as [|d h]; [congruence|].
    apply key_tail_spec. exists k, nl. auto.
Qed.

Lemma s3_token_char (c : ascii) :
  cset_mem (OneOf ["s"; "S"]%char) c = true <->
  String c "3" = "s3" \/ String c "3" = "S3".
Proof.
  cbn [cset_mem mem existsb]. rewrite orb_false_r, orb_true_iff, !Ascii.eqb_eq.
  split; (intros [H|H]; [left|right]); congruence.
Qed.

Local Abbreviation REGION :=
  (Cat (Chr (Lit "."))
     (Cat (Chr (OneOf ["s"; "S"]%char))
        (lits "3" (Cat (Chr (Lit ".")) (Cat HOST KEY_TAIL))))).

(** [\.[sS]3\.[^/]+/(.+)$], what follows the bucket in the [https://] pattern. *)
Lemma region_spec (p : nat) (s : string) (g g' : list string) :
  exec REGION (MState p s g) final = Some g' <->
  exists tok h k nl,
    s3_token tok /\ h <> "" /\ PyStr.contains "/" h = false /\ line_key k /\
    (nl = "" \/ nl = LFs) /\ s = "." ++ tok ++ "." ++ h ++ "/" ++ k ++ nl /\
    g' = (g ++ [k])%list.
Proof.
  change (exec REGION (MState p s g) final)
    with (match s with
          | EmptyString => None
          | String c s1 =>
              if Ascii.eqb c "." then
                match s1 with
                | EmptyString => None
                | String c1 s2 =>
                    if cset_mem (OneOf ["s"; "S"]%char) c1 then
                      exec (lits "3." (Cat HOST KEY_TAIL)) (MState (S (S p)) s2 g) final
                    else None
                end
              else None
          end).
  split.
  - destruct s as [|c s1]; [discriminate|].
    destruct (Ascii.eqb_spec c ".") as [->|]; [|discriminate].
    destruct s1 as [|c1 s2]; [discriminate|].
    destruct (cset_mem (OneOf ["s"; "S"]%char) c1) eqn:Hc1; [|discriminate].
    intros H. apply exec_lits_iff in H as (t & -> & H).
    apply host_key_spec in H as (h & k & nl & Hh & Hsl & Hk & Hnl & -> & ->).
    apply s3_token_char in Hc1.
    exists (String c1 "3"), h, k, nl.
    split; [|split; [|split; [|split; [|split; [|split]]]]]; auto.
  - intros (tok & h & k & nl & Htok & Hh & Hsl & Hk & Hnl & -> & ->).
    assert (exists c1, tok = String c1 "3" /\ cset_mem (OneOf ["s"; "S"]%char) c1 = true)
      as (c1 & -> & Hc1) by (destruct Htok as [-> | ->]; eexists; split; reflexivity).
    cbn [append]. rewrite Ascii.eqb_refl, Hc1.
    apply exec_lits_iff. exists (h ++ "/" ++ k ++ nl). split; [reflexivity|].
    apply host_key_spec. exists h, k, nl. auto 10.
Qed.

Lemma region_rejects (p : nat) (c : ascii) (s : string) (g : list string) :
  cset_mem (Lit ".") c = false -> exec REGION (MState p (String c s) g) final = None.
Proof.
  intros H. cbn [exec rest]. now rewrite H.
Qed.

(** [re.match] with the [s3://] pattern. *)
Lemma s3_uri_match_iff (s : string) (g : list string) :
  re_match S3_URI s = Some g <->
  exists b k nl,
    bucket_ok b /\ line_key k /\ (nl = "" \/ nl = LFs) /\
    path_form s b (k ++ nl) /\ g = [b; k].
Proof.
  unfold re_match, S3_URI, path_form.
  change (exec (Cat Bol (Cat (Chr (OneOf ["s"; "S"]%char))
                         (lits "3://" (Cat BUCKET KEY_TAIL)))) (MState 0 s []) final)
    with (match s with
          | EmptyString => None
          | String c s1 =>
              if cset_mem (OneOf ["s"; "S"]%char) c then
                exec (lits "3://" (Cat BUCKET KEY_TAIL)) (MState 1 s1 []) final
              else None
          end).
  split.
  - destruct s as [|c s1]; [discriminate|].
    destruct (cset_mem (OneOf ["s"; "S"]%char) c) eqn:Hc; [|discriminate].
    intros H. apply exec_lits_iff in H as (t & -> & H).
    apply bucket_key_spec in H as (b & k & nl & Hb & Hk & Hnl & -> & ->).
    apply s3_token_char in Hc.
    exists b, k, nl. split; [|split; [|split; [|split]]]; auto.
    exists (String c "3"). split; [exact Hc | reflexivity].
  - intros (b & k & nl & Hb & Hk & Hnl & (tok & Htok & ->) & ->).
    assert (exists c, tok = String c "3" /\ cset_mem (OneOf ["s"; "S"]%char) c = true)
      as (c & -> & Hc) by (destruct Htok as [-> | ->]; eexists; split; reflexivity).
    cbn [append]. rewrite Hc.
    apply exec_lits_iff. exists (b ++ "/" ++ k ++ nl). split; [reflexivity|].
    apply bucket_key_spec. exists b, k, nl. auto 10.
Qed.

(** [re.match] with the [https://] pattern. *)
Lemma object_url_match_iff (s : string) (g : list string) :
  re_match OBJECT_URL s = Some g <->
  exists b k nl,
    bucket_ok b /\ line_key k /\ (nl = "" \/ nl = LFs) /\
    virtual_hosted_form s b (k ++ nl) /\ g = [b; k].
Proof.
  unfold re_match, OBJECT_URL, virtual_hosted_form.
  change (exec (Cat Bol (lits "https://" (Cat BUCKET REGION))) (MState 0 s []) final)
    with (exec (lits "https://" (Cat BUCKET REGION)) (MState 0 s []) final).
  rewrite exec_lits_iff.
  assert (Hstep : forall t,
    exec (Cat BUCKET REGION) (MState 8 t []) final =
    match fst (span (NoneOf ["."; "/"]%char) t) with
    | EmptyString => None
    | b => exec REGION (MState (8 + String.length b)
                          (snd (span (NoneOf ["."; "/"]%char) t)) [b]) final
    end).
  { intros t.
    change (exec (Cat BUCKET REGION) (MState 8 t []) final)
      with (exec BUCKET (MState 8 t []) (fun st' => exec REGION st' final)).
    rewrite exec_run_group
      by (intros; apply region_rejects; now apply bucket_char_not_dot).
    reflexivity. }
  split.
  - intros (t & -> & H). rewrite Hstep in H.
    pose proof (span_split (NoneOf ["."; "/"]%char) t) as Hsplit.
    pose proof (span_all_in (NoneOf ["."; "/"]%char) t) as Hall.
    destruct (fst (span (NoneOf ["."; "/"]%char) t)) as [|d b] eqn:Hb; [discriminate|].
    apply region_spec in H as (tok & h & k & nl & Htok & Hh & Hsl & Hk & Hnl & Ht & ->).
    apply all_in_bucket in Hall as [Hdot Hsl'].
    exists (String d b), k, nl. split; [|split; [|split; [|split]]]; auto.
    + split; [discriminate | now split].
    + exists tok, h. split; [|split; [|split]]; auto.
      rewrite Hsplit at 1. rewrite Ht. reflexivity.
  - intros (b & k & nl & (Hne & Hdot & Hsl) & Hk & Hnl &
            (tok & h & Htok & Hh & Hhs & ->) & ->).
    exists (b ++ "." ++ tok ++ "." ++ h ++ "/" ++ k ++ nl). split; [reflexivity|].
    rewrite Hstep.
    rewrite span_append by (try apply all_in_bucket; auto).
    cbn [fst snd]. destruct b as [|d b]; [congruence|].
    apply region_spec. exists tok, h, k, nl. auto 10.
Qed.

End MatcherFacts.

(** ** [parse_s3_uri], [is_s3_uri] and [construct_s3_uri] *)

Section UriFacts.

Import Re Spec AwsSession.

Lemma object_url_needs_https (s : string) (tok rest' : string) :
  s3_token tok -> re_match OBJECT_URL (tok ++ rest') = None.
Proof.
  intros Htok. destruct (re_match OBJECT_URL (tok ++ rest')) as [g|] eqn:H; [|reflexivity].
  apply object_url_match_iff in H as (b & k & nl & _ & _ & _ & Hform & _).
  destruct Hform as (tok' & h & _ & _ & _ & Heq).
  destruct Htok as [-> | ->]; discriminate.
Qed.

Lemma parse_s3_uri_cases (s : string) :
  (exists b k, parse_s3_uri s = Ok (b, k)) \/ parse_s3_uri s = Raise (invalid_uri s).
Proof.
  unfold parse_s3_uri, py_or, invalid_uri.
  destruct (re_match OBJECT_URL s) as [g|] eqn:H1.
  - apply object_url_match_iff in H1 as (b & k & nl & _ & _ & _ & _ & ->).
    left. now exists b, k.
  - destruct (re_match S3_URI s) as [g|] eqn:H2; [|now right].
    apply s3_uri_match_iff in H2 as (b & k & nl & _ & _ & _ & _ & ->).
    left. now exists b, k.
Qed.

Lemma parse_s3_uri_ok_iff (s b k : string) :
  parse_s3_uri s = Ok (b, k) <-> accepted s b k.
Proof.
  unfold parse_s3_uri, py_or, accepted. split.
  - destruct (re_match OBJECT_URL s) as [g|] eqn:H1.
    + apply object_url_match_iff in H1 as (b' & k' & nl & Hb & Hk & Hnl & Hf & ->).
      intros [= <- <-]. split; [|split]; auto. exists nl. auto.
    + destruct (re_match S3_URI s) as [g|] eqn:H2; [|discriminate].
      apply s3_uri_match_iff in H2 as (b' & k' & nl & Hb & Hk & Hnl & Hf & ->).
      intros [= <- <-]. split; [|split]; auto. exists nl. auto.
  - intros (Hb & Hk & nl & Hnl & [Hf | Hf]).
    + assert (H1 : re_match OBJECT_URL s = Some [b; k])
        by (apply object_url_match_iff; exists b, k, nl; auto 10).
      now rewrite H1.
    + assert (H2 : re_match S3_URI s = Some [b; k])
        by (apply s3_uri_match_iff; exists b, k, nl; auto 10).
      destruct Hf as (tok & Htok & Hs).
      assert (H1 : re_match OBJECT_URL s = None)
        by (rewrite Hs; now apply (object_url_needs_https s)).
      now rewrite H1, H2.
Qed.

Lemma slash_free_head_unique (a a' x x' : string) :
  PyStr.contains "/" a = false -> PyStr.contains "/" a' = false ->
  a ++ "/" ++ x = a' ++ "/" ++ x' -> a = a'.
Proof.
  revert a'. induction a as [|c a IH]; intros [|c' a'] Ha Ha' H;
    cbn [append PyStr.contains] in *.
  - reflexivity.
  - injection H as Hc _. subst c'. rewrite Ascii.eqb_refl in Ha'. discriminate.
  - injection H as Hc _. subst c. rewrite Ascii.eqb_refl in Ha. discriminate.
  - injection H as -> H. apply orb_false_iff in Ha as [_ Ha], Ha' as [_ Ha'].
    f_equal. now apply (IH a').
Qed.

Lemma accepted_recognized (s b k : string) : accepted s b k -> recognized s.
Proof.
  intros (Hb & [Hk _] & nl & _ & Hf). exists b, (k ++ nl). split; [|split]; auto.
  intros H. apply append_is_empty in H as [H _]. contradiction.
Qed.

Lemma recognized_accepted (s : string) :
  PyStr.contains LF s = false -> recognized s -> exists b k, accepted s b k.
Proof.
  intros Hlf (b & k & Hb & Hk & Hf). exists b, k.
  assert (Hklf : PyStr.contains LF k = false).
  { destruct Hf as [(tok & h & _ & _ & _ & ->) | (tok & _ & ->)];
      rewrite !contains_append, !orb_false_iff in Hlf; tauto. }
  split; [|split]; auto.
  - now split.
  - exists "". rewrite append_nil_r. auto.
Qed.

(** C1, as the code has it.  For a non-empty bucket without [/] and [.] and
    two non-empty segments without line feeds, [construct_s3_uri] returns a
    URI that [parse_s3_uri] maps back to the bucket and the two segments
    joined by [/]. *)
Theorem construct_parse_round_trip (bucket seg1 seg2 : string) :
  bucket <> "" ->
  PyStr.contains "/" bucket = false ->
  PyStr.contains "." bucket = false ->
  seg1 <> "" -> seg2 <> "" ->
  PyStr.contains LF seg1 = false ->
  PyStr.contains LF seg2 = false ->
  exists uri,
    construct_s3_uri bucket [seg1; seg2] = Ok uri /\
    parse_s3_uri uri = Ok (bucket, seg1 ++ "/" ++ seg2).
Proof.
  intros Hne Hsl Hdot H1 H2 Hlf1 Hlf2.
  eexists. split; [reflexivity|].
  apply parse_s3_uri_ok_iff. split; [|split].
  - now split.
  - split.
    + destruct seg1; [congruence | discriminate].
    + rewrite !contains_append, Hlf1, Hlf2. reflexivity.
  - exists "". split; [now left|]. right. exists "s3". split; [now left|].
    unfold PyStr.join. cbn [concat append]. now rewrite append_nil_r.
Qed.

(** The round trip on the bucket [my-bucket] and the segments [my] and [key]. *)
Lemma construct_parse_round_trip_witness :
  exists uri,
    construct_s3_uri "my-bucket" ["my"; "key"] = Ok uri /\
    parse_s3_uri uri = Ok ("my-bucket", "my" ++ "/" ++ "key").
Proof.
  apply (construct_parse_round_trip "my-bucket" "my" "key");
    solve [discriminate | reflexivity].
Defined.

(** C1, as stated, fails: a dotted bucket is slash-free and non-empty, yet
    the constructed URI is rejected; and a segment ending in a line feed is
    non-empty, yet the parsed key has lost the line feed. *)
Lemma round_trip_fails_on_dot_and_line_feed :
  ("my.bucket" <> "" /\ PyStr.contains "/" "my.bucket" = false /\
   "my" <> "" /\ "key" <> "" /\
   construct_s3_uri "my.bucket" ["my"; "key"] = Ok "s3://my.bucket/my/key" /\
   parse_s3_uri "s3://my.bucket/my/key"
   = Raise (invalid_uri "s3://my.bucket/my/key"))
  /\
  ("b" <> "" /\ PyStr.contains "/" "b" = false /\
   "my" <> "" /\ "key" ++ LFs <> "" /\
   construct_s3_uri "b" ["my"; "key" ++ LFs] = Ok ("s3://b/my/key" ++ LFs) /\
   parse_s3_uri ("s3://b/my/key" ++ LFs) = Ok ("b", "my/key") /\
   ("b", "my/key") <> ("b", "my" ++ "/" ++ "key" ++ LFs)).
Proof.
  repeat split; try discriminate; reflexivity.
Qed.

(** C3.  [is_s3_uri] never raises, and it answers [True] exactly when
    [parse_s3_uri] returns a bucket and key. *)
Theorem is_s3_uri_iff_parse_succeeds (s : string) :
  (exists answer, is_s3_uri s = Ok answer) /\
  (is_s3_uri s = Ok true <-> exists bucket key, parse_s3_uri s = Ok (bucket, key)) /\
  (is_s3_uri s = Ok false <-> exists e, parse_s3_uri s = Raise e).
Proof.
  unfold is_s3_uri.
  destruct (parse_s3_uri_cases s) as [(b & k & H) | H]; rewrite H; unfold invalid_uri.
  - split; [now exists true|]. split; split; try discriminate.
    + intros _. now exists b, k.
    + reflexivity.
    + intros [e He]. discriminate.
  - split; [now exists false|]. split; split; try discriminate.
    + intros (b & k & Hbk). discriminate.
    + intros _. eexists. reflexivity.
    + reflexivity.
Qed.



(** C5, as the code has it.  [parse_s3_uri] raises its [ValueError] exactly
    when the input is not of one of the two forms with a one-line key and
    at most one closing line feed; on an input without line feeds that is
    exactly when it is of neither form.  It fails on [not-a-uri] and on a
    path-form URI whose bucket, the text up to the first [/], contains a
    [.]; and no bucket it returns contains [.] or [/]. *)
Theorem parse_s3_uri_fails_iff :
  (forall s,
      parse_s3_uri s = Raise (invalid_uri s) <-> ~ (exists b k, accepted s b k)) /\
  (forall s,
      PyStr.contains LF s = false ->
      (parse_s3_uri s = Raise (invalid_uri s) <-> ~ recognized s)) /\
  parse_s3_uri "not-a-uri" = Raise (invalid_uri "not-a-uri") /\
  (forall tok b k,
      s3_token tok -> PyStr.contains "/" b = false -> PyStr.contains "." b = true ->
      parse_s3_uri (tok ++ "://" ++ b ++ "/" ++ k)
      = Raise (invalid_uri (tok ++ "://" ++ b ++ "/" ++ k))) /\
  (forall s b k,
      parse_s3_uri s = Ok (b, k) ->
      PyStr.contains "." b = false /\ PyStr.contains "/" b = false).
Proof.
  assert (Hiff : forall s,
    parse_s3_uri s = Raise (invalid_uri s) <-> ~ (exists b k, accepted s b k)).
  { intros s. split.
    - intros H (b & k & Hacc). apply parse_s3_uri_ok_iff in Hacc. congruence.
    - intros Hno. destruct (parse_s3_uri_cases s) as [(b & k & H) | H]; [|exact H].
      exfalso. apply Hno. exists b, k. now apply parse_s3_uri_ok_iff. }
  split; [exact Hiff|]. split; [|split; [reflexivity|split]].
  - intros s Hlf. rewrite Hiff. split; intros Hno Hyes; apply Hno.
    + now apply recognized_accepted.
    + destruct Hyes as (b & k & Hacc). now apply accepted_recognized with b k.
  - intros tok b k Htok Hsl Hdot. apply Hiff.
    intros (b' & k' & (_ & Hdot' & Hsl') & _ & nl & _ & [Hf | Hf]).
    + destruct Hf as (tok' & h & _ & _ & _ & Heq).
      destruct Htok as [-> | ->]; discriminate.
    + destruct Hf as (tok' & Htok' & Heq).
      assert (Ht : tok' = tok)
        by (destruct Htok as [-> | ->], Htok' as [-> | ->];
            solve [reflexivity | discriminate]).
      subst tok'. apply append_inv_head in Heq.
      change ("://" ++ b ++ "/" ++ k) with ("://" ++ (b ++ "/" ++ k)) in Heq.
      apply (append_inv_head "://") in Heq.
      apply slash_free_head_unique in Heq; auto. congruence.
  - intros s b k H. apply parse_s3_uri_ok_iff in H as ((_ & Hdot & Hsl) & _). auto.
Qed.

(** A dotted bucket in the path form is rejected. *)
Lemma parse_s3_uri_fails_iff_witness :
  parse_s3_uri "s3://my.bucket/key" = Raise (invalid_uri "s3://my.bucket/key").
Proof.
  exact (proj1 (proj2 (proj2 (proj2 parse_s3_uri_fails_iff)))
           "s3" "my.bucket" "key" (or_introl eq_refl) eq_refl eq_refl).
Defined.

(** C5, as stated, fails: a path-form URI whose key holds a line feed is
    of a recognized form and is rejected, and the virtual-hosted URI of the
    dotted bucket [a.s3] is accepted, with bucket [a]. *)
Lemma parse_s3_uri_rejects_line_feed_key :
  (recognized ("s3://b/k" ++ LFs ++ "x") /\
   parse_s3_uri ("s3://b/k" ++ LFs ++ "x")
   = Raise (invalid_uri ("s3://b/k" ++ LFs ++ "x")))
  /\
  (PyStr.contains "." "a.s3" = true /\
   parse_s3_uri ("https://" ++ "a.s3" ++ ".s3." ++ "amazonaws.com" ++ "/" ++ "k")
   = Ok ("a", "k")).
Proof.
  split; split; try reflexivity.
  exists "b", ("k" ++ LFs ++ "x"). split; [|split].
  - repeat split; solve [discriminate | reflexivity].
  - discriminate.
  - right. exists "s3". split; [now left | reflexivity].
Qed.

(** C6.  [construct_s3_uri] raises its [ValueError] exactly when no segment
    is given, and otherwise returns [s3://], the bucket, [/] and the
    segments joined by [/]. *)
Theorem construct_s3_uri_spec (bucket : string) (dirs : list string) :
  ((exists e, construct_s3_uri bucket dirs = Raise e) <-> dirs = []) /\
  (dirs = [] ->
   construct_s3_uri bucket dirs
   = Raise (ValueError ("Not a valid S3 location: s3://" ++ bucket))) /\
  (dirs <> [] ->
   construct_s3_uri bucket dirs = Ok ("s3://" ++ bucket ++ "/" ++ PyStr.join "/" dirs)).
Proof.
  destruct dirs as [|d ds]; cbn [construct_s3_uri].
  - split; [|split]; try tauto. split; [reflexivity | intros _; eexists; reflexivity].
  - split; [|split]; try discriminate; try reflexivity.
    split; [intros [e He] | intros He]; discriminate.
Qed.

(** Two segments give a URI; none gives the error. *)
Lemma construct_s3_uri_spec_witness :
  construct_s3_uri "b" ["x"; "y"] = Ok "s3://b/x/y" /\
  construct_s3_uri "b" [] = Raise (ValueError "Not a valid S3 location: s3://b").
Proof.
  split.
  - refine (proj2 (proj2 (construct_s3_uri_spec "b" ["x"; "y"])) _). discriminate.
  - exact (proj1 (proj2 (construct_s3_uri_spec "b" [])) eq_refl).
Defined.

(** C10.  With at least one segment [construct_s3_uri] returns the
    interpolated string whatever the bucket and the segments hold; some of
    these strings [parse_s3_uri] rejects. *)
Theorem construct_s3_uri_does_not_validate :
  (forall bucket d ds,
      construct_s3_uri bucket (d :: ds)
      = Ok ("s3://" ++ bucket ++ "/" ++ PyStr.join "/" (d :: ds))) /\
  construct_s3_uri "" ["k"] = Ok "s3:///k" /\
  parse_s3_uri "s3:///k" = Raise (invalid_uri "s3:///k") /\
  construct_s3_uri "my.bucket" ["k"] = Ok "s3://my.bucket/k" /\
  parse_s3_uri "s3://my.bucket/k" = Raise (invalid_uri "s3://my.bucket/k") /\
  construct_s3_uri "a/b c" ["x/y"; ""] = Ok "s3://a/b c/x/y/" /\
  parse_s3_uri "s3://a/b c/x/y/" = Ok ("a", "b c/x/y/").
Proof.
  repeat split; reflexivity.
Qed.

End UriFacts.

(** ** [str.find] and [str.replace] *)

Section ReplaceFacts.

Import Spec.

Lemma find_some (old : string) :
  forall s i,
    PyStr.find old s = Some i ->
    exists pre post,
      s = pre ++ old ++ post /\ String.length pre = i /\
      (forall pre' post', s = pre' ++ old ++ post' -> i <= String.length pre').
Proof.
  induction s as [|c s IH]; intros i; cbn [PyStr.find].
  - destruct (prefix old "") eqn:Hp; [|discriminate].
    intros [= <-]. apply prefix_split in Hp as [post Hp].
    exists "", post. repeat split; auto. intros. lia.
  - destruct (prefix old (String c s)) eqn:Hp.
    + intros [= <-]. apply prefix_split in Hp as [post Hp].
      exists "", post. repeat split; auto. intros. lia.
    + destruct (PyStr.find old s) as [j|] eqn:Hj; [|discriminate].
      intros [= <-]. destruct (IH j eq_refl) as (pre & post & -> & Hlen & Hmin).
      exists (String c pre), post. repeat split.
      * cbn [String.length]. now rewrite Hlen.
      * intros [|c' pre'] post' Heq.
        -- cbn [append] in Heq. rewrite Heq, prefix_append in Hp. discriminate.
        -- cbn [append] in Heq. injection Heq as _ Heq.
           cbn [String.length]. apply le_n_S. now apply (Hmin pre' post').
Qed.

Lemma find_none (old : string) :
  forall s, PyStr.find old s = None -> forall pre post, s <> pre ++ old ++ post.
Proof.
  induction s as [|c s IH]; cbn [PyStr.find]; intros H pre post Heq.
  - destruct (prefix old "") eqn:Hp; [discriminate|].
    symmetry in Heq. apply append_is_empty in Heq as [-> Heq].
    apply append_is_empty in Heq as [-> _]. discriminate.
  - destruct (prefix old (String c s)) eqn:Hp; [discriminate|].
    destruct (PyStr.find old s) as [j|] eqn:Hj; [discriminate|].
    destruct pre as [|c' pre]; cbn [append] in Heq.
    + rewrite Heq, prefix_append in Hp. discriminate.
    + injection Heq as _ Heq. now apply (IH eq_refl pre post).
Qed.

Lemma drop_past (pre old post : string) :
  PyStr.drop (String.length pre + String.length old) (pre ++ old ++ post) = post.
Proof.
  rewrite <- length_append, <- append_assoc. apply drop_append.
Qed.

(** [s.replace(old, new, 1)] replaces the first occurrence and nothing else. *)
Lemma replace_once_spec (old new s : string) :
  replaced_first old new s (PyStr.replace s old new (Some 1)).
Proof.
  unfold PyStr.replace. destruct (String.eqb_spec old "") as [-> | Hold].
  - left. exists "", s. repeat split.
    + intros. apply Nat.le_0_l.
    + cbn [PyStr.interleave append]. now destruct s.
  - cbn [PyStr.replace_loop]. destruct (PyStr.find old s) as [i|] eqn:Hf.
    + left. apply find_some in Hf as (pre & post & -> & <- & Hmin).
      exists pre, post. repeat split; auto.
      now rewrite take_append, drop_past.
    + right. split; [|reflexivity]. now apply find_none.
Qed.

End ReplaceFacts.

(** ** Copies *)

Section CopyFacts.

Import Spec AwsSession.

Variable s3_client : S3Client.

(** The request [copy_s3_directory] makes for one listed key. *)
Local Abbreviation copy_request sb sp db dp :=
  (fun key : string => Copy sb key db (PyStr.replace key sp dp (Some 1))).

Lemma for_each_copy (sb sp db dp : string) (keys : list string) :
  forall log,
  exists n r,
    n <= List.length keys /\
    for_each keys
      (fun key => s3_copy s3_client sb key db (PyStr.replace key sp dp (Some 1))) log
    = Some (r, (log ++ map (copy_request sb sp db dp) (firstn n keys))%list) /\
    ((r = Ok tt /\ n = List.length keys) \/ (exists e, r = Raise e /\ 0 < n)) /\
    ((forall l a b c d, reply_copy s3_client l a b c d = Ok tt) -> r = Ok tt).
Proof.
  induction keys as [|key keys IH]; intros log.
  - exists 0, (Ok tt). cbn [firstn map List.length for_each]. rewrite app_nil_r.
    split; [lia|]. split; [reflexivity|]. split; [now left | reflexivity].
  - cbn [for_each]. unfold bind at 1. unfold s3_copy at 1.
    destruct (reply_copy s3_client log sb key db (PyStr.replace key sp dp (Some 1)))
      as [[]|e] eqn:Hreply.
    + destruct (IH (log ++ [copy_request sb sp db dp key])%list)
        as (n & r & Hn & Hrun & Hr & Hok).
      exists (S n), r. cbn [firstn map List.length]. split; [lia|].
      split; [|split].
      * rewrite Hrun. now rewrite <- app_assoc.
      * destruct Hr as [[-> ->] | (e & -> & Hpos)]; [now left | right].
        exists e. split; [reflexivity | lia].
      * exact Hok.
    + exists 1, (Raise e). cbn [firstn map List.length]. split; [lia|].
      split; [reflexivity|]. split.
      * right. exists e. split; [reflexivity | lia].
      * intros Hall. rewrite Hall in Hreply. discriminate.
Qed.

(** C8.  Once both URIs are parsed and [list_keys] has returned, the copy
    requests go out in the order of the listed keys, each from the listed
    key to that key with the first occurrence of the source prefix replaced
    by the destination prefix; a request that fails ends the loop. *)
Theorem copy_s3_directory_destination_keys
        (fuel : nat) (source destination sb sp db dp : string)
        (keys : list string) (log log1 : list call) :
  source <> destination ->
  parse_s3_uri source = Ok (sb, sp) ->
  parse_s3_uri destination = Ok (db, dp) ->
  list_keys s3_client fuel sb sp log = Some (Ok keys, log1) ->
  (exists n r,
      n <= List.length keys /\
      copy_s3_directory s3_client fuel source destination log
      = Some (r, (log1 ++ map (copy_request sb sp db dp) (firstn n keys))%list) /\
      ((r = Ok tt /\ n = List.length keys) \/ (exists e, r = Raise e /\ 0 < n)) /\
      ((forall l a b c d, reply_copy s3_client l a b c d = Ok tt) -> r = Ok tt)) /\
  (forall key, replaced_first sp dp key (PyStr.replace key sp dp (Some 1))).
Proof.
  intros Hneq Hsrc Hdst Hlist. split; [|intros key; apply replace_once_spec].
  unfold copy_s3_directory.
  apply String.eqb_neq in Hneq. rewrite Hneq.
  unfold bind at 1. unfold lift at 1. rewrite Hsrc.
  unfold bind at 1. unfold lift at 1. rewrite Hdst.
  unfold bind at 1. rewrite Hlist.
  apply for_each_copy.
Qed.

(** C9.  With textually identical URIs both copy operations return at
    once: no request is made, and the URI is not even parsed, so nothing is
    raised for a string that is no URI. *)
Theorem copy_identical_uris_is_noop (fuel : nat) (uri : string) (log : list call) :
  copy_s3_object s3_client uri uri log = Some (Ok tt, log) /\
  copy_s3_directory s3_client fuel uri uri log = Some (Ok tt, log).
Proof.
  unfold copy_s3_object, copy_s3_directory. rewrite String.eqb_refl.
  split; reflexivity.
Qed.

End CopyFacts.

(** Two listed keys under the prefix [a], copied to the prefix [b] of another bucket. *)
Lemma copy_s3_directory_destination_keys_witness :
  (exists n r,
      n <= List.length ["a/x"; "a/a/y"] /\
      AwsSession.copy_s3_directory (Fixtures.accepting_client ["a/x"; "a/a/y"]) 0
        "s3://src/a" "s3://dst/b" []
      = Some (r, ([AwsSession.ListObjectsV2 "src" "a" None]
                    ++ map (fun key =>
                              AwsSession.Copy "src" key "dst"
                                (PyStr.replace key "a" "b" (Some 1)))
                         (firstn n ["a/x"; "a/a/y"]))%list) /\
      ((r = Ok tt /\ n = List.length ["a/x"; "a/a/y"]) \/
       (exists e, r = Raise e /\ 0 < n)) /\
      ((forall l a b c d,
           AwsSession.reply_copy (Fixtures.accepting_client ["a/x"; "a/a/y"]) l a b c d
           = Ok tt) -> r = Ok tt)) /\
  (forall key, Spec.replaced_first "a" "b" key (PyStr.replace key "a" "b" (Some 1))).
Proof.
  apply (copy_s3_directory_destination_keys
           (Fixtures.accepting_client ["a/x"; "a/a/y"]) 0
           "s3://src/a" "s3://dst/b" "src" "a" "dst" "b" ["a/x"; "a/a/y"]
           [] [AwsSession.ListObjectsV2 "src" "a" None]);
    solve [discriminate | reflexivity].
Defined.

(** ** Patterns and selection *)

Section GlobFacts.

Import Spec PathLib.

Lemma split_slash_plain (s : string) :
  PyStr.contains "/" s = false -> split_slash s = [s].
Proof.
  induction s as [|c s IH]; cbn [split_slash PyStr.contains]; [reflexivity|].
  intros H. apply orb_false_iff in H as [Hc Hs]. now rewrite Hc, (IH Hs).
Qed.

Lemma split_slash_head (a b : string) :
  PyStr.contains "/" a = false ->
  split_slash (a ++ "/" ++ b) = a :: split_slash b.
Proof.
  induction a as [|c a IH]; cbn [append split_slash PyStr.contains] in *.
  - intros _. reflexivity.
  - intros H. apply orb_false_iff in H as [Hc Ha]. now rewrite Hc, (IH Ha).
Qed.

Lemma split_slash_not_nil (s : string) : split_slash s <> [].
Proof.
  destruct s as [|c s]; cbn [split_slash]; [discriminate|].
  destruct (Ascii.eqb c "/"); [discriminate|].
  destruct (split_slash s); discriminate.
Qed.

(** Text without a slash joins the last piece. *)
Lemma split_slash_app_plain (a b : string) :
  PyStr.contains "/" b = false ->
  split_slash (a ++ b)
  = (removelast (split_slash a) ++ [(last (split_slash a) "" ++ b)%string])%list.
Proof.
  intros Hb. induction a as [|c a IH].
  - cbn [append split_slash removelast last app]. now apply split_slash_plain.
  - cbn [append split_slash]. rewrite IH.
    pose proof (split_slash_not_nil a) as Hne.
    destruct (Ascii.eqb c "/").
    + destruct (split_slash a) as [|w ws]; [congruence | reflexivity].
    + destruct (split_slash a) as [|w [|w2 ws]]; [congruence | reflexivity | reflexivity].
Qed.

Lemma split_slash_app_slash (a b : string) :
  split_slash (a ++ "/" ++ b) = (split_slash a ++ split_slash b)%list.
Proof.
  induction a as [|c a IH].
  - reflexivity.
  - change (String c a ++ "/" ++ b) with (String c (a ++ "/" ++ b)).
    cbn [split_slash]. rewrite IH.
    pose proof (split_slash_not_nil a) as Hne.
    destruct (Ascii.eqb c "/"); [reflexivity|].
    destruct (split_slash a) as [|w ws]; [congruence | reflexivity].
Qed.

(** A character that is not in a text is in none of its pieces. *)
Lemma split_slash_keeps_out (c : ascii) (s : string) :
  PyStr.contains c s = false ->
  forall x, In x (split_slash s) -> PyStr.contains c x = false.
Proof.
  induction s as [|d s IH]; cbn [split_slash PyStr.contains]; intros H x Hin.
  - destruct Hin as [<- | []]. reflexivity.
  - apply orb_false_iff in H as [Hd Hs]. specialize (IH Hs).
    destruct (Ascii.eqb d "/").
    + destruct Hin as [<- | Hin]; [reflexivity | now apply IH].
    + destruct (split_slash s) as [|w ws].
      * destruct Hin as [<- | []]. cbn [PyStr.contains]. now rewrite Hd.
      * destruct Hin as [<- | Hin].
        -- cbn [PyStr.contains]. rewrite Hd. apply IH. now left.
        -- apply IH. now right.
Qed.

Lemma split_slash_no_slash (s : string) :
  forall x, In x (split_slash s) -> PyStr.contains "/" x = false.
Proof.
  induction s as [|d s IH]; cbn [split_slash]; intros x Hin.
  - destruct Hin as [<- | []]. reflexivity.
  - destruct (Ascii.eqb d "/") eqn:Hd.
    + destruct Hin as [<- | Hin]; [reflexivity | now apply IH].
    + destruct (split_slash s) as [|w ws].
      * destruct Hin as [<- | []]. cbn [PyStr.contains]. now rewrite Hd.
      * destruct Hin as [<- | Hin].
        -- cbn [PyStr.contains]. rewrite Hd. apply IH. now left.
        -- apply IH. now right.
Qed.

Lemma split_slash_join (ps : list string) :
  ps <> [] -> Forall (fun x => PyStr.contains "/" x = false) ps ->
  split_slash (PyStr.join "/" ps) = ps.
Proof.
  induction ps as [|x ps IH]; [congruence|]. intros _ Hall.
  inversion Hall as [|? ? Hx Hps]; subst.
  destruct ps as [|y ps].
  - cbn. now apply split_slash_plain.
  - change (PyStr.join "/" (x :: y :: ps)) with (x ++ "/" ++ PyStr.join "/" (y :: ps)).
    rewrite (split_slash_head _ _ Hx). f_equal. apply IH; [discriminate | exact Hps].
Qed.

Lemma keep_part_star (p : string) : keep_part (p ++ "*") = true.
Proof.
  unfold keep_part.
  destruct p as [|c [|d p]]; cbn; try reflexivity; now destruct (Ascii.eqb c ".").
Qed.

Lemma ends_with_slash_app (a : string) (c : ascii) (b : string) :
  ends_with_slash (a ++ String c b) = ends_with_slash (String c b).
Proof.
  induction a as [|d a IH]; [reflexivity|].
  cbn [append]. rewrite <- IH.
  destruct (a ++ String c b) eqn:H; [|reflexivity].
  destruct a; discriminate.
Qed.

Lemma parse_anchor_cons (c : ascii) (s : string) :
  c <> "/"%char -> parse_anchor (String c s) = "".
Proof.
  intros Hne. unfold parse_anchor.
  destruct c as [[] [] [] [] [] [] [] []]; try reflexivity. congruence.
Qed.

Lemma parse_anchor_slash (s : string) :
  parse_anchor (String "/" s) = "/" \/ parse_anchor (String "/" s) = "//".
Proof.
  destruct s as [|d s]; [now left|].
  destruct (Ascii.eqb_spec d "/") as [-> | Hd].
  - destruct s as [|e s]; [now right|].
    destruct (Ascii.eqb_spec e "/") as [-> | He]; [now left|]. right.
    unfold parse_anchor.
    destruct e as [[] [] [] [] [] [] [] []]; try reflexivity. congruence.
  - left. unfold parse_anchor.
    destruct d as [[] [] [] [] [] [] [] []]; try reflexivity. congruence.
Qed.

(** A text has no root exactly when it does not start with a slash. *)
Lemma relative_cases (s : string) :
  parse_anchor s = "" ->
  s = "" \/ exists c t, s = String c t /\ c <> "/"%char.
Proof.
  destruct s as [|c t]; [now left|]. intros H. right. exists c, t.
  split; [reflexivity|]. intros ->.
  destruct (parse_anchor_slash t) as [H' | H']; rewrite H' in H; discriminate.
Qed.

Lemma relative_star (s t : string) :
  parse_anchor s = "" -> parse_anchor (s ++ "*" ++ t) = "".
Proof.
  intros H. destruct (relative_cases s H) as [-> | (c & r & -> & Hc)].
  - reflexivity.
  - cbn [append]. now apply parse_anchor_cons.
Qed.

(** *** Literal components *)

Lemma literal_not_stars (s : string) :
  PyStr.contains "*" s = false -> has_stars s = false.
Proof.
  intros H. unfold has_stars. destruct (PyStr.find "**" s) as [i|] eqn:Hf; [|reflexivity].
  apply find_some in Hf as (pre & post & -> & _).
  rewrite contains_append in H. cbn in H. now rewrite orb_true_r in H.
Qed.

Lemma stars_need_a_star (s pre post : string) :
  PyStr.contains "*" s = false -> s ++ "*" <> pre ++ "**" ++ post.
Proof.
  revert pre. induction s as [|c s IH]; intros pre H Heq.
  - destruct pre as [|d pre]; cbn [append] in Heq; [discriminate|].
    injection Heq as _ Heq. destruct pre; discriminate.
  - cbn [PyStr.contains] in H. apply orb_false_iff in H as [Hc Hs].
    destruct pre as [|d pre]; cbn [append] in Heq.
    + injection Heq as -> _. discriminate.
    + injection Heq as _ Heq. now apply (IH pre).
Qed.

Lemma stem_star_not_stars (s : string) :
  PyStr.contains "*" s = false -> has_stars (s ++ "*") = false.
Proof.
  intros H. unfold has_stars.
  destruct (PyStr.find "**" (s ++ "*")) as [i|] eqn:Hf; [|reflexivity].
  apply find_some in Hf as (pre & post & Heq & _).
  now apply stars_need_a_star in Heq.
Qed.

Lemma stem_star_is_wildcard (s : string) : is_wildcard_pattern (s ++ "*") = true.
Proof.
  unfold is_wildcard_pattern. rewrite contains_append. cbn.
  now rewrite orb_true_r.
Qed.

Lemma stem_star_not_recursive (s : string) :
  PyStr.contains "*" s = false -> (s ++ "*" =? "**") = false.
Proof.
  intros H. apply String.eqb_neq. intros Heq.
  apply (stars_need_a_star s "" "" H). exact Heq.
Qed.

Lemma stem_star_not_empty (s : string) : (s ++ "*" =? "") = false.
Proof. apply String.eqb_neq. destruct s; discriminate. Qed.

(** The pattern [<stem>*] matches the names that start with the stem. *)
Lemma translate_literal (s : string) :
  literal s ->
  forall fuel,
    String.length s < fuel ->
    translate fuel (s ++ "*")
    = (map Char (list_ascii_of_string s) ++ [Star])%list.
Proof.
  intros (Hstar & Hq & Hb). induction s as [|c s IH]; intros fuel Hfuel.
  - destruct fuel as [|fuel]; [cbn in Hfuel; lia|].
    cbn. now destruct fuel.
  - destruct fuel as [|fuel]; [lia|]. cbn [String.length] in Hfuel.
    cbn [PyStr.contains] in Hstar, Hq, Hb.
    apply orb_false_iff in Hstar as [Hc1 Hstar], Hq as [Hc2 Hq], Hb as [Hc3 Hb].
    cbn [append translate list_ascii_of_string map app].
    rewrite Hc1, Hc2, Hc3. f_equal. apply IH; auto. lia.
Qed.

Lemma fnmatch_star_any (name : string) : fnmatch [Star] name = true.
Proof.
  induction name as [|c name IH]; [reflexivity|].
  cbn [fnmatch] in *. now rewrite IH, orb_true_r.
Qed.

Lemma fnmatch_prefix (s : string) :
  forall name,
    fnmatch (map Char (list_ascii_of_string s) ++ [Star]) name = prefix s name.
Proof.
  induction s as [|c s IH]; intros name.
  - cbn [list_ascii_of_string map app]. rewrite fnmatch_star_any. now destruct name.
  - cbn [list_ascii_of_string map app].
    destruct name as [|d name]; [reflexivity|]. cbn [fnmatch prefix].
    destruct (ascii_dec c d) as [Heq|Hne].
    + subst d. rewrite Ascii.eqb_refl. now apply IH.
    + apply Ascii.eqb_neq in Hne. now rewrite Hne.
Qed.

Lemma fnmatch_stem_star (s : string) :
  literal s -> forall name, fnmatch (tokens (s ++ "*")) name = prefix s name.
Proof.
  intros H name. unfold tokens. rewrite (translate_literal s H).
  - apply fnmatch_prefix.
  - clear. induction s as [|c s IH]; cbn [append String.length]; lia.
Qed.

(** *** The selectors of a literal prefix *)

Lemma make_selector_into (fs tail_parts : list string) (tail : selector) :
  Forall folder_name fs -> tail_parts <> [] ->
  make_selector tail_parts = Ok tail ->
  make_selector (fs ++ tail_parts) = Ok (into fs tail).
Proof.
  intros Hfs Hne Htail. induction Hfs as [|f fs [Hkeep (Hstar & Hq & Hb)] _ IH].
  - exact Htail.
  - cbn [app make_selector into]. rewrite IH.
    unfold keep_part in Hkeep. apply andb_true_iff in Hkeep as [Hk _].
    apply negb_true_iff in Hk. rewrite Hk.
    assert (Hrec : (f =? "**") = false).
    { apply String.eqb_neq. intros ->. discriminate. }
    rewrite Hrec, (literal_not_stars f Hstar).
    unfold is_wildcard_pattern. rewrite Hstar, Hq, Hb. cbn [orb].
    destruct (fs ++ tail_parts)%list eqn:Happ; [|reflexivity].
    apply app_eq_nil in Happ as [_ ->]. congruence.
Qed.

Lemma make_selector_direct (s : string) :
  literal s ->
  make_selector [s ++ "*"] = Ok (Wildcard (tokens (s ++ "*")) false Terminating).
Proof.
  intros (Hstar & _). cbn [make_selector no_children negb].
  now rewrite stem_star_not_empty, (stem_star_not_recursive s Hstar),
    (stem_star_not_stars s Hstar), stem_star_is_wildcard.
Qed.

Lemma make_selector_nested (s : string) :
  literal s ->
  make_selector [s ++ "*"; "**"; "*"]
  = Ok (Wildcard (tokens (s ++ "*")) true
          (RecursiveWildcard (Wildcard [Star] false Terminating))).
Proof.
  intros (Hstar & _).
  change (make_selector [s ++ "*"; "**"; "*"])
    with (if (s ++ "*" =? "") then Ok Terminating
          else if (s ++ "*" =? "**") then
                 match make_selector ["**"; "*"] with
                 | Ok successor => Ok (RecursiveWildcard successor)
                 | Raise e => Raise e
                 end
          else if has_stars (s ++ "*") then
                 Raise (ValueError
                          "Invalid pattern: '**' can only be an entire path component")
          else match make_selector ["**"; "*"] with
               | Ok successor =>
                   Ok (if is_wildcard_pattern (s ++ "*")
                       then Wildcard (tokens (s ++ "*")) true successor
                       else Precise (s ++ "*") true successor)
               | Raise e => Raise e
               end).
  now rewrite stem_star_not_empty, (stem_star_not_recursive s Hstar),
    (stem_star_not_stars s Hstar), stem_star_is_wildcard.
Qed.

(** *** Equality of what is found *)

Lemma list_eqb_eq {A : Type} (eqb : A -> A -> bool) (xs : list A) :
  Forall (fun x => forall y, eqb x y = true <-> x = y) xs ->
  forall ys, list_eqb eqb xs ys = true <-> xs = ys.
Proof.
  induction 1 as [|x xs Hx _ IH]; intros [|y ys]; cbn [list_eqb];
    try (split; [discriminate | congruence]); [now split|].
  rewrite andb_true_iff, Hx, IH. split; [intros [-> ->]; reflexivity|].
  intros [= -> ->]. now split.
Qed.

Lemma node_eqb_eq (a : node) : forall b, node_eqb a b = true <-> a = b.
Proof.
  induction a as [|es IH] using node_induction; intros [|fs]; cbn [node_eqb];
    try (split; [discriminate | congruence]); [now split|].
  rewrite list_eqb_eq.
  - split; congruence.
  - apply Forall_forall. intros [n c] Hin [m d]. cbn [fst snd].
    rewrite Forall_forall in IH. specialize (IH _ Hin). cbn [snd] in IH.
    rewrite andb_true_iff, String.eqb_eq, IH. split; [intros [-> ->]|intros [= -> ->]]; auto.
Qed.

Lemma found_eqb_eq (a b : found) : found_eqb a b = true <-> a = b.
Proof.
  destruct a as [p [up n]], b as [q [up' m]]. unfold found_eqb, place_eqb.
  cbn [fst snd here above].
  rewrite !andb_true_iff, node_eqb_eq, !list_eqb_eq.
  - split; [intros (-> & -> & ->) | intros [= -> -> ->]]; auto.
  - apply Forall_forall. intros x _. apply node_eqb_eq.
  - apply Forall_forall. intros x _ y. apply String.eqb_eq.
Qed.

Lemma once_spec (ps : list found) :
  forall yielded x, In x (once yielded ps) <-> In x ps /\ ~ In x yielded.
Proof.
  induction ps as [|f ps IH]; intros yielded x; cbn [once].
  - split; [intros [] | intros [[] _]].
  - destruct (existsb (found_eqb f) yielded) eqn:Hseen.
    + apply existsb_exists in Hseen as (y & Hy & Heq). apply found_eqb_eq in Heq.
      subst y. rewrite IH. split.
      * intros [Hin Hnot]. split; [now right | exact Hnot].
      * intros [[<- | Hin] Hnot]; [contradiction | now split].
    + assert (Hnew : ~ In f yielded).
      { intros Hin. apply not_true_iff_false in Hseen. apply Hseen.
        apply existsb_exists. exists f. split; [exact Hin | now apply found_eqb_eq]. }
      cbn [In]. rewrite IH. cbn [In]. split.
      * intros [<- | [Hin Hnot]]; [split; [now left | exact Hnew]|].
        split; [now right | tauto].
      * intros [[<- | Hin] Hnot]; [now left|].
        destruct (found_eqb f x) eqn:Hfx.
        -- apply found_eqb_eq in Hfx. now left.
        -- right. split; [exact Hin|]. intros [<- | H]; [|contradiction].
           assert (found_eqb f f = true) by now apply found_eqb_eq. congruence.
Qed.

Lemma once_all (ps : list found) (x : found) : In x (once [] ps) <-> In x ps.
Proof. rewrite once_spec. cbn [In]. tauto. Qed.

(** *** Selection *)

Lemma walk_from_file (l : place) (p : list string) :
  is_dir (here l) = false -> p <> [] -> walk l p = [].
Proof.
  intros Hl Hp. destruct p as [|name p]; [congruence|].
  cbn [walk]. unfold child. destruct (here l); [|discriminate].
  now destruct (name =? "..").
Qed.

(** Folders are followed one by one. *)
Lemma select_into (fs : list string) (tail : selector) :
  (forall q d, is_dir (here d) = false -> select_from tail (q, d) = []) ->
  forall q l x,
    In x (select_from (into fs tail) (q, l)) <->
    exists d, In d (walk l fs) /\ In x (select_from tail ((q ++ fs)%list, d)).
Proof.
  intros Htail. induction fs as [|f fs IH]; intros q l x.
  - cbn [into walk]. rewrite app_nil_r. split.
    + intros H. exists l. split; [now left | exact H].
    + intros (d & [<- | []] & H). exact H.
  - cbn [into select_from walk fst snd negb orb]. rewrite in_flat_map. split.
    + intros (c & Hc & Hin). destruct (is_dir (here c)); [|destruct Hin].
      apply IH in Hin as (d & Hd & Hin). rewrite <- app_assoc in Hin.
      exists d. split; [|exact Hin]. apply in_flat_map. now exists c.
    + intros (d & Hd & Hin). apply in_flat_map in Hd as (c & Hc & Hd).
      exists c. split; [exact Hc|].
      destruct (is_dir (here c)) eqn:Hdir.
      * apply IH. exists d. split; [exact Hd|]. now rewrite <- app_assoc.
      * exfalso. destruct fs as [|f' fs].
        -- cbn [walk] in Hd. destruct Hd as [<- | []].
           now rewrite (Htail _ _ Hdir) in Hin.
        -- rewrite (walk_from_file c (f' :: fs) Hdir) in Hd by discriminate.
           destruct Hd.
Qed.

Lemma select_wildcard (P : list tok) (dironly : bool) (successor : selector)
      (q : list string) (l : place) (x : found) :
  In x (select_from (Wildcard P dironly successor) (q, l)) <->
  exists name c,
    In (name, c) (entries_of (here l)) /\ fnmatch P name = true /\
    (negb dironly || is_dir c) = true /\
    In x (select_from successor ((q ++ [name])%list, Place (here l :: above l) c)).
Proof.
  cbn [select_from fst snd]. rewrite in_flat_map. split.
  - intros ([name c] & He & Hin). cbn [fst snd] in Hin.
    destruct (negb dironly || is_dir c) eqn:Hd; [|destruct Hin].
    destruct (fnmatch P name) eqn:Hm; [|destruct Hin].
    exists name, c. auto.
  - intros (name & c & He & Hm & Hd & Hin). exists (name, c).
    split; [exact He|]. cbn [fst snd]. now rewrite Hd, Hm.
Qed.

Lemma wildcard_from_file (P : list tok) (dironly : bool) (successor : selector)
      (q : list string) (d : place) :
  is_dir (here d) = false -> select_from (Wildcard P dironly successor) (q, d) = [].
Proof.
  intros H. cbn [select_from fst snd]. destruct (here d); [reflexivity | discriminate].
Qed.

Lemma iterate_directories_sound (n : node) :
  forall q up p l,
    In (p, l) (iterate_directories q up n) ->
    exists r, p = (q ++ r)%list /\ names_node n r (here l) /\ is_dir (here l) = true.
Proof.
  induction n as [|es IH] using node_induction; intros q up p l Hin.
  - destruct Hin.
  - cbn [iterate_directories] in Hin. destruct Hin as [Heq | Hin].
    + injection Heq as <- <-. exists []. rewrite app_nil_r. now repeat split.
    + apply in_flat_map in Hin as ([name c] & He & Hin). cbn [fst snd] in Hin.
      rewrite Forall_forall in IH.
      destruct (IH _ He _ _ _ _ Hin) as (r & -> & Hr & Hl).
      exists (name :: r). rewrite <- app_assoc. split; [reflexivity|].
      split; [|exact Hl]. exists c. now split.
Qed.

Lemma iterate_directories_complete (r : list string) :
  forall n q up m,
    names_node n r m -> is_dir m = true ->
    exists l, here l = m /\ In ((q ++ r)%list, l) (iterate_directories q up n).
Proof.
  induction r as [|name r IH]; intros n q up m Hr Hm.
  - cbn in Hr. subst m. rewrite app_nil_r. destruct n as [|es]; [discriminate|].
    exists (Place up (Dir es)). split; [reflexivity | now left].
  - destruct Hr as (c & He & Hr). destruct n as [|es]; [destruct He|].
    destruct (IH c (q ++ [name])%list (Dir es :: up) m Hr Hm) as (l & Hl & Hin).
    exists l. split; [exact Hl|]. cbn [iterate_directories]. right.
    apply in_flat_map. exists (name, c). split; [exact He|]. cbn [fst snd].
    now rewrite <- app_assoc in Hin.
Qed.

Lemma names_node_app (q r : list string) :
  forall n m,
    names_node n (q ++ r) m <-> exists d, names_node n q d /\ names_node d r m.
Proof.
  induction q as [|name q IH]; intros n m; cbn [app names_node].
  - split.
    + intros H. now exists n.
    + now intros (d & -> & H).
  - split.
    + intros (c & He & H). apply IH in H as (d & Hq & Hr).
      exists d. split; [|exact Hr]. now exists c.
    + intros (d & (c & He & Hq) & Hr). exists c. split; [exact He|].
      apply IH. now exists d.
Qed.

Lemma has_entry_is_dir (n c : node) (name : string) :
  In (name, c) (entries_of n) -> is_dir n = true.
Proof. destruct n; [intros [] | reflexivity]. Qed.

Lemma names_node_step_is_dir (n m : node) (name : string) (q : list string) :
  names_node n (name :: q) m -> is_dir n = true.
Proof. intros (c & He & _). now apply has_entry_is_dir in He. Qed.

(** The regular files the last component [<stem>*] finds in a directory. *)
Lemma select_direct_spec (P : list tok) (q p : list string) (d : place) :
  (exists l, In (p, l) (select_from (Wildcard P false Terminating) (q, d))
             /\ here l = File) <->
  exists name,
    p = (q ++ [name])%list /\ In (name, File) (entries_of (here d)) /\
    fnmatch P name = true.
Proof.
  split.
  - intros (l & Hin & Hl). apply select_wildcard in Hin as (name & c & He & Hm & _ & Hin).
    cbn [select_from] in Hin. destruct Hin as [[= <- <-] | []].
    cbn [here] in Hl. subst c. now exists name.
  - intros (name & -> & He & Hm).
    exists (Place (here d :: above d) File). split; [|reflexivity].
    apply select_wildcard. exists name, File. repeat split; auto. now left.
Qed.

Lemma select_recursive (successor : selector) (q : list string) (l : place) (x : found) :
  In x (select_from (RecursiveWildcard successor) (q, l)) <->
  exists from,
    In from (iterate_directories q (above l) (here l)) /\
    In x (select_from successor from).
Proof.
  change (select_from (RecursiveWildcard successor) (q, l))
    with (once [] (flat_map (select_from successor)
                     (iterate_directories q (above l) (here l)))).
  now rewrite once_all, in_flat_map.
Qed.

(** The regular files the components [<stem>*/**/*] find below a
    directory. *)
Lemma select_nested_spec (P : list tok) (q p : list string) (d : place) :
  (exists l,
      In (p, l) (select_from
                   (Wildcard P true
                      (RecursiveWildcard (Wildcard [Star] false Terminating))) (q, d))
      /\ here l = File) <->
  exists name rest,
    p = (q ++ name :: rest)%list /\ rest <> [] /\ fnmatch P name = true /\
    names_node (here d) (name :: rest) File.
Proof.
  split.
  - intros (l & Hin & Hl).
    apply select_wildcard in Hin as (name & c & He & Hm & _ & Hin).
    apply select_recursive in Hin as ([p' l'] & Hdir & Hin).
    cbn [here above] in Hdir.
    apply iterate_directories_sound in Hdir as (r & -> & Hr & _).
    apply select_wildcard in Hin as (fname & c' & He' & _ & _ & Hin).
    cbn [select_from] in Hin. destruct Hin as [[= <- <-] | []].
    cbn [here] in Hl. subst c'.
    exists name, (r ++ [fname])%list. rewrite <- !app_assoc. cbn [app].
    split; [reflexivity|]. split; [now destruct r|]. split; [exact Hm|].
    exists c. split; [exact He|]. apply names_node_app.
    exists (here l'). split; [exact Hr|]. exists File. now split.
  - intros (name & rest & -> & Hrest & Hm & (c & He & Hnode)).
    destruct (exists_last Hrest) as (r & fname & ->).
    apply names_node_app in Hnode as (m & Hr & (f & Hf & Heq)).
    cbn in Heq. subst f.
    assert (Hm' : is_dir m = true) by now apply has_entry_is_dir in Hf.
    assert (Hc : is_dir c = true).
    { destruct r as [|r0 r]; [cbn in Hr; now subst m|].
      now apply names_node_step_is_dir in Hr. }
    destruct (iterate_directories_complete r c (q ++ [name])%list
                (here d :: above d) m Hr Hm') as (l' & Hl' & Hin).
    exists (Place (here l' :: above l') File). split; [|reflexivity].
    apply select_wildcard. exists name, c. split; [exact He|]. split; [exact Hm|].
    split; [now rewrite Hc|].
    apply select_recursive. exists (((q ++ [name]) ++ r)%list, l').
    split; [exact Hin|].
    apply select_wildcard. exists fname, File. rewrite Hl'.
    split; [exact Hf|]. split; [apply fnmatch_star_any|]. split; [reflexivity|].
    cbn [select_from]. left. rewrite <- !app_assoc. reflexivity.
Qed.

End GlobFacts.

(** ** [upload_local_data] *)

Section UploadFacts.

Import Spec PathLib AwsSession TransferSpec Fixtures.

Lemma in_removelast {A : Type} (l : list A) (x : A) : In x (removelast l) -> In x l.
Proof.
  induction l as [|y [|z l] IH]; cbn [removelast]; [intros [] | intros [] |].
  intros [<- | H]; [now left | right; now apply IH].
Qed.

Lemma last_in {A : Type} (l : list A) (d : A) : l <> [] -> In (last l d) l.
Proof.
  induction l as [|y [|z l] IH]; [congruence | intros _; now left |].
  intros _. right. apply IH. discriminate.
Qed.

Lemma last_default {A : Type} (l : list A) (d d' : A) : l <> [] -> last l d = last l d'.
Proof.
  induction l as [|y [|z l] IH]; [congruence | reflexivity |].
  intros _. apply IH. discriminate.
Qed.

Lemma filter_all {A : Type} (f : A -> bool) (l : list A) :
  Forall (fun x => f x = true) l -> filter f l = l.
Proof.
  induction 1 as [|x l Hx _ IH]; cbn [filter]; [reflexivity|]. now rewrite Hx, IH.
Qed.

Lemma literal_piece (s x : string) : literal s -> In x (split_slash s) -> literal x.
Proof.
  intros (H1 & H2 & H3) Hin.
  repeat split; eapply split_slash_keeps_out; eauto.
Qed.

Lemma kept_part_starts (x : string) :
  keep_part x = true -> PyStr.contains "/" x = false ->
  exists c t, x = String c t /\ c <> "/"%char.
Proof.
  destruct x as [|c t]; [discriminate|]. intros _ H. exists c, t.
  split; [reflexivity|]. cbn [PyStr.contains] in H.
  apply orb_false_iff in H as [Hc _]. now apply Ascii.eqb_neq in Hc.
Qed.

(** What a literal prefix makes of the base directory and of the two
    patterns. *)
Lemma prefix_patterns (local_prefix : string) :
  literal local_prefix ->
  exists base relative_prefix,
    prefix_base local_prefix = (base, relative_prefix) /\
    parts base = [] /\
    anchor base = anchor (Path local_prefix) /\
    (forall fs, place_of fs base = start fs local_prefix) /\
    (forall t, parse_anchor (relative_prefix ++ String "*" t) = "") /\
    split_slash (relative_prefix ++ "*")
    = (removelast (split_slash relative_prefix)
         ++ [(last (split_slash relative_prefix) "" ++ "*")%string])%list /\
    filter keep_part (removelast (split_slash relative_prefix)) = folders local_prefix /\
    last (split_slash relative_prefix) "" = stem local_prefix /\
    Forall folder_name (folders local_prefix) /\
    literal (stem local_prefix).
Proof.
  intros Hlit. unfold prefix_base, folders, stem, start.
  destruct (is_absolute (Path local_prefix)) eqn:Habs.
  - unfold is_absolute in Habs. cbn [Path anchor] in Habs.
    apply negb_true_iff, String.eqb_neq in Habs.
    assert (Hroot : parse_anchor local_prefix = "/" \/ parse_anchor local_prefix = "//").
    { destruct local_prefix as [|c t]; [now destruct Habs|].
      destruct (Ascii.eqb_spec c "/") as [-> | Hc]; [apply parse_anchor_slash|].
      now rewrite parse_anchor_cons in Habs. }
    assert (Hkept : forall x, In x (parts (Path local_prefix)) ->
                              keep_part x = true /\ PyStr.contains "/" x = false
                              /\ literal x).
    { intros x Hx. cbn [Path parts] in Hx. apply filter_In in Hx as [Hin Hk].
      split; [exact Hk|]. split; [now apply split_slash_no_slash in Hin|].
      now apply (literal_piece local_prefix). }
    eexists. eexists. split; [reflexivity|].
    split; [cbn [Path anchor]; now destruct Hroot as [-> | ->]|].
    split; [cbn [Path anchor]; now destruct Hroot as [-> | ->]|].
    split.
    { intros fs. unfold place_of. cbn [Path anchor].
      now destruct Hroot as [-> | ->]. }
    unfold relative_to_anchor, str. cbn [anchor parts].
    destruct (parts (Path local_prefix)) as [|x ps] eqn:Hps.
    + split; [reflexivity|]. split; [reflexivity|]. split; [reflexivity|].
      split; [reflexivity|]. split; [constructor|]. repeat split.
    + assert (Hne : x :: ps <> []) by discriminate.
      assert (Hsplit : split_slash (PyStr.join "/" (x :: ps)) = x :: ps).
      { apply split_slash_join; [exact Hne|]. apply Forall_forall.
        intros y Hy. now apply Hkept. }
      change ("" ++ PyStr.join "/" (x :: ps)) with (PyStr.join "/" (x :: ps)).
      split.
      { intros t. destruct (Hkept x (or_introl eq_refl)) as (Hk & Hs & _).
        destruct (kept_part_starts x Hk Hs) as (c & r & -> & Hc).
        destruct ps; now apply parse_anchor_cons. }
      split; [now apply split_slash_app_plain|].
      rewrite Hsplit.
      split.
      { apply filter_all, Forall_forall. intros y Hy.
        apply in_removelast in Hy. now apply Hkept. }
      split; [now apply last_default|].
      split.
      { apply Forall_forall. intros y Hy. apply in_removelast in Hy.
        split; now apply Hkept. }
      apply Hkept. now apply last_in.
  - unfold is_absolute in Habs. cbn [Path anchor] in Habs.
    apply negb_false_iff, String.eqb_eq in Habs.
    exists (Path ""), local_prefix. split; [reflexivity|].
    split; [reflexivity|]. split; [cbn [Path anchor]; now rewrite Habs|].
    split.
    { intros fs. unfold place_of. cbn. now rewrite app_nil_r. }
    split.
    { intros t. now apply (relative_star local_prefix t). }
    split; [now apply split_slash_app_plain|].
    split; [reflexivity|]. split; [reflexivity|].
    split.
    + apply Forall_forall. intros y Hy. apply filter_In in Hy as [Hin Hk].
      apply in_removelast in Hin. split; [exact Hk|].
      now apply (literal_piece local_prefix).
    + apply (literal_piece local_prefix); [exact Hlit|].
      apply last_in, split_slash_not_nil.
Qed.

(** The paths a pattern finds, once it is read. *)
Lemma glob_run (fs : filesystem) (base : path) (pattern : string)
      (pattern_parts : list string) (chosen : selector) :
  pattern <> "" -> parse_anchor pattern = "" -> ends_with_slash pattern = false ->
  filter keep_part (split_slash pattern) = pattern_parts -> pattern_parts <> [] ->
  make_selector pattern_parts = Ok chosen ->
  glob fs base pattern
  = Ok (map (fun f => (joinpath base (fst f), here (snd f)))
          (flat_map (fun l => if is_dir (here l) then select_from chosen ([], l) else [])
             (place_of fs base))).
Proof.
  intros Hne Hrel Hend Hparts Hsome Hsel. unfold glob.
  apply String.eqb_neq in Hne. rewrite Hne.
  unfold is_absolute. cbn [Path anchor parts]. rewrite Hrel, Hend, Hparts, app_nil_r.
  cbn [String.eqb negb].
  destruct pattern_parts as [|x xs]; [congruence|]. now rewrite Hsel.
Qed.

(** The regular files among the paths found. *)
Lemma glob_files (base : path) (chosen : selector) (places : list place)
      (p : list string) :
  parts base = [] ->
  In p (map (fun f => parts (fst f))
          (filter is_file
             (map (fun f : found => (joinpath base (fst f), here (snd f)))
                (flat_map
                   (fun l => if is_dir (here l) then select_from chosen ([], l) else [])
                   places)))) <->
  exists l x,
    In l places /\ is_dir (here l) = true /\
    In (p, x) (select_from chosen ([], l)) /\ here x = File.
Proof.
  intros Hbase. rewrite in_map_iff. split.
  - intros (f & <- & Hf). apply filter_In in Hf as [Hin Hfile].
    apply in_map_iff in Hin as ([q x] & <- & Hin).
    apply in_flat_map in Hin as (l & Hl & Hin).
    destruct (is_dir (here l)) eqn:Hdir; [|destruct Hin].
    unfold is_file in Hfile. cbn [fst snd joinpath parts] in *.
    rewrite Hbase. cbn [app]. exists l, x. repeat split; auto.
    destruct (here x); [reflexivity | discriminate].
  - intros (l & x & Hl & Hdir & Hin & Hx).
    exists (joinpath base p, here x). split.
    + cbn [fst joinpath parts]. now rewrite Hbase.
    + apply filter_In. split; [|unfold is_file; cbn [snd]; now rewrite Hx].
      apply in_map_iff. exists (p, x). split; [reflexivity|].
      apply in_flat_map. exists l. split; [exact Hl|]. now rewrite Hdir.
Qed.

Lemma walk_to_entry (l d : place) (fs : list string) (name : string) (c : node) :
  In d (walk l fs) -> In (name, c) (entries_of (here d)) -> is_dir (here l) = true.
Proof.
  intros Hd He. destruct (is_dir (here l)) eqn:Hdir; [reflexivity|].
  destruct fs as [|f fs].
  - destruct Hd as [<- | []]. destruct (here l); [destruct He | discriminate].
  - rewrite (walk_from_file l (f :: fs) Hdir) in Hd by discriminate. destruct Hd.
Qed.

Lemma for_each_app {A : Type} (xs ys : list A) (body : A -> M unit) :
  forall log,
    for_each (xs ++ ys) body log
    = match for_each xs body log with
      | Some (Ok _, log') => for_each ys body log'
      | other => other
      end.
Proof.
  induction xs as [|x xs IH]; intros log; [reflexivity|].
  cbn [app for_each]. unfold bind.
  destruct (body x log) as [[[u|e] log']|]; [apply IH | reflexivity | reflexivity].
Qed.

Lemma for_chain_two {A : Type} (xs ys : list A) (body : A -> M unit) (log : list call) :
  for_chain [Ok xs; Ok ys] body log = for_each (xs ++ ys) body log.
Proof.
  rewrite for_each_app. cbn [for_chain]. unfold bind, lift, ret.
  destruct (for_each xs body log) as [[[u|e] log']|]; try reflexivity.
  now destruct (for_each ys body log') as [[[[]|e] log'']|].
Qed.

(** The selection of a literal prefix: both patterns are accepted, the
    loop runs over what they find, and the regular files found are those
    whose name starts with the stem in the folder, and those below a
    directory of the folder whose name starts with the stem. *)
Lemma literal_selection (fs : filesystem) (local_prefix : string) :
  literal local_prefix ->
  exists direct nested,
    matching fs local_prefix = Some (direct ++ nested)%list /\
    (forall client s3_prefix log,
        upload_local_data client fs local_prefix s3_prefix log
        = for_each (direct ++ nested)
            (upload_matched client local_prefix s3_prefix) log) /\
    (forall f, In f (direct ++ nested)%list ->
               anchor (fst f) = anchor (Path local_prefix)) /\
    (forall p,
        In p (map (fun f => parts (fst f)) (filter is_file direct)) <->
        exists d name,
          folder fs local_prefix d /\
          p = (folders local_prefix ++ [name])%list /\
          prefix (stem local_prefix) name = true /\
          In (name, File) (entries_of (here d))) /\
    (forall p,
        In p (map (fun f => parts (fst f)) (filter is_file nested)) <->
        exists d name rest,
          folder fs local_prefix d /\
          p = (folders local_prefix ++ name :: rest)%list /\ rest <> [] /\
          prefix (stem local_prefix) name = true /\
          names_file (here d) (name :: rest)).
Proof.
  intros Hlit.
  destruct (prefix_patterns local_prefix Hlit)
    as (base & rp & Hbase & Hparts & Hanchor & Hplace & Hrel & Hsplit & Hfolders
        & Hstem & Hnames & Hstemlit).
  set (P := tokens (stem local_prefix ++ "*")).
  set (chosen1 := into (folders local_prefix) (Wildcard P false Terminating)).
  set (chosen2 := into (folders local_prefix)
                    (Wildcard P true
                       (RecursiveWildcard (Wildcard [Star] false Terminating)))).
  assert (Hparts1 : filter keep_part (split_slash (rp ++ "*"))
                    = (folders local_prefix ++ [(stem local_prefix ++ "*")%string])%list).
  { rewrite Hsplit, filter_app, Hfolders, Hstem. cbn [filter].
    now rewrite keep_part_star. }
  assert (Hparts2 : filter keep_part (split_slash (rp ++ "*/**/*"))
                    = (folders local_prefix
                         ++ [(stem local_prefix ++ "*")%string; "**"; "*"])%list).
  { change (rp ++ "*/**/*") with (rp ++ "*" ++ "/" ++ "**/*").
    rewrite <- append_assoc, split_slash_app_slash, filter_app, Hparts1.
    rewrite <- app_assoc. reflexivity. }
  assert (Hglob1 :
    glob fs base (rp ++ "*")
    = Ok (map (fun f : found => (joinpath base (fst f), here (snd f)))
            (flat_map
               (fun l => if is_dir (here l) then select_from chosen1 ([], l) else [])
               (start fs local_prefix)))).
  { rewrite <- Hplace.
    apply (glob_run fs base (rp ++ "*")
             (folders local_prefix ++ [(stem local_prefix ++ "*")%string])%list
             chosen1).
    - destruct rp; discriminate.
    - apply Hrel.
    - now rewrite ends_with_slash_app.
    - exact Hparts1.
    - intros H. now apply app_eq_nil in H as [_ H].
    - apply make_selector_into; [exact Hnames | discriminate|].
      now apply make_selector_direct. }
  assert (Hglob2 :
    glob fs base (rp ++ "*/**/*")
    = Ok (map (fun f : found => (joinpath base (fst f), here (snd f)))
            (flat_map
               (fun l => if is_dir (here l) then select_from chosen2 ([], l) else [])
               (start fs local_prefix)))).
  { rewrite <- Hplace.
    apply (glob_run fs base (rp ++ "*/**/*")
             (folders local_prefix ++ [(stem local_prefix ++ "*")%string; "**"; "*"])%list
             chosen2).
    - destruct rp; discriminate.
    - apply Hrel.
    - change (rp ++ "*/**/*") with (rp ++ String "*" "/**/*").
      now rewrite ends_with_slash_app.
    - exact Hparts2.
    - intros H. now apply app_eq_nil in H as [_ H].
    - apply make_selector_into; [exact Hnames | discriminate|].
      now apply make_selector_nested. }
  eexists. eexists. split; [|split; [|split; [|split]]].
  - unfold matching. rewrite Hbase, Hglob1, Hglob2. reflexivity.
  - intros client s3_prefix log. unfold upload_local_data.
    rewrite Hbase, Hglob1, Hglob2. apply for_chain_two.
  - intros f Hf. rewrite <- Hanchor.
    apply in_app_iff in Hf as [Hf | Hf];
      apply in_map_iff in Hf as (x & <- & _); reflexivity.
  - intros p. rewrite (glob_files base chosen1 _ p Hparts). split.
    + intros (l & x & Hl & _ & Hin & Hx).
      apply select_into in Hin as (d & Hd & Hin);
        [|intros; now apply wildcard_from_file].
      cbn [app] in Hin.
      destruct (proj1 (select_direct_spec P (folders local_prefix) p d))
        as (name & -> & He & Hm); [now exists x|].
      exists d, name. split; [now exists l|]. split; [reflexivity|].
      split; [|exact He]. unfold P in Hm.
      now rewrite (fnmatch_stem_star _ Hstemlit) in Hm.
    + intros (d & name & (l & Hl & Hd) & -> & Hm & He).
      destruct (proj2 (select_direct_spec P (folders local_prefix)
                         (folders local_prefix ++ [name])%list d))
        as (x & Hin & Hx).
      { exists name. split; [reflexivity|]. split; [exact He|].
        unfold P. now rewrite (fnmatch_stem_star _ Hstemlit). }
      exists l, x. split; [exact Hl|].
      split; [now apply (walk_to_entry l d (folders local_prefix) name File)|].
      split; [|exact Hx].
      apply select_into; [intros; now apply wildcard_from_file|].
      exists d. split; [exact Hd | exact Hin].
  - intros p. rewrite (glob_files base chosen2 _ p Hparts). split.
    + intros (l & x & Hl & _ & Hin & Hx).
      apply select_into in Hin as (d & Hd & Hin);
        [|intros; now apply wildcard_from_file].
      cbn [app] in Hin.
      destruct (proj1 (select_nested_spec P (folders local_prefix) p d))
        as (name & rest & -> & Hrest & Hm & Hnode); [now exists x|].
      exists d, name, rest. split; [now exists l|]. split; [reflexivity|].
      split; [exact Hrest|]. split; [|exact Hnode]. unfold P in Hm.
      now rewrite (fnmatch_stem_star _ Hstemlit) in Hm.
    + intros (d & name & rest & (l & Hl & Hd) & -> & Hrest & Hm & Hnode).
      destruct (proj2 (select_nested_spec P (folders local_prefix)
                         (folders local_prefix ++ name :: rest)%list d))
        as (x & Hin & Hx).
      { exists name, rest. split; [reflexivity|]. split; [exact Hrest|].
        split; [|exact Hnode].
        unfold P. now rewrite (fnmatch_stem_star _ Hstemlit). }
      exists l, x. split; [exact Hl|].
      split.
      { destruct Hnode as (c & He & _).
        now apply (walk_to_entry l d (folders local_prefix) name c). }
      split; [|exact Hx].
      apply select_into; [intros; now apply wildcard_from_file|].
      exists d. split; [exact Hd | exact Hin].
Qed.




Lemma append_same_length (a a' x x' : string) :
  a ++ x = a' ++ x' -> String.length a = String.length a' -> a = a' /\ x = x'.
Proof.
  revert a'. induction a as [|c a IH]; intros [|c' a'] Heq Hlen;
    cbn [append String.length] in *; try discriminate.
  - now split.
  - injection Heq as -> Heq. injection Hlen as Hlen.
    destruct (IH a' Heq Hlen) as [-> ->]. now split.
Qed.

Lemma replaced_first_unique (old new s r1 r2 : string) :
  replaced_first old new s r1 -> replaced_first old new s r2 -> r1 = r2.
Proof.
  intros [(pre & post & Hs & Hmin & ->) | [Hno ->]]
         [(pre' & post' & Hs' & Hmin' & ->) | [Hno' ->]].
  - pose proof (Hmin _ _ Hs') as H1. pose proof (Hmin' _ _ Hs) as H2.
    rewrite Hs in Hs'.
    destruct (append_same_length _ _ _ _ Hs' (Nat.le_antisymm _ _ H1 H2)) as [-> Hpost].
    apply append_inv_head in Hpost. now subst post'.
  - now destruct (Hno' _ _ Hs).
  - now destruct (Hno _ _ Hs').
  - reflexivity.
Qed.

(** C2, on the code.  For the file [input/input.csv] and the prefix [input],
    [upload_local_data] replaces both occurrences of the prefix: the URI it
    computes, and uploads to, is not the path with its first occurrence
    replaced, which would be [s3://my-bucket/dir/input/input.csv]. *)
Theorem upload_local_data_replaces_every_occurrence :
  remote_uri "input" "s3://my-bucket/dir/input" (Path "input/input.csv")
  = "s3://my-bucket/dir/input/s3://my-bucket/dir/input.csv" /\
  ~ replaced_first "input" "s3://my-bucket/dir/input" "input/input.csv"
      (remote_uri "input" "s3://my-bucket/dir/input" (Path "input/input.csv")) /\
  replaced_first "input" "s3://my-bucket/dir/input" "input/input.csv"
    "s3://my-bucket/dir/input/input.csv" /\
  (forall keys,
      upload_local_data (accepting_client keys) nested_fs
        "input" "s3://my-bucket/dir/input" []
      = Some (Ok tt,
              [UploadFile "input/input.csv" "my-bucket"
                 "dir/input/s3://my-bucket/dir/input.csv"])).
Proof.
  split; [reflexivity|]. split; [|split; [|intros keys; reflexivity]].
  - intros H.
    pose proof (replace_once_spec "input" "s3://my-bucket/dir/input" "input/input.csv")
      as Hfirst.
    pose proof (replaced_first_unique _ _ _ _ _ H Hfirst) as Heq.
    discriminate Heq.
  - exact (replace_once_spec "input" "s3://my-bucket/dir/input" "input/input.csv").
Qed.

End UploadFacts.

(** ** More on the transfers *)

Section TransferFacts.

Import Spec AwsSession TransferSpec.

Variable s3_client : S3Client.

Lemma list_keys_loop_serves (bucket prefix : string) (log log' : list call)
      (token : option string) (pages : list (list string)) :
  serves s3_client bucket prefix log token pages log' ->
  forall fuel previous keys next,
    token = Some next ->
    IsTruncated previous = true ->
    NextContinuationToken previous = Some next ->
    List.length pages <= fuel ->
    list_keys_loop s3_client fuel bucket prefix previous keys log
    = Some (Ok (keys ++ List.concat pages)%list, log').
Proof.
  induction 1 as [log token next' page Hreply
                 | log log' token next' page pages Hreply Hrest IH];
    intros fuel previous keys next -> Htrunc Hnext Hfuel;
    (destruct fuel as [|fuel]; [cbn in Hfuel; lia|]);
    cbn [list_keys_loop]; rewrite Htrunc, Hnext;
    unfold bind at 1; cbn [getitem ret];
    unfold bind at 1; unfold s3_list_objects_v2 at 1; rewrite Hreply;
    unfold bind at 1; cbn [getitem ret Contents].
  - destruct fuel; cbn [list_keys_loop IsTruncated ret List.concat];
      now rewrite app_nil_r.
  - cbn [List.concat]. rewrite app_assoc.
    apply (IH fuel _ _ next'); auto. cbn in Hfuel. lia.
Qed.

(** X1.  When the service answers a listing with a sequence of pages,
    [list_keys] returns the keys of all pages in order, with one request
    per page, provided the step budget covers the pages after the
    first. *)
Theorem list_keys_concatenates_pages
        (fuel : nat) (bucket prefix : string) (log log' : list call)
        (pages : list (list string)) :
  serves s3_client bucket prefix log None pages log' ->
  List.length pages <= Datatypes.S fuel ->
  list_keys s3_client fuel bucket prefix log = Some (Ok (List.concat pages), log').
Proof.
  intros Hserves Hfuel. unfold list_keys.
  inversion Hserves as [log0 token next page Hreply
                       | log0 log0' token next page rest Hreply Hrest]; subst;
    unfold bind at 1; unfold s3_list_objects_v2 at 1; rewrite Hreply;
    unfold bind at 1; cbn [getitem ret Contents].
  - destruct fuel; cbn [list_keys_loop IsTruncated ret List.concat];
      now rewrite app_nil_r.
  - cbn [List.concat].
    apply (list_keys_loop_serves _ _ _ _ _ _ Hrest fuel _ page next); auto.
    cbn in Hfuel. lia.
Qed.

(** X2.  A listing answered without [Contents], as for a prefix with no
    object, makes [list_keys] raise [KeyError] after its one request, and
    [copy_s3_directory] raise it without a copy. *)
Theorem empty_listing_raises_key_error
        (fuel : nat) (source destination sb sp db dp : string)
        (log : list call) (truncated : bool) (next : option string) :
  reply_list_objects_v2 s3_client log sb sp None
  = Ok (ListObjectsOutput None truncated next) ->
  source <> destination ->
  parse_s3_uri source = Ok (sb, sp) ->
  parse_s3_uri destination = Ok (db, dp) ->
  list_keys s3_client fuel sb sp log
  = Some (Raise (KeyError "Contents"), (log ++ [ListObjectsV2 sb sp None])%list) /\
  copy_s3_directory s3_client fuel source destination log
  = Some (Raise (KeyError "Contents"), (log ++ [ListObjectsV2 sb sp None])%list).
Proof.
  intros Hreply Hneq Hsrc Hdst.
  assert (Hlist : list_keys s3_client fuel sb sp log
                  = Some (Raise (KeyError "Contents"),
                          (log ++ [ListObjectsV2 sb sp None])%list)).
  { unfold list_keys. unfold bind at 1. unfold s3_list_objects_v2 at 1.
    rewrite Hreply. reflexivity. }
  split; [exact Hlist|].
  unfold copy_s3_directory. apply String.eqb_neq in Hneq. rewrite Hneq.
  unfold bind at 1. unfold lift at 1. rewrite Hsrc.
  unfold bind at 1. unfold lift at 1. rewrite Hdst.
  unfold bind at 1. now rewrite Hlist.
Qed.

Lemma replace_leading_once (old new rest : string) :
  PyStr.replace (old ++ rest) old new (Some 1) = new ++ rest.
Proof.
  unfold PyStr.replace. destruct (String.eqb_spec old "") as [-> | Hold].
  - cbn [PyStr.interleave append]. now destruct rest.
  - cbn [PyStr.replace_loop].
    assert (Hfind : PyStr.find old (old ++ rest) = Some 0).
    { pose proof (prefix_append old rest) as Hp.
      destruct (old ++ rest); cbn [PyStr.find]; now rewrite Hp. }
    rewrite Hfind. cbn [Nat.add].
    replace (PyStr.take 0 (old ++ rest)) with "" by now destruct (old ++ rest).
    cbn [append]. now rewrite drop_append.
Qed.

(** X3.  When every listed key starts with the source prefix, as the keys
    of a listing by prefix do, and every copy is accepted,
    [copy_s3_directory] copies each key to the destination prefix followed
    by what came after the source prefix in the key. *)
Theorem copy_s3_directory_keeps_nesting
        (fuel : nat) (source destination sb sp db dp : string)
        (keys : list string) (log log1 : list call) :
  source <> destination ->
  parse_s3_uri source = Ok (sb, sp) ->
  parse_s3_uri destination = Ok (db, dp) ->
  list_keys s3_client fuel sb sp log = Some (Ok keys, log1) ->
  (forall key, In key keys -> exists rest, key = sp ++ rest) ->
  (forall l a b c d, reply_copy s3_client l a b c d = Ok tt) ->
  copy_s3_directory s3_client fuel source destination log
  = Some (Ok tt,
          (log1 ++ map (fun key =>
                          Copy sb key db (dp ++ PyStr.drop (String.length sp) key))
                     keys)%list).
Proof.
  intros Hneq Hsrc Hdst Hlist Hkeys Hok.
  unfold copy_s3_directory. apply String.eqb_neq in Hneq. rewrite Hneq.
  unfold bind at 1. unfold lift at 1. rewrite Hsrc.
  unfold bind at 1. unfold lift at 1. rewrite Hdst.
  unfold bind at 1. rewrite Hlist.
  destruct (for_each_copy s3_client sb sp db dp keys log1)
    as (n & r & Hn & Hrun & Hr & Hall).
  rewrite Hrun. rewrite (Hall Hok) in *.
  destruct Hr as [[_ ->] | (e & He & _)]; [|discriminate].
  rewrite firstn_all. do 3 f_equal.
  apply map_ext_in. intros key Hin. destruct (Hkeys key Hin) as [rest ->].
  now rewrite replace_leading_once, drop_append.
Qed.

(** X4.  The two URIs are compared as strings: for two spellings of one
    object that differ in the case of the scheme, [copy_s3_object] asks
    for a copy of the object onto itself. *)
Theorem copy_s3_object_compares_text (bucket key : string) (log : list call) :
  bucket_ok bucket -> line_key key ->
  parse_s3_uri ("s3://" ++ bucket ++ "/" ++ key) = Ok (bucket, key) /\
  parse_s3_uri ("S3://" ++ bucket ++ "/" ++ key) = Ok (bucket, key) /\
  copy_s3_object s3_client
    ("s3://" ++ bucket ++ "/" ++ key) ("S3://" ++ bucket ++ "/" ++ key) log
  = Some (reply_copy s3_client log bucket key bucket key,
          (log ++ [Copy bucket key bucket key])%list).
Proof.
  intros Hb Hk.
  assert (H1 : parse_s3_uri ("s3://" ++ bucket ++ "/" ++ key) = Ok (bucket, key)).
  { apply parse_s3_uri_ok_iff. split; [|split]; auto.
    exists "". rewrite append_nil_r. split; [now left|].
    right. exists "s3". split; [now left | reflexivity]. }
  assert (H2 : parse_s3_uri ("S3://" ++ bucket ++ "/" ++ key) = Ok (bucket, key)).
  { apply parse_s3_uri_ok_iff. split; [|split]; auto.
    exists "". rewrite append_nil_r. split; [now left|].
    right. exists "S3". split; [now right | reflexivity]. }
  split; [exact H1|]. split; [exact H2|].
  unfold copy_s3_object.
  replace ("s3://" ++ bucket ++ "/" ++ key =? "S3://" ++ bucket ++ "/" ++ key)%string
    with false by reflexivity.
  unfold bind at 1. unfold lift at 1. rewrite H1.
  unfold bind at 1. unfold lift at 1. rewrite H2.
  reflexivity.
Qed.

(** X5.  [is_s3_uri] tells whether a transfer reaches the service: when it
    answers [False] for the URI of an upload, or for either URI of a copy
    of two different strings, the call raises the error of [parse_s3_uri]
    for the first such URI and the log of requests stays as it was. *)
Theorem invalid_uri_makes_no_request
        (fuel : nat) (filename uri other : string) (log : list call) :
  is_s3_uri uri = Ok false ->
  upload_to_s3 s3_client filename uri log = Some (Raise (invalid_uri uri), log) /\
  (uri <> other ->
   copy_s3_object s3_client uri other log = Some (Raise (invalid_uri uri), log) /\
   copy_s3_directory s3_client fuel uri other log = Some (Raise (invalid_uri uri), log)) /\
  (other <> uri -> is_s3_uri other = Ok true ->
   copy_s3_object s3_client other uri log = Some (Raise (invalid_uri uri), log) /\
   copy_s3_directory s3_client fuel other uri log = Some (Raise (invalid_uri uri), log)).
Proof.
  intros Hbad.
  assert (Huri : parse_s3_uri uri = Raise (invalid_uri uri)).
  { unfold is_s3_uri in Hbad.
    destruct (parse_s3_uri_cases uri) as [(b & k & H) | H]; [|exact H].
    rewrite H in Hbad. discriminate. }
  split; [|split].
  - unfold upload_to_s3, bind, lift. now rewrite Huri.
  - intros Hneq. apply String.eqb_neq in Hneq.
    unfold copy_s3_object, copy_s3_directory. rewrite Hneq.
    unfold bind, lift. now rewrite Huri.
  - intros Hneq Hgood. apply String.eqb_neq in Hneq.
    unfold is_s3_uri in Hgood.
    destruct (parse_s3_uri_cases other) as [(b & k & H) | H];
      rewrite H in Hgood; [|discriminate].
    unfold copy_s3_object, copy_s3_directory. rewrite Hneq.
    unfold bind, lift. now rewrite H, Huri.
Qed.

Lemma for_each_step {A : Type} (x : A) (xs : list A) (body : A -> M unit)
      (log : list call) :
  for_each (x :: xs) body log
  = match body x log with
    | Some (Ok _, log') => for_each xs body log'
    | other => other
    end.
Proof.
  cbn [for_each]. unfold bind.
  now destruct (body x log) as [[[u|e] log']|].
Qed.

Lemma upload_matched_run (local_prefix s3_prefix : string) (file : PathLib.path * PathLib.node)
      (log : list call) :
  upload_matched s3_client local_prefix s3_prefix file log
  = if PathLib.is_file file then
      match parse_s3_uri (remote_uri local_prefix s3_prefix (fst file)) with
      | Ok (bucket, key) =>
          Some (reply_upload_file s3_client log (PathLib.str (fst file)) bucket key,
                (log ++ [UploadFile (PathLib.str (fst file)) bucket key])%list)
      | Raise e => Some (Raise e, log)
      end
    else Some (Ok tt, log).
Proof.
  unfold upload_matched. destruct (PathLib.is_file file); [|reflexivity].
  unfold upload_to_s3, bind, lift, s3_upload_file.
  now destruct (parse_s3_uri (remote_uri local_prefix s3_prefix (fst file)))
    as [[bucket key]|e].
Qed.

(** The loop over the paths found: it goes on as long as the uploads are
    accepted, and ends at the first regular file whose URI does not parse
    or whose upload is refused. *)
Lemma for_each_uploads (local_prefix s3_prefix : string)
      (files : list (PathLib.path * PathLib.node)) :
  forall log,
    (exists log',
        uploads s3_client local_prefix s3_prefix log files log' /\
        for_each files (upload_matched s3_client local_prefix s3_prefix) log
        = Some (Ok tt, log'))
    \/
    (exists before file after log1,
        files = (before ++ file :: after)%list /\
        uploads s3_client local_prefix s3_prefix log before log1 /\
        PathLib.is_file file = true /\
        ((parse_s3_uri (remote_uri local_prefix s3_prefix (fst file))
          = Raise (invalid_uri (remote_uri local_prefix s3_prefix (fst file))) /\
          for_each files (upload_matched s3_client local_prefix s3_prefix) log
          = Some (Raise (invalid_uri (remote_uri local_prefix s3_prefix (fst file))),
                  log1))
         \/
         (exists bucket key e,
             parse_s3_uri (remote_uri local_prefix s3_prefix (fst file))
             = Ok (bucket, key) /\
             reply_upload_file s3_client log1 (PathLib.str (fst file)) bucket key = Raise e /\
             for_each files (upload_matched s3_client local_prefix s3_prefix) log
             = Some (Raise e, (log1 ++ [UploadFile (PathLib.str (fst file)) bucket key])%list)))).
Proof.
  induction files as [|file files IH]; intros log.
  - left. exists log. split; [constructor | reflexivity].
  - rewrite for_each_step, upload_matched_run.
    destruct (PathLib.is_file file) eqn:Hfile.
    + destruct (parse_s3_uri_cases (remote_uri local_prefix s3_prefix (fst file)))
        as [(bucket & key & Hparse) | Hparse]; rewrite Hparse.
      * destruct (reply_upload_file s3_client log (PathLib.str (fst file)) bucket key)
          as [[]|e] eqn:Hreply.
        -- destruct (IH (log ++ [UploadFile (PathLib.str (fst file)) bucket key])%list)
             as [(log' & Hup & Hrun)
                | (before & f & after & log1 & Hfiles & Hup & Hf & Hend)].
           ++ left. exists log'. split; [|exact Hrun].
              eapply uploads_next; eauto.
           ++ right. exists (file :: before), f, after, log1.
              split; [now rewrite Hfiles|].
              split; [eapply uploads_next; eauto|]. split; [exact Hf | exact Hend].
        -- right. exists [], file, files, log. split; [reflexivity|].
           split; [constructor|]. split; [exact Hfile|]. right.
           exists bucket, key, e. auto.
      * right. exists [], file, files, log. split; [reflexivity|].
        split; [constructor|]. split; [exact Hfile|]. left. auto.
    + destruct (IH log)
        as [(log' & Hup & Hrun) | (before & f & after & log1 & Hfiles & Hup & Hf & Hend)].
      * left. exists log'. split; [|exact Hrun]. now apply uploads_skip.
      * right. exists (file :: before), f, after, log1. split; [now rewrite Hfiles|].
        split; [now apply uploads_skip|]. split; [exact Hf | exact Hend].
Qed.

(** X6.  For a prefix without pattern characters, [upload_local_data]
    goes through the paths its two patterns find, in this order, and
    uploads each regular file to the bucket and the key of the URI
    computed for it.  It returns when every upload was accepted, and
    otherwise stops at the first regular file whose URI does not parse,
    raising the [ValueError] of that URI before any request for the file,
    or whose upload is refused, raising the error of the service after
    this request: nothing is asked for the files that follow. *)
Theorem upload_local_data_requests
        (fs : PathLib.filesystem) (local_prefix s3_prefix : string) (log : list call) :
  literal local_prefix ->
  exists files,
    matching fs local_prefix = Some files /\
    ((exists log',
         uploads s3_client local_prefix s3_prefix log files log' /\
         upload_local_data s3_client fs local_prefix s3_prefix log = Some (Ok tt, log'))
     \/
     (exists before file after log1,
         files = (before ++ file :: after)%list /\
         uploads s3_client local_prefix s3_prefix log before log1 /\
         PathLib.is_file file = true /\
         ((parse_s3_uri (remote_uri local_prefix s3_prefix (fst file))
           = Raise (invalid_uri (remote_uri local_prefix s3_prefix (fst file))) /\
           upload_local_data s3_client fs local_prefix s3_prefix log
           = Some (Raise (invalid_uri (remote_uri local_prefix s3_prefix (fst file))),
                   log1))
          \/
          (exists bucket key e,
              parse_s3_uri (remote_uri local_prefix s3_prefix (fst file))
              = Ok (bucket, key) /\
              reply_upload_file s3_client log1 (PathLib.str (fst file)) bucket key = Raise e /\
              upload_local_data s3_client fs local_prefix s3_prefix log
              = Some (Raise e,
                      (log1 ++ [UploadFile (PathLib.str (fst file)) bucket key])%list))))).
Proof.
  intros Hlit.
  destruct (literal_selection fs local_prefix Hlit)
    as (direct & nested & Hmatch & Hrun & _).
  exists (direct ++ nested)%list. split; [exact Hmatch|].
  rewrite Hrun. apply for_each_uploads.
Qed.

Lemma component_is_relative (d rest : string) :
  component d -> PathLib.parse_anchor (d ++ rest) = "".
Proof.
  intros (Hne & _ & Hsl). destruct d as [|c d]; [congruence|].
  cbn [PyStr.contains] in Hsl. apply orb_false_iff in Hsl as [Hc _].
  apply Ascii.eqb_neq in Hc. cbn [append]. unfold PathLib.parse_anchor.
  destruct c as [[] [] [] [] [] [] [] []]; try reflexivity. congruence.
Qed.

Lemma keep_component (d : string) : component d -> PathLib.keep_part d = true.
Proof.
  intros (Hne & Hdot & _). unfold PathLib.keep_part.
  apply String.eqb_neq in Hne, Hdot. now rewrite Hne, Hdot.
Qed.

(** [Path] drops the closing slash of a single component. *)
Lemma as_posix_drops_closing_slash (d : string) :
  component d ->
  PathLib.as_posix (PathLib.Path (d ++ "/")) = d /\
  PathLib.as_posix (PathLib.Path d) = d.
Proof.
  intros Hd. pose proof Hd as (Hne & Hdot & Hsl).
  unfold PathLib.as_posix, PathLib.str, PathLib.Path. cbn [PathLib.anchor PathLib.parts].
  rewrite (component_is_relative d "/" Hd).
  pose proof (component_is_relative d "" Hd) as Hrel. rewrite append_nil_r in Hrel.
  rewrite Hrel.
  change (d ++ "/") with (d ++ "/" ++ "").
  rewrite (split_slash_head d "" Hsl), (split_slash_plain d Hsl).
  cbn [PathLib.split_slash filter]. rewrite (keep_component d Hd).
  cbn. split; reflexivity.
Qed.

Lemma replace_loop_absent (n : nat) (old new s : string) :
  PyStr.find old s = None -> PyStr.replace_loop n old new s = s.
Proof. intros H. destruct n; cbn [PyStr.replace_loop]; [reflexivity | now rewrite H]. Qed.

Lemma find_after_slash (d t : string) :
  component d -> PyStr.find d t = None -> PyStr.find d (String "/" t) = None.
Proof.
  intros (Hne & _ & Hsl) Hfind. destruct d as [|c d]; [congruence|].
  cbn [PyStr.contains] in Hsl. apply orb_false_iff in Hsl as [Hc _].
  apply Ascii.eqb_neq in Hc. cbn [PyStr.find prefix].
  destruct (ascii_dec c "/") as [Heq|_]; [congruence|].
  now rewrite Hfind.
Qed.

(** X7.  The text [upload_local_data] replaces is the local prefix as
    [Path] normalises it, so a closing slash of the prefix is not part of
    it: for a file below the directory [d] whose path after [d/] does not
    contain [d], the URI is the S3 prefix, a slash and that path, with the
    prefix [d/] as with [d]; an S3 prefix that ends in a slash gives a
    double slash. *)
Theorem remote_uri_ignores_closing_slash
        (d s3_prefix : string) (below : list string) :
  component d ->
  below <> [] ->
  PyStr.find d (PyStr.join "/" below) = None ->
  remote_uri (d ++ "/") s3_prefix (PathLib.Path_ "" (d :: below))
  = s3_prefix ++ "/" ++ PyStr.join "/" below /\
  remote_uri d s3_prefix (PathLib.Path_ "" (d :: below))
  = s3_prefix ++ "/" ++ PyStr.join "/" below /\
  remote_uri (d ++ "/") (s3_prefix ++ "/") (PathLib.Path_ "" (d :: below))
  = s3_prefix ++ "//" ++ PyStr.join "/" below.
Proof.
  intros Hd Hbelow Hfind.
  destruct (as_posix_drops_closing_slash d Hd) as [Hslash Hplain].
  assert (Hpath : PathLib.as_posix (PathLib.Path_ "" (d :: below))
                  = d ++ "/" ++ PyStr.join "/" below).
  { unfold PathLib.as_posix, PathLib.str, PyStr.join.
    cbn [PathLib.anchor PathLib.parts concat append].
    destruct below; [congruence | reflexivity]. }
  assert (Hrep : forall new,
    PyStr.replace (d ++ "/" ++ PyStr.join "/" below) d new None
    = new ++ "/" ++ PyStr.join "/" below).
  { intros new. unfold PyStr.replace.
    destruct Hd as (Hne & Hdot & Hsl).
    destruct (String.eqb_spec d "") as [|_]; [congruence|].
    cbn [PyStr.replace_loop].
    assert (H0 : PyStr.find d (d ++ "/" ++ PyStr.join "/" below) = Some 0).
    { pose proof (prefix_append d ("/" ++ PyStr.join "/" below)) as Hp.
      destruct (d ++ "/" ++ PyStr.join "/" below); cbn [PyStr.find]; now rewrite Hp. }
    rewrite H0. cbn [Nat.add].
    replace (PyStr.take 0 (d ++ "/" ++ PyStr.join "/" below)) with ""
      by now destruct (d ++ "/" ++ PyStr.join "/" below).
    rewrite drop_append. cbn [append].
    rewrite replace_loop_absent; [reflexivity|].
    apply find_after_slash; [repeat split; assumption | exact Hfind]. }
  unfold remote_uri. rewrite Hslash, Hplain, Hpath, !Hrep.
  split; [reflexivity|]. split; [reflexivity|].
  now rewrite append_assoc.
Qed.

End TransferFacts.

(** Two pages of keys are returned as one list. *)
Lemma list_keys_concatenates_pages_witness :
  AwsSession.list_keys TransferSpec.two_page_client 1 "b" "a" []
  = Some (Ok (List.concat [["a/1"; "a/2"]; ["a/3"]]),
          [AwsSession.ListObjectsV2 "b" "a" None;
           AwsSession.ListObjectsV2 "b" "a" (Some "t1")]).
Proof.
  apply (list_keys_concatenates_pages TransferSpec.two_page_client 1 "b" "a" []).
  - apply TransferSpec.serves_more with (next := "t1"); [reflexivity|].
    apply TransferSpec.serves_last with (next := None). reflexivity.
  - cbn. lia.
Defined.

(** A source without objects: the copy raises and copies nothing. *)
Lemma empty_listing_raises_key_error_witness :
  AwsSession.list_keys TransferSpec.empty_listing_client 0 "src" "a" []
  = Some (Raise (KeyError "Contents"), [AwsSession.ListObjectsV2 "src" "a" None]) /\
  AwsSession.copy_s3_directory TransferSpec.empty_listing_client 0
    "s3://src/a" "s3://dst/b" []
  = Some (Raise (KeyError "Contents"), [AwsSession.ListObjectsV2 "src" "a" None]).
Proof.
  apply (empty_listing_raises_key_error TransferSpec.empty_listing_client 0
           "s3://src/a" "s3://dst/b" "src" "a" "dst" "b" [] false None);
    solve [discriminate | reflexivity].
Defined.

(** Two keys below [a] move below [b/]. *)
Lemma copy_s3_directory_keeps_nesting_witness :
  AwsSession.copy_s3_directory (Fixtures.accepting_client ["a/x"; "a/a/y"]) 0
    "s3://src/a" "s3://dst/b/" []
  = Some (Ok tt,
          [AwsSession.ListObjectsV2 "src" "a" None;
           AwsSession.Copy "src" "a/x" "dst" "b//x";
           AwsSession.Copy "src" "a/a/y" "dst" "b//a/y"]).
Proof.
  apply (copy_s3_directory_keeps_nesting (Fixtures.accepting_client ["a/x"; "a/a/y"]) 0
           "s3://src/a" "s3://dst/b/" "src" "a" "dst" "b/" ["a/x"; "a/a/y"]
           [] [AwsSession.ListObjectsV2 "src" "a" None]);
    try solve [discriminate | reflexivity].
  intros key [<- | [<- | []]]; [now exists "/x" | now exists "/a/y"].
Defined.

(** The object [my/key] of [my-bucket], under both spellings of the scheme. *)
Lemma copy_s3_object_compares_text_witness :
  AwsSession.copy_s3_object (Fixtures.accepting_client []) 
    "s3://my-bucket/my/key" "S3://my-bucket/my/key" []
  = Some (Ok tt, [AwsSession.Copy "my-bucket" "my/key" "my-bucket" "my/key"]).
Proof.
  refine (proj2 (proj2 (copy_s3_object_compares_text (Fixtures.accepting_client [])
                          "my-bucket" "my/key" [] _ _)));
    repeat split; solve [discriminate | reflexivity].
Defined.

(** An upload to a dotted bucket is refused before any request. *)
Lemma invalid_uri_makes_no_request_witness :
  AwsSession.upload_to_s3 (Fixtures.accepting_client []) "data.csv"
    "s3://my.bucket/data.csv" []
  = Some (Raise (Spec.invalid_uri "s3://my.bucket/data.csv"), []).
Proof.
  apply (proj1 (invalid_uri_makes_no_request (Fixtures.accepting_client []) 0
                  "data.csv" "s3://my.bucket/data.csv" "" [] eq_refl)).
Defined.

(** The recommendation of the docstring: [input/] to [s3://my-bucket/input/]. *)
Lemma remote_uri_ignores_closing_slash_witness :
  AwsSession.remote_uri "input/" "s3://my-bucket/input/"
    (PathLib.Path_ "" ["input"; "data.txt"])
  = "s3://my-bucket/input" ++ "//" ++ PyStr.join "/" ["data.txt"].
Proof.
  refine (proj2 (proj2 (remote_uri_ignores_closing_slash "input" "s3://my-bucket/input"
                          ["data.txt"] _ _ _)));
    repeat split; solve [discriminate | reflexivity].
Defined.

(** The docstring files under the prefix [input], every upload accepted. *)
Lemma upload_local_data_requests_witness :
  Spec.literal "input" /\
  exists files,
    Spec.matching Fixtures.docstring_fs "input" = Some files /\
    exists log',
      TransferSpec.uploads (Fixtures.accepting_client []) "input" "s3://bucket/dir/input"
        [] files log' /\
      AwsSession.upload_local_data (Fixtures.accepting_client []) Fixtures.docstring_fs
        "input" "s3://bucket/dir/input" []
      = Some (Ok tt, log').
Proof.
  assert (Hlit : Spec.literal "input") by (repeat split).
  assert (Hrun0 :
    AwsSession.upload_local_data (Fixtures.accepting_client []) Fixtures.docstring_fs
      "input" "s3://bucket/dir/input" []
    = Some (Ok tt,
            [AwsSession.UploadFile "input.csv" "bucket" "dir/input.csv";
             AwsSession.UploadFile "input-2.csv" "bucket" "dir/input-2.csv";
             AwsSession.UploadFile "input/data.txt" "bucket" "dir/input/data.txt";
             AwsSession.UploadFile "input-dir/data.csv" "bucket" "dir/input-dir/data.csv"]))
    by reflexivity.
  split; [exact Hlit|].
  destruct (upload_local_data_requests (Fixtures.accepting_client [])
              Fixtures.docstring_fs "input" "s3://bucket/dir/input" [] Hlit)
    as (files & Hm
        & [Hok | (before & file & after & log1 & _ & _ & _
                  & [[_ Hrun] | (b & k & e & _ & _ & Hrun)])]).
  - exists files. split; [exact Hm | exact Hok].
  - rewrite Hrun0 in Hrun. discriminate Hrun.
  - rewrite Hrun0 in Hrun. discriminate Hrun.
Defined.

(** ** Buckets *)

Section BucketFacts.

Import Services ServicesSpec.

Variable cloud : Cloud.

Lemma bucket_requests_eq (bucket region : string) (st : session) :
  create_bucket_requests cloud bucket region st =
  match bucket_answer cloud st bucket region 0 with
  | Throw e =>
      (Throw e, with_trace st (trace st ++ firstn 1 (bucket_plan bucket region)))
  | Return _ =>
      match bucket_answer cloud st bucket region 1 with
      | Throw e =>
          (Throw e, with_trace st (trace st ++ firstn 2 (bucket_plan bucket region)))
      | Return _ =>
          (bucket_answer cloud st bucket region 2,
           with_trace st (trace st ++ bucket_plan bucket region))
      end
  end.
Proof.
  unfold create_bucket_requests, bucket_answer, bucket_plan, bind, ask, with_trace.
  cbn [firstn trace Services.region _default_bucket _account_id _braket_user_agents].
  destruct (region =? "us-east-1")%string;
    cbn [trace Services.region _default_bucket _account_id _braket_user_agents];
    rewrite <- !app_assoc; cbn [app];
    repeat match goal with
           | |- context [match ?x with Return _ => _ | Throw _ => _ end] =>
               destruct x
           end; reflexivity.
Qed.

Lemma bucket_requests_run (bucket region : string) (st : session) :
  (exists i e,
      i < 3 /\
      (forall j, j < i -> bucket_answer cloud st bucket region j = Return tt) /\
      bucket_answer cloud st bucket region i = Throw e /\
      create_bucket_requests cloud bucket region st
      = (Throw e,
         with_trace st (trace st ++ firstn (Datatypes.S i) (bucket_plan bucket region))))
  \/
  ((forall j, j < 3 -> bucket_answer cloud st bucket region j = Return tt) /\
   create_bucket_requests cloud bucket region st
   = (Return tt, with_trace st (trace st ++ bucket_plan bucket region))).
Proof.
  rewrite bucket_requests_eq.
  destruct (bucket_answer cloud st bucket region 0) as [[]|e0] eqn:H0;
    [destruct (bucket_answer cloud st bucket region 1) as [[]|e1] eqn:H1;
     [destruct (bucket_answer cloud st bucket region 2) as [[]|e2] eqn:H2|]|].
  - right. split; [|reflexivity]. intros [|[|[|j]]] Hj; auto; lia.
  - left. exists 2, e2. split; [lia|]. split; [|split; [exact H2 | reflexivity]].
    intros [|[|j]] Hj; auto; lia.
  - left. exists 1, e1. split; [lia|]. split; [|split; [exact H1 | reflexivity]].
    intros [|j] Hj; auto; lia.
  - left. exists 0, e0. split; [lia|]. split; [|split; [exact H0 | reflexivity]].
    intros j Hj. lia.
Qed.

Lemma bucket_requests_keep_session (bucket region : string) (st : session) :
  exists n,
    1 <= n <= 3 /\
    snd (create_bucket_requests cloud bucket region st)
    = with_trace st (trace st ++ firstn n (bucket_plan bucket region)).
Proof.
  destruct (bucket_requests_run bucket region st)
    as [(i & e & Hi & _ & _ & Hrun) | [_ Hrun]]; rewrite Hrun.
  - exists (Datatypes.S i). split; [lia | reflexivity].
  - exists 3. split; [lia | reflexivity].
Qed.

Lemma create_bucket_keeps_session (bucket region : string) (st : session) :
  exists n,
    1 <= n <= 3 /\
    snd (_create_s3_bucket_if_it_does_not_exist cloud bucket region st)
    = with_trace st (trace st ++ firstn n (bucket_plan bucket region)).
Proof.
  destruct (bucket_requests_keep_session bucket region st) as (n & Hn & Hsnd).
  exists n. split; [exact Hn|]. rewrite <- Hsnd.
  unfold _create_s3_bucket_if_it_does_not_exist.
  destruct (create_bucket_requests cloud bucket region st) as [[[]|e] st'];
    [reflexivity|].
  destruct e as [b | code message | m |]; try reflexivity.
  destruct ((code =? "BucketAlreadyOwnedByYou")%string
            || negb (code =? "BucketAlreadyExists")%string
               && (code =? "OperationAborted")%string
               && str_in "conflicting conditional operation" message);
    [reflexivity|].
  now destruct (code =? "BucketAlreadyExists")%string.
Qed.

(** X8.  [_create_s3_bucket_if_it_does_not_exist] creates the bucket,
    blocks public access and sets the policy, in this order, and stops at
    the first request that fails.  A failure that tells the bucket is
    already owned, or is being created, is swallowed: the call returns and
    the requests after the failed one are not made.  A bucket that exists
    for another account gives a [ValueError]; every other error is raised
    as it is.  The region, the default bucket, the account id and the user
    agent of the session stay as they were. *)
Theorem create_bucket_outcomes (bucket region : string) (st : session) :
  ((forall j, j < 3 -> bucket_answer cloud st bucket region j = Return tt) ->
   _create_s3_bucket_if_it_does_not_exist cloud bucket region st
   = (Return tt, with_trace st (trace st ++ bucket_plan bucket region))) /\
  (forall i e,
      i < 3 ->
      (forall j, j < i -> bucket_answer cloud st bucket region j = Return tt) ->
      bucket_answer cloud st bucket region i = Throw e ->
      let st' :=
        with_trace st (trace st ++ firstn (Datatypes.S i) (bucket_plan bucket region)) in
      (already_there e ->
       _create_s3_bucket_if_it_does_not_exist cloud bucket region st = (Return tt, st')) /\
      (taken e ->
       _create_s3_bucket_if_it_does_not_exist cloud bucket region st
       = (Throw (bucket_taken_error bucket), st')) /\
      (~ already_there e -> ~ taken e ->
       _create_s3_bucket_if_it_does_not_exist cloud bucket region st = (Throw e, st'))).
Proof.
  split.
  - intros Hall. unfold _create_s3_bucket_if_it_does_not_exist.
    destruct (bucket_requests_run bucket region st)
      as [(i & e & Hi & _ & He & _) | [_ Hrun]].
    + rewrite (Hall i Hi) in He. discriminate.
    + now rewrite Hrun.
  - intros i e Hi Hbefore He st'.
    assert (Hrun : create_bucket_requests cloud bucket region st = (Throw e, st')).
    { destruct (bucket_requests_run bucket region st)
        as [(i' & e' & Hi' & Hbefore' & He' & Hrun) | [Hall _]].
      - destruct (Nat.lt_trichotomy i i') as [Hlt | [-> | Hgt]].
        + rewrite (Hbefore' i Hlt) in He. discriminate.
        + rewrite He in He'. injection He' as <-. exact Hrun.
        + rewrite (Hbefore i' Hgt) in He'. discriminate.
      - rewrite (Hall i Hi) in He. discriminate. }
    unfold _create_s3_bucket_if_it_does_not_exist. rewrite Hrun.
    split; [|split].
    + intros (code & message & -> & [-> | [-> Hmsg]]); [reflexivity|].
      now rewrite Hmsg.
    + intros (message & ->). reflexivity.
    + intros Hthere Htaken.
      destruct e as [b | code message | m |]; try reflexivity.
      destruct (String.eqb_spec code "BucketAlreadyOwnedByYou") as [-> | Hown].
      { exfalso. apply Hthere. exists "BucketAlreadyOwnedByYou", message. auto. }
      destruct (String.eqb_spec code "BucketAlreadyExists") as [-> | Hex].
      { exfalso. apply Htaken. now exists message. }
      destruct (String.eqb_spec code "OperationAborted") as [-> | Hab];
        [|reflexivity].
      destruct (str_in "conflicting conditional operation" message) eqn:Hmsg;
        [|reflexivity].
      exfalso. apply Hthere. exists "OperationAborted", message. auto.
Qed.

End BucketFacts.

(** A bucket this account owns already: one request, and a normal return. *)
Lemma create_bucket_outcomes_witness :
  Services._create_s3_bucket_if_it_does_not_exist
    (ServicesSpec.failing_cloud "BucketAlreadyOwnedByYou" "") "b" "us-east-1"
    ServicesSpec.fresh_session
  = (Services.Return tt,
     Services.with_trace ServicesSpec.fresh_session [Services.S3CreateBucket "b" None]).
Proof.
  refine (proj1 (proj2 (create_bucket_outcomes
                          (ServicesSpec.failing_cloud "BucketAlreadyOwnedByYou" "")
                          "b" "us-east-1" ServicesSpec.fresh_session)
                   0 (Services.BotoClientError "BucketAlreadyOwnedByYou" "") _ _ _) _).
  - lia.
  - intros j Hj. lia.
  - reflexivity.
  - exists "BucketAlreadyOwnedByYou", "". split; [reflexivity | now left].
Defined.

(** ** The default bucket *)

Section DefaultBucketFacts.

Import Services ServicesSpec.

Variable cloud : Cloud.

Lemma truthy_some (o : option string) :
  truthy o = true -> exists s, o = Some s /\ s <> "".
Proof.
  destruct o as [s|]; [|discriminate]. cbn. intros H.
  exists s. split; [reflexivity|]. apply negb_true_iff in H. now apply String.eqb_neq.
Qed.

Lemma account_id_run (st : session) (account : string) (st' : session) :
  account_id cloud st = (Return account, st') ->
  (truthy (_account_id st) = true /\ _account_id st = Some account /\ st' = st) \/
  (truthy (_account_id st) = false /\
   sts_get_caller_identity cloud (trace st) = Return (Some account) /\
   st' = with_account_id (with_trace st (trace st ++ [StsGetCallerIdentity]))
           (Some account)).
Proof.
  unfold account_id. unfold bind at 1. cbn [get].
  destruct (truthy (_account_id st)) eqn:Hcached; cbn [negb].
  - destruct (truthy_some _ Hcached) as (a & Ha & _). rewrite Ha. cbn.
    intros [= <- <-]. left. auto.
  - unfold bind, ask, getitem, put, ret, throw.
    destruct (sts_get_caller_identity cloud (trace st)) as [[a|]|e];
      intros [= <- <-] || intros [=]. right. auto.
Qed.

(** X9.  [default_bucket] returns a bucket that was given or found before
    without asking anything.  Otherwise the name is [amazon-braket-], the
    region, a dash and the account id, in this order; the account is asked
    of STS only when the session has none, then the bucket is set up, and
    the name is kept: a second call returns it and asks nothing. *)
Theorem default_bucket_is_kept (st st' : session) (name : string) :
  default_bucket cloud st = (Return name, st') ->
  default_bucket cloud st' = (Return name, st') /\
  (truthy (_default_bucket st) = true -> st' = st /\ _default_bucket st = Some name) /\
  (truthy (_default_bucket st) = false ->
   exists account asked n,
     name = "amazon-braket-" ++ region st ++ "-" ++ account /\
     _default_bucket st' = Some name /\
     _account_id st' = Some account /\
     (truthy (_account_id st) = true -> _account_id st = Some account /\ asked = []) /\
     (truthy (_account_id st) = false -> asked = [StsGetCallerIdentity]) /\
     1 <= n <= 3 /\
     trace st' = (trace st ++ asked ++ firstn n (bucket_plan name (region st)))%list).
Proof.
  unfold default_bucket at 1. unfold bind at 1. cbn [get].
  destruct (truthy (_default_bucket st)) eqn:Hcached.
  - destruct (truthy_some _ Hcached) as (b & Hb & _). rewrite Hb. cbn.
    intros [= <- <-]. split; [|split; [auto | discriminate]].
    unfold default_bucket, bind. cbn [get]. rewrite Hcached, Hb. reflexivity.
  - unfold bind at 1.
    destruct (account_id cloud st) as [[account|e] st1] eqn:Hacc; [|discriminate].
    unfold bind at 1.
    pose proof (create_bucket_keeps_session cloud
                  ("amazon-braket-" ++ region st ++ "-" ++ account) (region st) st1)
      as (n & Hn & Hsnd).
    destruct (_create_s3_bucket_if_it_does_not_exist cloud
                ("amazon-braket-" ++ region st ++ "-" ++ account) (region st) st1)
      as [[[]|e] st2]; [|discriminate].
    cbn [snd] in Hsnd. subst st2. cbn [bind put ret].
    unfold bind, put, ret. intros [= <- <-].
    split; [reflexivity|]. split; [discriminate|]. intros _.
    apply account_id_run in Hacc
      as [(Hc & Hsome & ->) | (Hc & Hreply & ->)].
    + exists account, [], n.
      split; [reflexivity|]. split; [reflexivity|]. split; [exact Hsome|].
      split; [auto|]. split; [intros H; congruence|]. split; [exact Hn | reflexivity].
    + exists account, [StsGetCallerIdentity], n.
      split; [reflexivity|]. split; [reflexivity|]. split; [reflexivity|].
      split; [intros H; congruence|]. split; [reflexivity|]. split; [exact Hn|].
      cbn [trace with_trace with_account_id with_default_bucket].
      now rewrite <- app_assoc.
Qed.

End DefaultBucketFacts.

(** A session without a bucket: STS, then the three bucket requests. *)
Lemma default_bucket_is_kept_witness :
  Services.default_bucket ServicesSpec.accepting_cloud
    (snd (Services.default_bucket ServicesSpec.accepting_cloud ServicesSpec.fresh_session))
  = (Services.Return "amazon-braket-us-west-2-123456789012",
     snd (Services.default_bucket ServicesSpec.accepting_cloud ServicesSpec.fresh_session)).
Proof.
  apply (default_bucket_is_kept ServicesSpec.accepting_cloud ServicesSpec.fresh_session).
  reflexivity.
Defined.

(** ** Roles and devices *)

Section SearchFacts.

Import Services ServicesSpec.

Variable cloud : Cloud.

Lemma find_over_app {A : Type} (f : A -> bool) (l1 l2 : list A) :
  find f (l1 ++ l2) = match find f l1 with
                      | Some x => Some x
                      | None => find f l2
                      end.
Proof.
  induction l1 as [|x l1 IH]; cbn [app find]; [reflexivity|].
  now destruct (f x).
Qed.

Lemma for_return_roles (roles : list role) (st : session) :
  for_return roles
    (fun role =>
       if startswith (RoleName role) "AmazonBraketJobsExecutionRole"
       then ret (Some (Arn role))
       else ret None) st
  = (Return (option_map Arn (find is_default_role roles)), st).
Proof.
  induction roles as [|r roles IH]; cbn [for_return find]; [reflexivity|].
  unfold bind at 1. unfold startswith, is_default_role in *.
  destruct (prefix "AmazonBraketJobsExecutionRole" (RoleName r)); cbn [ret];
    [reflexivity | exact IH].
Qed.

Lemma for_pages_roles (read : list roles_page) (unread : list (outcome roles_page))
      (st : session) :
  for_pages (map Return read ++ unread)
    (fun page =>
       for_return (match Roles page with Some rs => rs | None => [] end)
         (fun role =>
            if startswith (RoleName role) "AmazonBraketJobsExecutionRole"
            then ret (Some (Arn role))
            else ret None)) st
  = match find is_default_role (flat_map roles_of read) with
    | Some r => (Return (Some (Arn r)), st)
    | None =>
        for_pages unread
          (fun page =>
             for_return (match Roles page with Some rs => rs | None => [] end)
               (fun role =>
                  if startswith (RoleName role) "AmazonBraketJobsExecutionRole"
                  then ret (Some (Arn role))
                  else ret None)) st
    end.
Proof.
  induction read as [|page read IH]; cbn [map app for_pages flat_map find];
    [reflexivity|].
  unfold bind at 1. fold (roles_of page). rewrite for_return_roles, find_over_app.
  destruct (find is_default_role (roles_of page)) as [r|]; cbn [option_map];
    [reflexivity | exact IH].
Qed.

(** X10.  [get_default_jobs_role] returns the ARN of the first role, in
    the order of the pages, whose name starts with
    [AmazonBraketJobsExecutionRole], and does not look at the pages after
    it; when the pages are read to the end without such a role it raises
    the [RuntimeError], and a page that fails before any such role raises
    its own error. *)
Theorem get_default_jobs_role_first_match
        (st : session) (read : list roles_page) (unread : list (outcome roles_page)) :
  iam_list_roles cloud (trace st) "/service-role/" = (map Return read ++ unread)%list ->
  (forall r,
      find is_default_role (flat_map roles_of read) = Some r ->
      get_default_jobs_role cloud st
      = (Return (Arn r), with_trace st (trace st ++ [IamListRoles "/service-role/"]))) /\
  (find is_default_role (flat_map roles_of read) = None ->
   unread = [] ->
   get_default_jobs_role cloud st
   = (Throw (RuntimeError NO_DEFAULT_ROLE),
      with_trace st (trace st ++ [IamListRoles "/service-role/"]))) /\
  (find is_default_role (flat_map roles_of read) = None ->
   forall e rest,
     unread = Throw e :: rest ->
     get_default_jobs_role cloud st
     = (Throw e, with_trace st (trace st ++ [IamListRoles "/service-role/"]))).
Proof.
  intros Hpages.
  assert (Hrun : forall answer,
    match find is_default_role (flat_map roles_of read) with
    | Some r => (Return (Some (Arn r)),
                 with_trace st (trace st ++ [IamListRoles "/service-role/"]))
    | None =>
        for_pages unread
          (fun page =>
             for_return (match Roles page with Some rs => rs | None => [] end)
               (fun role =>
                  if startswith (RoleName role) "AmazonBraketJobsExecutionRole"
                  then ret (Some (Arn role))
                  else ret None))
          (with_trace st (trace st ++ [IamListRoles "/service-role/"]))
    end = answer ->
    get_default_jobs_role cloud st
    = match answer with
      | (Return (Some arn), st') => (Return arn, st')
      | (Return None, st') => (Throw (RuntimeError NO_DEFAULT_ROLE), st')
      | (Throw e, st') => (Throw e, st')
      end).
  { intros answer <-. unfold get_default_jobs_role.
    unfold bind at 1. unfold ask at 1. rewrite Hpages. cbv beta iota.
    unfold bind at 1. rewrite (for_pages_roles read unread).
    destruct (find is_default_role (flat_map roles_of read)); [reflexivity|].
    now destruct (for_pages unread _ _) as [[[arn|]|e] st']. }
  split; [|split].
  - intros r Hr. rewrite Hr in Hrun. now rewrite (Hrun _ eq_refl).
  - intros Hnone ->. rewrite Hnone in Hrun. now rewrite (Hrun _ eq_refl).
  - intros Hnone e rest ->. rewrite Hnone in Hrun. now rewrite (Hrun _ eq_refl).
Qed.

Lemma list_in_iff (x : string) (xs : list string) : list_in x xs = true <-> In x xs.
Proof.
  unfold list_in. rewrite existsb_exists. split.
  - intros (y & Hy & Heq). apply String.eqb_eq in Heq. now subst.
  - intros H. exists x. split; [exact H | apply String.eqb_refl].
Qed.

Lemma passes_bool (filter : option (list string)) (value : string) :
  truthy_list filter
  && negb (list_in value (match filter with Some l => l | None => [] end)) = false
  <-> passes filter value.
Proof.
  destruct filter as [[|x l]|]; cbn [truthy_list passes andb]; try tauto.
  rewrite negb_false_iff. apply list_in_iff.
Qed.

Lemma retired_bool (statuses : option (list string)) (value : string) :
  negb (is_some statuses) && (value =? "RETIRED")%string = false
  <-> (statuses = None -> value <> "RETIRED").
Proof.
  destruct statuses as [l|]; cbn [is_some negb andb].
  - split; [discriminate | reflexivity].
  - rewrite String.eqb_neq. tauto.
Qed.

Lemma skipped_iff (names types statuses provider_names : option (list string))
      (d : device) :
  skipped names types statuses provider_names d = false
  <-> wanted names types statuses provider_names d.
Proof.
  unfold skipped, wanted.
  rewrite <- (passes_bool names), <- (passes_bool types), <- (passes_bool statuses),
    <- (passes_bool provider_names), <- (retired_bool statuses).
  repeat match goal with
         | |- context [if ?b then true else _] => destruct b
         end; intuition congruence.
Qed.

Lemma inner_loop_filters (names types statuses provider_names : option (list string))
      (page results : list device) :
  fold_left
    (fun results result =>
       if skipped names types statuses provider_names result then results
       else (results ++ [result])%list)
    page results
  = (results
       ++ filter (fun d => negb (skipped names types statuses provider_names d)) page)%list.
Proof.
  revert results. induction page as [|d page IH]; intros results;
    cbn [fold_left filter]; [now rewrite app_nil_r|].
  rewrite IH. destruct (skipped names types statuses provider_names d); cbn [negb];
    [reflexivity | now rewrite <- app_assoc].
Qed.

Lemma search_pages_filters (names types statuses provider_names : option (list string))
      (lists : list (list device)) :
  forall results st,
    search_pages names types statuses provider_names
      (map (fun ds => Return (DevicesPage (Some ds))) lists) results st
    = (Return (results
                 ++ filter (fun d => negb (skipped names types statuses provider_names d))
                      (List.concat lists))%list, st).
Proof.
  induction lists as [|ds lists IH]; intros results st;
    cbn [map search_pages List.concat filter].
  - now rewrite app_nil_r.
  - unfold bind at 1. cbn [getitem devices ret].
    rewrite IH, inner_loop_filters, filter_app, app_assoc. reflexivity.
Qed.

(** X11.  [search_devices] asks the service with the ARN filter alone,
    and only when ARNs are given; of the devices of the pages it keeps, in
    their order, those that pass every filter given and not empty, and
    drops the RETIRED ones when [statuses] is [None]. *)
Theorem search_devices_filters
        (st : session) (arns names types statuses provider_names : option (list string))
        (lists : list (list device)) :
  let filters :=
    match arns with
    | Some (a :: l) => [DeviceFilter "deviceArn" (a :: l)]
    | _ => []
    end in
  braket_search_devices cloud (trace st) filters
  = map (fun ds => Return (DevicesPage (Some ds))) lists ->
  exists results,
    search_devices cloud arns names types statuses provider_names st
    = (Return results, with_trace st (trace st ++ [BraketSearchDevices filters 100])) /\
    (exists keep, results = filter keep (List.concat lists)) /\
    (forall d,
        In d results <->
        In d (List.concat lists) /\ wanted names types statuses provider_names d).
Proof.
  intros filters Hpages.
  exists (filter (fun d => negb (skipped names types statuses provider_names d))
            (List.concat lists)).
  split; [|split].
  - unfold search_devices.
    replace (if truthy_list arns
             then [DeviceFilter "deviceArn" (match arns with Some l => l | None => [] end)]
             else []) with filters by (now destruct arns as [[|a l]|]).
    unfold bind at 1. unfold ask at 1. rewrite Hpages. cbv beta iota.
    now rewrite search_pages_filters.
  - now exists (fun d => negb (skipped names types statuses provider_names d)).
  - intros d. rewrite filter_In, negb_true_iff, skipped_iff. reflexivity.
Qed.

(** X12.  Without other filters, [statuses=None] leaves the RETIRED
    devices out, while the empty list [statuses=[]] returns every device
    of the pages, the RETIRED ones too. *)
Theorem search_devices_retired (st : session) (lists : list (list device)) :
  braket_search_devices cloud (trace st) []
  = map (fun ds => Return (DevicesPage (Some ds))) lists ->
  search_devices cloud None None None None None st
  = (Return (filter (fun d => negb (deviceStatus d =? "RETIRED")%string)
               (List.concat lists)),
     with_trace st (trace st ++ [BraketSearchDevices [] 100])) /\
  search_devices cloud None None None (Some []) None st
  = (Return (List.concat lists),
     with_trace st (trace st ++ [BraketSearchDevices [] 100])).
Proof.
  intros Hpages. unfold search_devices. cbn [truthy_list].
  unfold bind, ask. rewrite Hpages, !search_pages_filters. cbn [app].
  split; do 2 f_equal.
  - apply filter_ext. intros d. unfold skipped. cbn.
    now destruct (deviceStatus d =? "RETIRED")%string.
  - rewrite <- (filter_ext (fun _ => true)) by reflexivity.
    induction (List.concat lists) as [|d l IH]; cbn [filter]; [reflexivity|].
    now rewrite IH.
Qed.

End SearchFacts.

(** The role of the second page is found. *)
Lemma get_default_jobs_role_first_match_witness :
  Services.get_default_jobs_role ServicesSpec.accepting_cloud ServicesSpec.fresh_session
  = (Services.Return "arn:aws:iam::1:role/service-role/Jobs",
     Services.with_trace ServicesSpec.fresh_session
       [Services.IamListRoles "/service-role/"]).
Proof.
  refine (proj1 (get_default_jobs_role_first_match ServicesSpec.accepting_cloud
                   ServicesSpec.fresh_session
                   [Services.RolesPage
                      (Some [Services.Role "Admin" "arn:aws:iam::1:role/Admin"]);
                    Services.RolesPage
                      (Some [Services.Role "AmazonBraketJobsExecutionRole-1"
                               "arn:aws:iam::1:role/service-role/Jobs"])]
                   [] _)
            (Services.Role "AmazonBraketJobsExecutionRole-1"
               "arn:aws:iam::1:role/service-role/Jobs") _);
    reflexivity.
Defined.

(** A search by name finds the simulator. *)
Lemma search_devices_filters_witness :
  exists results,
    Services.search_devices ServicesSpec.accepting_cloud
      None (Some ["SV1"]) None None None ServicesSpec.fresh_session
    = (Services.Return results,
       Services.with_trace ServicesSpec.fresh_session
         [Services.BraketSearchDevices [] 100]) /\
    (exists keep,
        results = filter keep
                    (List.concat
                       [[Services.Device "arn:sv1" "SV1" "SIMULATOR" "ONLINE" "Amazon";
                         Services.Device "arn:old" "Old" "QPU" "RETIRED" "Vendor"]])) /\
    (forall d,
        In d results <->
        In d (List.concat
                [[Services.Device "arn:sv1" "SV1" "SIMULATOR" "ONLINE" "Amazon";
                  Services.Device "arn:old" "Old" "QPU" "RETIRED" "Vendor"]]) /\
        ServicesSpec.wanted (Some ["SV1"]) None None None d).
Proof.
  apply (search_devices_filters ServicesSpec.accepting_cloud ServicesSpec.fresh_session
           None (Some ["SV1"]) None None None
           [[Services.Device "arn:sv1" "SV1" "SIMULATOR" "ONLINE" "Amazon";
             Services.Device "arn:old" "Old" "QPU" "RETIRED" "Vendor"]]).
  reflexivity.
Defined.

(** The retired device is returned for [statuses=[]] alone. *)
Lemma search_devices_retired_witness :
  Services.search_devices ServicesSpec.accepting_cloud None None None (Some []) None
    ServicesSpec.fresh_session
  = (Services.Return
       (List.concat
          [[Services.Device "arn:sv1" "SV1" "SIMULATOR" "ONLINE" "Amazon";
            Services.Device "arn:old" "Old" "QPU" "RETIRED" "Vendor"]]),
     Services.with_trace ServicesSpec.fresh_session
       [Services.BraketSearchDevices [] 100]).
Proof.
  apply (proj2 (search_devices_retired ServicesSpec.accepting_cloud
                  ServicesSpec.fresh_session
                  [[Services.Device "arn:sv1" "SV1" "SIMULATOR" "ONLINE" "Amazon";
                    Services.Device "arn:old" "Old" "QPU" "RETIRED" "Vendor"]]
                  eq_refl)).
Defined.

(** ** Quantum tasks and jobs *)

Section TaskFacts.

Import Services ServicesSpec.

Variable cloud : Cloud.
Variable environ : string -> option string.

(** The reservation of the context, as an association. *)
Local Abbreviation reservation :=
  (Association (environ "AMZN_BRAKET_RESERVATION_TIME_WINDOW_ARN")
     (Some "RESERVATION_TIME_WINDOW_ARN")).

Local Abbreviation reserved_by_caller kw :=
  (existsb (fun item => opt_eqb (assoc_type item) (Some "RESERVATION_TIME_WINDOW_ARN"))
     (match kw_associations kw with Some l => l | None => [] end)).

Lemma create_quantum_task_run (kw : task_kwargs) (st : session) (dev : string) :
  kw_deviceArn kw = Some dev ->
  exists sent,
    kw_deviceArn sent = Some dev /\
    kw_shots sent = kw_shots kw /\
    kw_rest sent = kw_rest kw /\
    kw_associations sent
    = (if opt_eqb (environ "AMZN_BRAKET_RESERVATION_DEVICE_ARN") (Some dev)
          && truthy (environ "AMZN_BRAKET_RESERVATION_TIME_WINDOW_ARN")
       then Some [reservation] else kw_associations kw) /\
    kw_jobToken sent
    = (if truthy (environ "AMZN_BRAKET_JOB_TOKEN")
       then environ "AMZN_BRAKET_JOB_TOKEN" else kw_jobToken kw) /\
    let warned :=
      if reserved_by_caller kw && truthy (environ "AMZN_BRAKET_RESERVATION_TIME_WINDOW_ARN")
      then [Warning RESERVATION_WARNING] else [] in
    create_quantum_task cloud environ kw st
    = match braket_create_quantum_task cloud (trace st ++ warned) sent with
      | Throw e =>
          (Throw e, with_trace st (trace st ++ warned ++ [BraketCreateQuantumTask sent]))
      | Return response =>
          match quantumTaskArn response, kw_shots kw with
          | None, _ =>
              (Throw (Builtin (KeyError "quantumTaskArn")),
               with_trace st (trace st ++ warned ++ [BraketCreateQuantumTask sent]))
          | Some _, None =>
              (Throw (Builtin (KeyError "shots")),
               with_trace st (trace st ++ warned ++ [BraketCreateQuantumTask sent]))
          | Some arn, Some shots =>
              (Return arn,
               with_trace st
                 (trace st ++ warned
                    ++ [BraketCreateQuantumTask sent;
                        Broadcast (TaskCreationEvent arn shots
                                     (is_some (environ "AMZN_BRAKET_JOB_TOKEN")) dev)]))
          end
      end.
Proof.
  intros Hdev.
  exists (let kw1 :=
            if opt_eqb (environ "AMZN_BRAKET_RESERVATION_DEVICE_ARN") (Some dev)
               && truthy (environ "AMZN_BRAKET_RESERVATION_TIME_WINDOW_ARN")
            then TaskKwargs (kw_deviceArn kw) (kw_shots kw) (Some [reservation])
                   (kw_jobToken kw) (kw_rest kw)
            else kw in
          if truthy (environ "AMZN_BRAKET_JOB_TOKEN")
          then TaskKwargs (kw_deviceArn kw1) (kw_shots kw1) (kw_associations kw1)
                 (environ "AMZN_BRAKET_JOB_TOKEN") (kw_rest kw1)
          else kw1).
  cbv zeta.
  split; [|split; [|split; [|split; [|split]]]];
    try (destruct (opt_eqb (environ "AMZN_BRAKET_RESERVATION_DEVICE_ARN") (Some dev)
                   && truthy (environ "AMZN_BRAKET_RESERVATION_TIME_WINDOW_ARN"));
         destruct (truthy (environ "AMZN_BRAKET_JOB_TOKEN"));
         cbn [kw_deviceArn kw_shots kw_associations kw_jobToken kw_rest];
         solve [reflexivity | exact Hdev]).
  unfold create_quantum_task. rewrite Hdev. cbn [getitem].
  unfold bind, emit, ask, getitem, throw, ret.
  destruct (reserved_by_caller kw
            && truthy (environ "AMZN_BRAKET_RESERVATION_TIME_WINDOW_ARN"));
    cbv beta iota;
    destruct (opt_eqb (environ "AMZN_BRAKET_RESERVATION_DEVICE_ARN") (Some dev)
              && truthy (environ "AMZN_BRAKET_RESERVATION_TIME_WINDOW_ARN"));
    destruct (truthy (environ "AMZN_BRAKET_JOB_TOKEN"));
    cbn [kw_deviceArn kw_shots kw_associations kw_jobToken kw_rest
           trace with_trace Services.region _default_bucket _account_id
           _braket_user_agents];
    rewrite ?app_nil_r;
    match goal with
    | |- context [braket_create_quantum_task cloud ?t ?k] =>
        destruct (braket_create_quantum_task cloud t k) as [[[arn|] status]|e]
    end;
    cbn [quantumTaskArn]; try reflexivity;
    destruct (kw_shots kw) as [shots|]; try reflexivity;
    rewrite ?Hdev;
    cbn [trace with_trace Services.region _default_bucket _account_id
           _braket_user_agents];
    rewrite <- ?app_assoc; reflexivity.
Qed.

Lemma reserved_by_caller_iff (kw : task_kwargs) :
  reserved_by_caller kw = true <-> reserves kw.
Proof.
  unfold reserves. rewrite existsb_exists. split.
  - intros (item & Hin & Htype).
    destruct (kw_associations kw) as [given|]; [|destruct Hin].
    exists given, item. repeat split; auto.
    destruct (assoc_type item) as [t|]; [|discriminate].
    cbn [opt_eqb] in Htype. apply String.eqb_eq in Htype. now subst t.
  - intros (given & item & -> & Hin & Htype). exists item. split; [exact Hin|].
    rewrite Htype. reflexivity.
Qed.

Lemma create_quantum_task_no_device (kw : task_kwargs) (st : session) :
  kw_deviceArn kw = None ->
  trace (snd (create_quantum_task cloud environ kw st))
  = (trace st
       ++ (if reserved_by_caller kw
              && truthy (environ "AMZN_BRAKET_RESERVATION_TIME_WINDOW_ARN")
           then [Warning RESERVATION_WARNING] else []))%list.
Proof.
  intros Hdev. unfold create_quantum_task. rewrite Hdev. cbn [getitem].
  unfold bind, emit, throw, ret.
  destruct (reserved_by_caller kw
            && truthy (environ "AMZN_BRAKET_RESERVATION_TIME_WINDOW_ARN"));
    cbn [snd trace with_trace]; [reflexivity | now rewrite app_nil_r].
Qed.

(** The trace of a call, whatever the task: the warning, if any, comes
    first, and nothing else in it is a warning. *)
Lemma create_quantum_task_trace (kw : task_kwargs) (st : session) :
  exists rest,
    trace (snd (create_quantum_task cloud environ kw st))
    = (trace st
         ++ (if reserved_by_caller kw
                && truthy (environ "AMZN_BRAKET_RESERVATION_TIME_WINDOW_ARN")
             then [Warning RESERVATION_WARNING] else [])
         ++ rest)%list /\
    (forall m, ~ In (Warning m) rest) /\
    (forall dev,
        kw_deviceArn kw = Some dev ->
        exists sent after,
          rest = BraketCreateQuantumTask sent :: after /\
          (after = [] \/ exists e, after = [Broadcast e]) /\
          kw_deviceArn sent = Some dev /\
          kw_shots sent = kw_shots kw /\
          kw_rest sent = kw_rest kw /\
          kw_associations sent
          = (if opt_eqb (environ "AMZN_BRAKET_RESERVATION_DEVICE_ARN") (Some dev)
                && truthy (environ "AMZN_BRAKET_RESERVATION_TIME_WINDOW_ARN")
             then Some [reservation] else kw_associations kw) /\
          kw_jobToken sent
          = (if truthy (environ "AMZN_BRAKET_JOB_TOKEN")
             then environ "AMZN_BRAKET_JOB_TOKEN" else kw_jobToken kw)).
Proof.
  destruct (kw_deviceArn kw) as [dev|] eqn:Hdev.
  - destruct (create_quantum_task_run kw st dev Hdev)
      as (sent & Hd & Hs & Hr & Ha & Ht & Hrun).
    cbv zeta in Hrun. rewrite Hrun.
    assert (Hshape : forall after,
               (after = [] \/ exists e, after = [Broadcast e]) ->
               (forall m, ~ In (Warning m) (BraketCreateQuantumTask sent :: after)) /\
               (forall dev',
                   Some dev = Some dev' ->
                   exists sent' after',
                     BraketCreateQuantumTask sent :: after
                     = BraketCreateQuantumTask sent' :: after' /\
                     (after' = [] \/ exists e, after' = [Broadcast e]) /\
                     kw_deviceArn sent' = Some dev' /\
                     kw_shots sent' = kw_shots kw /\
                     kw_rest sent' = kw_rest kw /\
                     kw_associations sent'
                     = (if opt_eqb (environ "AMZN_BRAKET_RESERVATION_DEVICE_ARN")
                             (Some dev')
                           && truthy (environ "AMZN_BRAKET_RESERVATION_TIME_WINDOW_ARN")
                        then Some [reservation] else kw_associations kw) /\
                     kw_jobToken sent'
                     = (if truthy (environ "AMZN_BRAKET_JOB_TOKEN")
                        then environ "AMZN_BRAKET_JOB_TOKEN" else kw_jobToken kw))).
    { intros after Hafter. split.
      - intros m [H | H]; [discriminate|].
        destruct Hafter as [-> | (e & ->)]; [destruct H|].
        destruct H as [H | []]. discriminate.
      - intros dev' [= <-]. exists sent, after. repeat split; auto. }
    destruct (braket_create_quantum_task cloud _ sent) as [[[a|] status]|e];
      [destruct (kw_shots kw) as [shots|]| |];
      cbn [snd trace with_trace].
    + exists [BraketCreateQuantumTask sent;
              Broadcast (TaskCreationEvent a shots
                           (is_some (environ "AMZN_BRAKET_JOB_TOKEN")) dev)].
      split; [reflexivity|]. apply Hshape. right. eauto.
    + exists [BraketCreateQuantumTask sent]. split; [reflexivity|].
      apply Hshape. now left.
    + exists [BraketCreateQuantumTask sent]. split; [reflexivity|].
      apply Hshape. now left.
    + exists [BraketCreateQuantumTask sent]. split; [reflexivity|].
      apply Hshape. now left.
  - exists []. rewrite app_nil_r. split; [now apply create_quantum_task_no_device|].
    split; [intros m []|]. intros dev Hdev'. discriminate.
Qed.

(** X13.  In the context of a reservation for the device of the task,
    the task is sent with the reservation of the context as its only
    association, whatever associations the caller gave.  The device, the
    shots and the arguments the function does not read are sent as given;
    the job token is the caller's unless the environment holds a token
    that is not empty, which then takes its place.  The warning comes
    before the request exactly when the caller named a reservation, and
    one request is made. *)
Theorem reservation_replaces_associations
        (kw : task_kwargs) (st : session) (dev arn : string) :
  kw_deviceArn kw = Some dev ->
  environ "AMZN_BRAKET_RESERVATION_DEVICE_ARN" = Some dev ->
  environ "AMZN_BRAKET_RESERVATION_TIME_WINDOW_ARN" = Some arn ->
  arn <> "" ->
  exists warned after,
    trace (snd (create_quantum_task cloud environ kw st))
    = (trace st ++ warned
         ++ BraketCreateQuantumTask (reserved_request environ kw dev arn) :: after)%list /\
    (reserves kw -> warned = [Warning RESERVATION_WARNING]) /\
    (~ reserves kw -> warned = []) /\
    (after = [] \/ exists e, after = [Broadcast e]).
Proof.
  intros Hdev Hctx Hres Hne.
  destruct (create_quantum_task_trace kw st) as (rest & Htrace & _ & Hsent).
  destruct (Hsent dev Hdev) as (sent & after & -> & Hafter & Hd & Hs & Hr & Ha & Ht).
  rewrite Hctx, Hres in Ha. cbn [opt_eqb truthy] in Ha.
  rewrite String.eqb_refl in Ha. apply String.eqb_neq in Hne. rewrite Hne in Ha.
  cbn [negb andb] in Ha.
  assert (Hsame : sent = reserved_request environ kw dev arn).
  { unfold reserved_request. destruct sent as [d s a t r].
    cbn [kw_deviceArn kw_shots kw_associations kw_jobToken kw_rest] in *.
    now subst. }
  rewrite Hsame in Htrace.
  rewrite Hres in Htrace. cbn [truthy] in Htrace. rewrite Hne in Htrace.
  cbn [negb] in Htrace. rewrite andb_true_r in Htrace.
  exists (if reserved_by_caller kw then [Warning RESERVATION_WARNING] else []), after.
  split; [exact Htrace|]. split; [|split; [|exact Hafter]].
  - intros H. apply reserved_by_caller_iff in H. now rewrite H.
  - intros H. destruct (reserved_by_caller kw) eqn:Hc; [|reflexivity].
    exfalso. apply H. now apply reserved_by_caller_iff.
Qed.

(** X14.  The warning about an overridden reservation is given exactly
    when the caller named a reservation and the reservation of the context
    is not empty; the devices play no part, and the warning is the first
    thing the call does.  When the context is for another device than the
    task's, the task is then sent with the associations of the caller. *)
Theorem reservation_warning_without_override (kw : task_kwargs) (st : session) :
  (reserves kw /\ truthy (environ "AMZN_BRAKET_RESERVATION_TIME_WINDOW_ARN") = true ->
   exists rest,
     trace (snd (create_quantum_task cloud environ kw st))
     = (trace st ++ Warning RESERVATION_WARNING :: rest)%list /\
     forall m, ~ In (Warning m) rest) /\
  (~ (reserves kw /\ truthy (environ "AMZN_BRAKET_RESERVATION_TIME_WINDOW_ARN") = true) ->
   exists rest,
     trace (snd (create_quantum_task cloud environ kw st)) = (trace st ++ rest)%list /\
     forall m, ~ In (Warning m) rest) /\
  (forall dev,
      reserves kw ->
      truthy (environ "AMZN_BRAKET_RESERVATION_TIME_WINDOW_ARN") = true ->
      kw_deviceArn kw = Some dev ->
      environ "AMZN_BRAKET_RESERVATION_DEVICE_ARN" <> Some dev ->
      exists sent after,
        trace (snd (create_quantum_task cloud environ kw st))
        = (trace st ++ Warning RESERVATION_WARNING
             :: BraketCreateQuantumTask sent :: after)%list /\
        (after = [] \/ exists e, after = [Broadcast e]) /\
        kw_associations sent = kw_associations kw).
Proof.
  destruct (create_quantum_task_trace kw st) as (rest & Htrace & Hquiet & Hsent).
  split; [|split].
  - intros [Hcaller Hres]. apply reserved_by_caller_iff in Hcaller.
    rewrite Hcaller, Hres in Htrace. exists rest. split; [exact Htrace | exact Hquiet].
  - intros Hnot. exists rest. split; [|exact Hquiet].
    destruct (reserved_by_caller kw) eqn:Hcaller;
      [destruct (truthy (environ "AMZN_BRAKET_RESERVATION_TIME_WINDOW_ARN")) eqn:Hres|];
      cbn [andb app] in Htrace; try exact Htrace.
    exfalso. apply Hnot. split; [now apply reserved_by_caller_iff | reflexivity].
  - intros dev Hcaller Hres Hdev Hctx. apply reserved_by_caller_iff in Hcaller.
    rewrite Hcaller, Hres in Htrace.
    destruct (Hsent dev Hdev) as (sent & after & -> & Hafter & _ & _ & _ & Ha & _).
    assert (Hother : opt_eqb (environ "AMZN_BRAKET_RESERVATION_DEVICE_ARN") (Some dev)
                     = false).
    { destruct (environ "AMZN_BRAKET_RESERVATION_DEVICE_ARN") as [d|]; [|reflexivity].
      cbn. apply String.eqb_neq. congruence. }
    rewrite Hother in Ha. cbn [andb] in Ha.
    exists sent, after. split; [exact Htrace|]. split; [exact Hafter | exact Ha].
Qed.

(** X15.  A task is marked as the task of a job when the job token
    variable is set at all, while the token is sent only when it is not
    empty: with an empty token the task is sent with the token of the
    caller, if any, and is broadcast as a job task. *)
Theorem job_token_flag
        (kw : task_kwargs) (st : session) (dev task status : string) (shots : nat) :
  kw_deviceArn kw = Some dev ->
  kw_shots kw = Some shots ->
  (forall t k,
      braket_create_quantum_task cloud t k
      = Return (TaskResponse (Some task) (Some status))) ->
  exists warned sent,
    create_quantum_task cloud environ kw st
    = (Return task,
       with_trace st
         (trace st ++ warned
            ++ [BraketCreateQuantumTask sent;
                Broadcast (TaskCreationEvent task shots
                             (is_some (environ "AMZN_BRAKET_JOB_TOKEN")) dev)])) /\
    (environ "AMZN_BRAKET_JOB_TOKEN" = Some "" -> kw_jobToken sent = kw_jobToken kw) /\
    (environ "AMZN_BRAKET_JOB_TOKEN" = None -> kw_jobToken sent = kw_jobToken kw) /\
    (forall token,
        environ "AMZN_BRAKET_JOB_TOKEN" = Some token -> token <> "" ->
        kw_jobToken sent = Some token).
Proof.
  intros Hdev Hshots Hreply.
  destruct (create_quantum_task_run kw st dev Hdev)
    as (sent & _ & _ & _ & _ & Ht & Hrun).
  cbv zeta in Hrun. rewrite Hreply, Hshots in Hrun. cbn [quantumTaskArn] in Hrun.
  eexists. exists sent. split; [exact Hrun|].
  split; [|split].
  - intros H. now rewrite H in Ht.
  - intros H. now rewrite H in Ht.
  - intros token H Hne. rewrite H in Ht. cbn [truthy] in Ht.
    apply String.eqb_neq in Hne. now rewrite Hne in Ht.
Qed.

Lemma retriable_iff (code message : string) :
  _should_giveup (BotoClientError code message) = false
  <-> @retriable string (Throw (BotoClientError code message)).
Proof.
  unfold _should_giveup, retriable. rewrite negb_false_iff, list_in_iff. split.
  - intros [H | [H | []]]; exists code, message; auto.
  - intros (c & m & [= <- <-] & [-> | ->]); cbn; auto.
Qed.

(** X16.  [get_job] asks at most three times.  It asks again, after a
    wait, only when the answer is a [ClientError] with the code
    [ResourceNotFoundException] or [ThrottlingException], and what it
    returns or raises is the answer to its last request. *)
Theorem get_job_tries (arn : string) (st : session) :
  exists k,
    k <= 2 /\
    (forall j, j < k ->
               retriable (braket_get_job cloud (trace st ++ failed_tries arn j) arn)) /\
    (k < 2 -> ~ retriable (braket_get_job cloud (trace st ++ failed_tries arn k) arn)) /\
    get_job cloud arn st
    = (braket_get_job cloud (trace st ++ failed_tries arn k) arn,
       with_trace st (trace st ++ failed_tries arn k ++ [BraketGetJob arn ["QueueInfo"]])).
Proof.
  assert (Hstop : forall r : outcome string,
             match r with
             | Throw (BotoClientError code message) =>
                 _should_giveup (BotoClientError code message) = true
             | _ => True
             end -> ~ retriable r).
  { intros r Hr (code & message & -> & Hcode).
    assert (Hre : @retriable string (Throw (BotoClientError code message)))
      by (exists code, message; auto).
    apply retriable_iff in Hre. congruence. }
  unfold get_job, max_tries. cbn [Nat.sub on_exception].
  unfold ask at 1. cbn [trace with_trace].
  destruct (braket_get_job cloud (trace st) arn) as [job|e0] eqn:H0.
  { exists 0. cbn [failed_tries]. rewrite app_nil_r, H0.
    split; [lia|]. split; [intros j Hj; lia|]. split; [|reflexivity].
    intros _. now apply Hstop. }
  destruct e0 as [b | code0 message0 | m |];
    try (exists 0; cbn [failed_tries]; rewrite app_nil_r, H0;
         split; [lia|]; split; [intros j Hj; lia|]; split; [|reflexivity];
         intros _; now apply Hstop).
  destruct (_should_giveup (BotoClientError code0 message0)) eqn:Hg0.
  { exists 0. cbn [failed_tries]. rewrite app_nil_r, H0.
    split; [lia|]. split; [intros j Hj; lia|]. split; [|reflexivity].
    intros _. apply Hstop. exact Hg0. }
  apply retriable_iff in Hg0. rewrite <- H0 in Hg0.
  unfold ask at 1.
  cbn [trace with_trace Services.region _default_bucket _account_id
         _braket_user_agents].
  rewrite <- !app_assoc. cbn [app].
  change (trace st ++ [BraketGetJob arn ["QueueInfo"]; Backoff])%list
    with (trace st ++ failed_tries arn 1)%list.
  destruct (braket_get_job cloud (trace st ++ failed_tries arn 1) arn)
    as [job|e1] eqn:H1.
  { exists 1. rewrite H1. split; [lia|]. split; [|split].
    - intros [|j] Hj; [now rewrite app_nil_r | lia].
    - intros _. now apply Hstop.
    - cbn [failed_tries app]. reflexivity. }
  destruct e1 as [b | code1 message1 | m |];
    try (exists 1; rewrite H1; split; [lia|]; split; [|split];
         [intros [|j] Hj; [now rewrite app_nil_r | lia]
         | intros _; now apply Hstop
         | cbn [failed_tries app]; reflexivity]).
  destruct (_should_giveup (BotoClientError code1 message1)) eqn:Hg1.
  { exists 1. rewrite H1. split; [lia|]. split; [|split].
    - intros [|j] Hj; [now rewrite app_nil_r | lia].
    - intros _. apply Hstop. exact Hg1.
    - cbn [failed_tries app]. reflexivity. }
  apply retriable_iff in Hg1. rewrite <- H1 in Hg1.
  unfold ask at 1.
  cbn [trace with_trace Services.region _default_bucket _account_id
         _braket_user_agents].
  rewrite <- !app_assoc. cbn [app].
  change (trace st ++ [BraketGetJob arn ["QueueInfo"]; Backoff;
                       BraketGetJob arn ["QueueInfo"]; Backoff])%list
    with (trace st ++ failed_tries arn 2)%list.
  exists 2. split; [lia|]. split; [|split].
  - intros [|[|j]] Hj; [now rewrite app_nil_r | exact Hg1 | lia].
  - lia.
  - destruct (braket_get_job cloud (trace st ++ failed_tries arn 2) arn) as [job|e2];
      [reflexivity|].
    destruct e2 as [b | code2 message2 | m |]; try reflexivity.
    now destruct (_should_giveup (BotoClientError code2 message2)).
Qed.

End TaskFacts.

(** The reservation of the context takes the place of the caller's, and
    the caller is warned. *)
Lemma reservation_replaces_associations_witness :
  exists warned after,
    Services.trace
      (snd (Services.create_quantum_task ServicesSpec.accepting_cloud
              ServicesSpec.reserved_environ ServicesSpec.reserved_task
              ServicesSpec.fresh_session))
    = (Services.trace ServicesSpec.fresh_session
         ++ warned
         ++ Services.BraketCreateQuantumTask
              (ServicesSpec.reserved_request ServicesSpec.reserved_environ
                 ServicesSpec.reserved_task "arn:device" "arn:reservation")
         :: after)%list /\
    (ServicesSpec.reserves ServicesSpec.reserved_task ->
     warned = [Services.Warning Services.RESERVATION_WARNING]) /\
    (~ ServicesSpec.reserves ServicesSpec.reserved_task -> warned = []) /\
    (after = [] \/ exists e, after = [Services.Broadcast e]).
Proof.
  apply (reservation_replaces_associations ServicesSpec.accepting_cloud
           ServicesSpec.reserved_environ ServicesSpec.reserved_task
           ServicesSpec.fresh_session "arn:device" "arn:reservation");
    solve [reflexivity | discriminate].
Defined.

(** The warning is given although the reservation is for another device. *)
Lemma reservation_warning_without_override_witness :
  exists sent after,
    Services.trace
      (snd (Services.create_quantum_task ServicesSpec.accepting_cloud
              ServicesSpec.elsewhere_environ ServicesSpec.reserved_task
              ServicesSpec.fresh_session))
    = (Services.trace ServicesSpec.fresh_session
         ++ Services.Warning Services.RESERVATION_WARNING
         :: Services.BraketCreateQuantumTask sent :: after)%list /\
    (after = [] \/ exists e, after = [Services.Broadcast e]) /\
    Services.kw_associations sent
    = Services.kw_associations ServicesSpec.reserved_task.
Proof.
  apply (proj2 (proj2 (reservation_warning_without_override
                         ServicesSpec.accepting_cloud ServicesSpec.elsewhere_environ
                         ServicesSpec.reserved_task ServicesSpec.fresh_session))
           "arn:device");
    try solve [reflexivity | discriminate].
  exists [Services.Association (Some "arn:mine") (Some "RESERVATION_TIME_WINDOW_ARN")],
    (Services.Association (Some "arn:mine") (Some "RESERVATION_TIME_WINDOW_ARN")).
  split; [reflexivity|]. split; [now left | reflexivity].
Defined.

(** An empty job token: a job task, sent without a token. *)
Lemma job_token_flag_witness :
  exists warned sent,
    Services.create_quantum_task ServicesSpec.accepting_cloud
      ServicesSpec.reserved_environ ServicesSpec.reserved_task ServicesSpec.fresh_session
    = (Services.Return "arn:task",
       Services.with_trace ServicesSpec.fresh_session
         (Services.trace ServicesSpec.fresh_session ++ warned
            ++ [Services.BraketCreateQuantumTask sent;
                Services.Broadcast
                  (Services.TaskCreationEvent "arn:task" 100
                     (Services.is_some (ServicesSpec.reserved_environ "AMZN_BRAKET_JOB_TOKEN"))
                     "arn:device")])) /\
    (ServicesSpec.reserved_environ "AMZN_BRAKET_JOB_TOKEN" = Some "" ->
     Services.kw_jobToken sent = Services.kw_jobToken ServicesSpec.reserved_task) /\
    (ServicesSpec.reserved_environ "AMZN_BRAKET_JOB_TOKEN" = None ->
     Services.kw_jobToken sent = Services.kw_jobToken ServicesSpec.reserved_task) /\
    (forall token,
        ServicesSpec.reserved_environ "AMZN_BRAKET_JOB_TOKEN" = Some token ->
        token <> "" ->
        Services.kw_jobToken sent = Some token).
Proof.
  apply (job_token_flag ServicesSpec.accepting_cloud ServicesSpec.reserved_environ
           ServicesSpec.reserved_task ServicesSpec.fresh_session
           "arn:device" "arn:task" "CREATED" 100);
    reflexivity.
Defined.

(** ** Images and the user agent *)

Section ImageFacts.

Import Re Services ServicesSpec.

Variable cloud : Cloud.

Lemma digit_iff (c : ascii) : cset_mem digit c = true <-> is_digit c.
Proof.
  unfold digit, is_digit. cbn [cset_mem]. unfold mem. rewrite existsb_exists. split.
  - intros (d & Hd & Heq). apply Ascii.eqb_eq in Heq. now subst.
  - intros H. exists c. split; [exact H | apply Ascii.eqb_refl].
Qed.

Lemma plus_loop_ends (cs : cset) (p : nat) (s : string) :
  is_some (plus_loop cs p s [] (fun st => Some (groups st))) = true <->
  exists c s', s = String c s' /\ cset_mem cs c = true.
Proof.
  destruct s as [|c s]; cbn [plus_loop].
  - split; [discriminate | intros (c & s' & H & _); discriminate].
  - destruct (cset_mem cs c) eqn:Hc.
    + split; [intros _; now exists c, s|]. intros _.
      now destruct (plus_loop cs (Datatypes.S p) s [] (fun st => Some (groups st))).
    + split; [discriminate|]. intros (c' & s' & [= <- <-] & H). congruence.
Qed.

Lemma py_version_here (p : nat) (s : string) :
  is_some (exec PY_VERSION (MState p s []) (fun st => Some (groups st))) = true <->
  exists d1 d2 after,
    is_digit d1 /\ is_digit d2 /\ s = "py" ++ String d1 (String d2 after).
Proof.
  unfold PY_VERSION. split.
  - destruct (exec (lits "py" (Cat (Chr digit) (Plus digit))) (MState p s [])
                (fun st => Some (groups st))) as [g|] eqn:H; [|discriminate].
    intros _. apply exec_lits_iff in H as (t & -> & H).
    cbn [exec rest pos groups advance] in H.
    destruct t as [|d1 t]; [discriminate|].
    destruct (cset_mem digit d1) eqn:H1; [|discriminate].
    assert (H2 : is_some (plus_loop digit (Datatypes.S (p + String.length "py")) t []
                            (fun st => Some (groups st))) = true)
      by (cbn [advance pos groups] in H; now rewrite H).
    apply plus_loop_ends in H2 as (d2 & after & -> & H2).
    exists d1, d2, after. split; [now apply digit_iff|].
    split; [now apply digit_iff | reflexivity].
  - intros (d1 & d2 & after & H1 & H2 & ->).
    apply digit_iff in H1, H2.
    assert (H : is_some (plus_loop digit (Datatypes.S (p + String.length "py"))
                           (String d2 after) [] (fun st => Some (groups st))) = true)
      by (apply plus_loop_ends; now exists d2, after).
    destruct (plus_loop digit (Datatypes.S (p + String.length "py")) (String d2 after) []
                (fun st => Some (groups st))) as [g|] eqn:Hg; [|discriminate].
    assert (Hexec : exec (lits "py" (Cat (Chr digit) (Plus digit)))
                      (MState p ("py" ++ String d1 (String d2 after)) [])
                      (fun st => Some (groups st)) = Some g).
    { apply exec_lits_iff. exists (String d1 (String d2 after)). split; [reflexivity|].
      cbn [exec rest pos groups advance]. now rewrite H1. }
    now rewrite Hexec.
Qed.

Lemma search_from_iff (r : regex) (s : string) :
  forall p,
    is_some (search_from r p s) = true <->
    exists before after,
      s = before ++ after /\
      is_some (exec r (MState (p + String.length before) after [])
                 (fun st => Some (groups st))) = true.
Proof.
  induction s as [|c s IH]; intros p; cbn [search_from].
  - destruct (exec r (MState p "" []) (fun st => Some (groups st))) as [g|] eqn:H.
    + split; [|reflexivity]. intros _. exists "", "". cbn [String.length].
      rewrite Nat.add_0_r, H. auto.
    + split; [discriminate|]. intros (before & after & Heq & Hm).
      symmetry in Heq. apply append_is_empty in Heq as [-> ->].
      cbn [String.length] in Hm. rewrite Nat.add_0_r, H in Hm. discriminate.
  - destruct (exec r (MState p (String c s) []) (fun st => Some (groups st)))
      as [g|] eqn:H.
    + split; [|reflexivity]. intros _. exists "", (String c s). cbn [String.length].
      rewrite Nat.add_0_r, H. auto.
    + rewrite IH. split.
      * intros (before & after & -> & Hm). exists (String c before), after.
        split; [reflexivity|]. cbn [String.length].
        now rewrite Nat.add_succ_r.
      * intros ([|c' before] & after & Heq & Hm).
        -- cbn [append String.length] in *. subst after.
           rewrite Nat.add_0_r, H in Hm. discriminate.
        -- cbn [append] in Heq. injection Heq as <- ->.
           exists before, after. split; [reflexivity|].
           cbn [String.length] in Hm. now rewrite Nat.add_succ_r in Hm.
Qed.

Lemma python_tag_spec (tag : string) :
  ascii_text tag -> python_tag tag = true -> has_python_version tag.
Proof.
  intros _.
  unfold python_tag, re_search, has_python_version. rewrite search_from_iff.
  intros (before & after & -> & Hm).
  apply py_version_here in Hm as (d1 & d2 & rest & H1 & H2 & ->).
  now exists before, d1, d2, rest.
Qed.

(** X17.  On a tag of ASCII characters, the search for [py\d\d+] that
    picks the full tag succeeds exactly when the tag holds [py] followed
    by two digits. *)
Theorem python_tag_iff (tag : string) :
  ascii_text tag ->
  python_tag tag = true <-> has_python_version tag.
Proof.
  intros _.
  unfold python_tag, re_search, has_python_version. rewrite search_from_iff. split.
  - intros (before & after & -> & Hm).
    apply py_version_here in Hm as (d1 & d2 & rest & H1 & H2 & ->).
    now exists before, d1, d2, rest.
  - intros (before & d1 & d2 & rest & H1 & H2 & ->).
    exists before, ("py" ++ String d1 (String d2 rest)). split; [reflexivity|].
    apply py_version_here. now exists d1, d2, rest.
Qed.

Lemma split_length (c : ascii) (s : string) :
  List.length (split c s) = Datatypes.S (count_char c s).
Proof.
  induction s as [|d s IH]; cbn [split count_char]; [reflexivity|].
  destruct (Ascii.eqb d c); cbn [List.length Nat.add]; [now rewrite IH|].
  destruct (split c s) as [|w ws]; cbn [List.length] in *; [discriminate | exact IH].
Qed.

Lemma split_first (c : ascii) (s : string) : exists w ws, split c s = w :: ws.
Proof.
  pose proof (split_length c s) as H.
  destruct (split c s) as [|w ws]; [discriminate | now exists w, ws].
Qed.

Lemma wrapped_needs_one_tag (image_uri : string) (st : session) :
  count_char ":" (last (split "/" image_uri) EmptyString) <> 1 ->
  exists msg,
    get_full_image_tag_wrapped cloud image_uri st
    = (Throw (Builtin (ValueError msg)), st).
Proof.
  intros Hcount. unfold get_full_image_tag_wrapped.
  destruct (split_first "." image_uri) as (registry & more & Hreg). rewrite Hreg.
  unfold bind at 1. cbn [first_item ret].
  pose proof (split_length ":" (last (split "/" image_uri) EmptyString)) as Hlen.
  unfold bind at 1.
  destruct (split ":" (last (split "/" image_uri) EmptyString))
    as [|repository [|tag [|x rest]]]; cbn [List.length] in Hlen.
  - discriminate.
  - eexists. reflexivity.
  - exfalso. apply Hcount. now injection Hlen.
  - eexists. reflexivity.
Qed.

(** X18.  An image URI whose last component after [/] does not hold
    exactly one [:] makes [get_full_image_tag] raise [ValueError] before
    it asks anything of ECR.  This is so for the body, and for every call
    of the cached function: no call ever keeps a result for such a URI. *)
Theorem get_full_image_tag_needs_one_tag (image_uri : string) (st : session) :
  count_char ":" (last (split "/" image_uri) EmptyString) <> 1 ->
  exists msg,
    get_full_image_tag_wrapped cloud image_uri st
    = (Throw (Builtin (ValueError msg)), st) /\
    (forall kept,
        memo_get image_uri kept = None ->
        get_full_image_tag cloud image_uri kept st
        = (Throw (Builtin (ValueError msg)), st)) /\
    (forall other kept st',
        memo_get image_uri kept = None ->
        match get_full_image_tag cloud other kept st' with
        | (Return (_, kept'), _) => memo_get image_uri kept' = None
        | (Throw _, _) => True
        end).
Proof.
  intros Hcount.
  destruct (wrapped_needs_one_tag image_uri st Hcount) as (msg & Hbody).
  exists msg. split; [exact Hbody|]. split.
  - intros kept Hmiss. unfold get_full_image_tag. rewrite Hmiss.
    unfold bind. now rewrite Hbody.
  - intros other kept st' Hmiss. unfold get_full_image_tag.
    destruct (memo_get other kept) as [hit|] eqn:Hother; [exact Hmiss|].
    unfold bind.
    destruct (get_full_image_tag_wrapped cloud other st') as [[tag|e] st''] eqn:Hrun;
      [|exact I].
    cbn [ret memo_get].
    destruct (String.eqb_spec other image_uri) as [-> | _]; [|exact Hmiss].
    destruct (wrapped_needs_one_tag image_uri st' Hcount) as (msg' & Hbody').
    rewrite Hbody' in Hrun. discriminate.
Qed.

Lemma for_return_tags (entries : list (option string * string)) (st : session) :
  for_return (map tagged entries)
    (fun image =>
       id <- getitem "imageId" (imageId image) ;;
       tag <- getitem "imageTag" (imageTag id) ;;
       if is_some (re_search PY_VERSION tag) then ret (Some tag) else ret None) st
  = (Return (find python_tag (map snd entries)), st).
Proof.
  induction entries as [|[d t] entries IH]; cbn [map for_return find]; [reflexivity|].
  assert (Hbody :
    (id <- getitem "imageId" (imageId (tagged (d, t))) ;;
     tag <- getitem "imageTag" (imageTag id) ;;
     if is_some (re_search PY_VERSION tag) then ret (Some tag) else ret None) st
    = (Return (if python_tag t then Some t else None), st)).
  { unfold bind, getitem, ret, tagged, python_tag. cbn [imageId imageTag fst snd].
    now destruct (is_some (re_search PY_VERSION t)). }
  unfold bind at 1. rewrite Hbody. cbn [snd].
  destruct (python_tag t); [reflexivity | exact IH].
Qed.

Lemma wrapped_first_python_tag
      (image_uri registry repository tag digest : string) (more : list string)
      (st : session) (latest_tag : option string) (others : list image)
      (entries : list (option string * string)) :
  split "." image_uri = registry :: more ->
  split ":" (last (split "/" image_uri) EmptyString) = [repository; tag] ->
  ecr_batch_get_image cloud (trace st) registry repository (ByTag tag)
  = Return (ImagesResponse
              (Some (Image (Some (ImageId (Some digest) latest_tag)) :: others))) ->
  ecr_batch_get_image cloud
    (trace st ++ [EcrBatchGetImage registry repository (ByTag tag)])
    registry repository (ByDigest digest)
  = Return (ImagesResponse (Some (map tagged entries))) ->
  get_full_image_tag_wrapped cloud image_uri st
  = (match find python_tag (map snd entries) with
     | Some full => Return full
     | None => Throw (Builtin (ValueError "Full image tag missing."))
     end,
     with_trace st
       (trace st ++ [EcrBatchGetImage registry repository (ByTag tag);
                     EcrBatchGetImage registry repository (ByDigest digest)])).
Proof.
  intros Hreg Hparts Hfirst Hsecond. unfold get_full_image_tag_wrapped.
  rewrite Hreg, Hparts. unfold bind at 1. cbn [first_item ret].
  unfold bind at 1. cbn [ret fst snd].
  unfold bind at 1. unfold ask at 1. rewrite Hfirst.
  unfold bind at 1. cbn [getitem images ret].
  unfold bind at 1. cbn [first_item ret].
  unfold bind at 1. cbn [getitem imageId ret].
  unfold bind at 1. cbn [getitem imageDigest ret].
  unfold bind at 1. unfold ask at 1. cbn [trace with_trace]. rewrite Hsecond.
  unfold bind at 1. cbn [getitem images ret].
  unfold bind at 1. rewrite for_return_tags.
  cbn [with_trace trace Services.region _default_bucket _account_id _braket_user_agents].
  rewrite <- app_assoc.
  now destruct (find python_tag (map snd entries)).
Qed.

(** X19.  For an image URI [registry.<...>/repository:tag] of which no
    result is kept, and images whose tags are ASCII texts,
    [get_full_image_tag] asks ECR for the image with this tag, then for
    the images with the digest of the first one found, and returns the
    first of their tags that holds a Python version, which it keeps;
    without such a tag it raises [ValueError] and keeps nothing.  These
    two requests are all it makes.  Once a tag is kept, a call with the
    same URI returns it and asks nothing. *)
Theorem get_full_image_tag_first_python_tag
        (image_uri registry repository tag digest : string) (more : list string)
        (st : session) (latest_tag : option string) (others : list image)
        (entries : list (option string * string)) (kept : memo) :
  split "." image_uri = registry :: more ->
  split ":" (last (split "/" image_uri) EmptyString) = [repository; tag] ->
  ecr_batch_get_image cloud (trace st) registry repository (ByTag tag)
  = Return (ImagesResponse
              (Some (Image (Some (ImageId (Some digest) latest_tag)) :: others))) ->
  ecr_batch_get_image cloud
    (trace st ++ [EcrBatchGetImage registry repository (ByTag tag)])
    registry repository (ByDigest digest)
  = Return (ImagesResponse (Some (map tagged entries))) ->
  Forall (fun entry => ascii_text (snd entry)) entries ->
  memo_get image_uri kept = None ->
  get_full_image_tag cloud image_uri kept st
  = (match find python_tag (map snd entries) with
     | Some full => Return (full, (image_uri, full) :: kept)
     | None => Throw (Builtin (ValueError "Full image tag missing."))
     end,
     with_trace st
       (trace st ++ [EcrBatchGetImage registry repository (ByTag tag);
                     EcrBatchGetImage registry repository (ByDigest digest)])) /\
  (forall full later st',
      find python_tag (map snd entries) = Some full ->
      memo_get image_uri later = Some full ->
      get_full_image_tag cloud image_uri later st' = (Return (full, later), st')) /\
  (forall full,
      find python_tag (map snd entries) = Some full ->
      memo_get image_uri ((image_uri, full) :: kept) = Some full /\
      has_python_version full).
Proof.
  intros Hreg Hparts Hfirst Hsecond Hascii Hmiss.
  split; [|split].
  - unfold get_full_image_tag. rewrite Hmiss. unfold bind.
    rewrite (wrapped_first_python_tag image_uri registry repository tag digest more
               st latest_tag others entries Hreg Hparts Hfirst Hsecond).
    now destruct (find python_tag (map snd entries)).
  - intros full later st' _ Hhit. unfold get_full_image_tag. now rewrite Hhit.
  - intros full Hfind. split.
    + cbn [memo_get]. now rewrite String.eqb_refl.
    + apply List.find_some in Hfind as [Hin Htag].
      apply python_tag_spec; [|exact Htag].
      apply in_map_iff in Hin as (entry & <- & Hentry).
      rewrite Forall_forall in Hascii. now apply Hascii.
Qed.

Lemma str_in_closing (s sub : string) : str_in sub (s ++ sub) = true.
Proof.
  unfold str_in. destruct (PyStr.find sub (s ++ sub)) eqn:H; [reflexivity|].
  exfalso. apply (find_none sub (s ++ sub) H s "").
  now rewrite append_nil_r.
Qed.

Variable environ : string -> option string.

(** X20.  After [add_braket_user_agent] the user agent holds the value as
    a substring.  A value that occurs in the user agent already, also
    inside another entry, is not added; any other is appended after a
    space.  Adding the same value once more leaves the user agent as it
    is. *)
Theorem add_braket_user_agent_once (user_agent : string) (st : session) :
  let st1 := snd (add_braket_user_agent environ user_agent st) in
  str_in user_agent (_braket_user_agents st1) = true /\
  (str_in user_agent (_braket_user_agents st) = true ->
   _braket_user_agents st1 = _braket_user_agents st) /\
  (str_in user_agent (_braket_user_agents st) = false ->
   _braket_user_agents st1 = _braket_user_agents st ++ " " ++ user_agent) /\
  _braket_user_agents (snd (add_braket_user_agent environ user_agent st1))
  = _braket_user_agents st1.
Proof.
  assert (Hrun : forall s,
    _braket_user_agents (snd (add_braket_user_agent environ user_agent s))
    = if str_in user_agent (_braket_user_agents s) then _braket_user_agents s
      else _braket_user_agents s ++ " " ++ user_agent).
  { intros s. unfold add_braket_user_agent, bind, get, put, emit, ret.
    now destruct (str_in user_agent (_braket_user_agents s)). }
  cbv zeta.
  assert (Hin : str_in user_agent
                  (_braket_user_agents
                     (snd (add_braket_user_agent environ user_agent st))) = true).
  { rewrite Hrun. destruct (str_in user_agent (_braket_user_agents st)) eqn:H;
      [exact H|]. rewrite <- append_assoc. apply str_in_closing. }
  split; [exact Hin|]. split; [|split].
  - intros H. now rewrite Hrun, H.
  - intros H. now rewrite Hrun, H.
  - now rewrite (Hrun (snd _)), Hin.
Qed.

End ImageFacts.

(** A tag with a Python version. *)
Lemma python_tag_iff_witness :
  ServicesSpec.python_tag "1.0-cpu-py310-ubuntu22.04" = true <->
  ServicesSpec.has_python_version "1.0-cpu-py310-ubuntu22.04".
Proof.
  apply (python_tag_iff "1.0-cpu-py310-ubuntu22.04"). reflexivity.
Defined.

(** An image URI without a tag. *)
Lemma get_full_image_tag_needs_one_tag_witness :
  exists msg,
    Services.get_full_image_tag_wrapped ServicesSpec.accepting_cloud
      "123.dkr.ecr.us-west-2.amazonaws.com/amazon-braket-base-jobs"
      ServicesSpec.fresh_session
    = (Services.Throw (Services.Builtin (ValueError msg)), ServicesSpec.fresh_session) /\
    (forall kept,
        Services.memo_get
          "123.dkr.ecr.us-west-2.amazonaws.com/amazon-braket-base-jobs" kept = None ->
        Services.get_full_image_tag ServicesSpec.accepting_cloud
          "123.dkr.ecr.us-west-2.amazonaws.com/amazon-braket-base-jobs" kept
          ServicesSpec.fresh_session
        = (Services.Throw (Services.Builtin (ValueError msg)),
           ServicesSpec.fresh_session)) /\
    (forall other kept st',
        Services.memo_get
          "123.dkr.ecr.us-west-2.amazonaws.com/amazon-braket-base-jobs" kept = None ->
        match Services.get_full_image_tag ServicesSpec.accepting_cloud other kept st' with
        | (Services.Return (_, kept'), _) =>
            Services.memo_get
              "123.dkr.ecr.us-west-2.amazonaws.com/amazon-braket-base-jobs" kept' = None
        | (Services.Throw _, _) => True
        end).
Proof.
  apply (get_full_image_tag_needs_one_tag ServicesSpec.accepting_cloud
           "123.dkr.ecr.us-west-2.amazonaws.com/amazon-braket-base-jobs"
           ServicesSpec.fresh_session).
  cbn. discriminate.
Defined.

(** The tag [latest] resolves to the tag with the Python version, which
    is kept. *)
Lemma get_full_image_tag_first_python_tag_witness :
  Services.get_full_image_tag ServicesSpec.accepting_cloud
    "123.dkr.ecr.us-west-2.amazonaws.com/amazon-braket-base-jobs:latest" []
    ServicesSpec.fresh_session
  = (Services.Return
       ("1.0-cpu-py310-ubuntu22.04",
        [("123.dkr.ecr.us-west-2.amazonaws.com/amazon-braket-base-jobs:latest",
          "1.0-cpu-py310-ubuntu22.04")]),
     Services.with_trace ServicesSpec.fresh_session
       [Services.EcrBatchGetImage "123" "amazon-braket-base-jobs"
          (Services.ByTag "latest");
        Services.EcrBatchGetImage "123" "amazon-braket-base-jobs"
          (Services.ByDigest "sha256:0")]).
Proof.
  refine (proj1 (get_full_image_tag_first_python_tag ServicesSpec.accepting_cloud
           "123.dkr.ecr.us-west-2.amazonaws.com/amazon-braket-base-jobs:latest"
           "123" "amazon-braket-base-jobs" "latest" "sha256:0"
           ["dkr"; "ecr"; "us-west-2"; "amazonaws"; "com/amazon-braket-base-jobs:latest"]
           ServicesSpec.fresh_session (Some "latest")
           [ServicesSpec.tagged (Some "sha256:0", "1.0-cpu-py310-ubuntu22.04")]
           [(Some "sha256:0", "latest");
            (Some "sha256:0", "1.0-cpu-py310-ubuntu22.04")] []
           eq_refl eq_refl eq_refl eq_refl _ eq_refl)).
  repeat constructor.
Defined.

(** ** Canonical URIs and the URI of a matched file *)

Section CanonicalFacts.

Import Spec AwsSession TransferSpec.

(** X21.  Whatever form was parsed, building a URI again from the bucket
    and the key gives the [s3://] form of the same object: it parses to
    the same bucket and key, and [is_s3_uri] accepts it. *)
Theorem parse_then_construct_is_canonical (s bucket key : string) :
  parse_s3_uri s = Ok (bucket, key) ->
  construct_s3_uri bucket [key] = Ok ("s3://" ++ bucket ++ "/" ++ key) /\
  parse_s3_uri ("s3://" ++ bucket ++ "/" ++ key) = Ok (bucket, key) /\
  is_s3_uri ("s3://" ++ bucket ++ "/" ++ key) = Ok true.
Proof.
  intros H. apply parse_s3_uri_ok_iff in H as (Hb & Hk & _).
  assert (Hparse : parse_s3_uri ("s3://" ++ bucket ++ "/" ++ key) = Ok (bucket, key)).
  { apply parse_s3_uri_ok_iff. split; [|split]; auto.
    exists "". rewrite append_nil_r. split; [now left|].
    right. exists "s3". split; [now left | reflexivity]. }
  split; [reflexivity|]. split; [exact Hparse|].
  unfold is_s3_uri. now rewrite Hparse.
Qed.

Lemma replace_all_leading (d t new : string) :
  d <> "" -> PyStr.find d t = None ->
  PyStr.replace (d ++ t) d new None = new ++ t.
Proof.
  intros Hne Hfind. unfold PyStr.replace.
  destruct (String.eqb_spec d "") as [|_]; [congruence|].
  cbn [PyStr.replace_loop].
  assert (H0 : PyStr.find d (d ++ t) = Some 0).
  { pose proof (prefix_append d t) as Hp.
    destruct (d ++ t); cbn [PyStr.find]; now rewrite Hp. }
  rewrite H0. cbn [Nat.add].
  replace (PyStr.take 0 (d ++ t)) with "" by now destruct (d ++ t).
  rewrite drop_append. cbn [append].
  now rewrite replace_loop_absent.
Qed.

(** X22.  For a file of the working directory whose name starts with the
    local prefix and does not hold the prefix again, the URI
    [upload_local_data] computes is the S3 prefix followed by the rest of
    the name. *)
Theorem remote_uri_of_matched_file (local_prefix s3_prefix rest : string) :
  component local_prefix ->
  PyStr.find local_prefix rest = None ->
  remote_uri local_prefix s3_prefix (PathLib.Path_ "" [local_prefix ++ rest])
  = s3_prefix ++ rest.
Proof.
  intros Hd Hfind.
  destruct (as_posix_drops_closing_slash local_prefix Hd) as [_ Hplain].
  unfold remote_uri. rewrite Hplain.
  change (PathLib.as_posix (PathLib.Path_ "" [local_prefix ++ rest]))
    with (local_prefix ++ rest).
  apply replace_all_leading; [apply Hd | exact Hfind].
Qed.

End CanonicalFacts.

(** The object URL of the docstring and its canonical form. *)
Lemma parse_then_construct_is_canonical_witness :
  AwsSession.construct_s3_uri "my-bucket" ["my/key"]
  = Ok ("s3://" ++ "my-bucket" ++ "/" ++ "my/key") /\
  AwsSession.parse_s3_uri ("s3://" ++ "my-bucket" ++ "/" ++ "my/key")
  = Ok ("my-bucket", "my/key") /\
  AwsSession.is_s3_uri ("s3://" ++ "my-bucket" ++ "/" ++ "my/key") = Ok true.
Proof.
  apply (parse_then_construct_is_canonical
           "https://my-bucket.s3.us-west-2.amazonaws.com/my/key" "my-bucket" "my/key").
  reflexivity.
Defined.

(** [input-2.csv] under the prefix [input]. *)
Lemma remote_uri_of_matched_file_witness :
  AwsSession.remote_uri "input" "s3://my-bucket/dir/input"
    (PathLib.Path_ "" ["input" ++ "-2.csv"])
  = "s3://my-bucket/dir/input" ++ "-2.csv".
Proof.
  apply (remote_uri_of_matched_file "input" "s3://my-bucket/dir/input" "-2.csv");
    [repeat split; discriminate | reflexivity].
Defined.
